(** * Metadata content search: a shallow embedding of [services/salesforce]

    The development follows [searchCodeContent] and its helpers
    ([escapeSOSL], [buildSearchUrl], [handleApiError], [toolingQuery],
    [searchInContent], the merge and rank tail) as they are written in the
    TypeScript source, and proves properties of the aggregator. It then
    follows the other exported functions of the service
    ([fetchFieldMetadata], [fetchSalesforceObjects], [fetchObjectFields] and
    their label helpers) and the callers that consume their results
    ([withTokenHandling], the search mutation and the filters of the search
    screen, [getFileIcon] of the field screen).

    Conventions of the embedding.
    - Text is a sequence of code units below 256, held in [string]; case
      mapping is the one of the letters below 256. The one character of
      the source above 255, the ellipsis of [fetchFieldMetadata], is
      written as the three bytes of its UTF-8 form.
    - The shared [searchRegex] is built from the escaped term with the flags
      [gi]. It denotes the term itself, compared ignoring case, and because
      of [g] its method [test] reads and writes the property [lastIndex].
      That property is part of the shared state [Shared], next to the
      [results] array and to the log of the requests that left.
    - Exceptions are values of [Thrown]. A computation [Exec A] maps the
      shared state to a completion (a thrown value or a result) and a new
      shared state; [try]/[catch] is [tryCatch].
    - [await] is a suspension point. The nine branches of [searchPromises]
      are resumed one after the other, each running from its request to its
      settlement, in a settle order that is an input of
      [searchCodeContent]; a request is logged when its branch runs. Inside
      the flow branch the functions of a batch are started in order and
      then resumed in order.
    - [Transport] holds, for each request of a search, how the [await]s on
      it end. [Platform] holds what the platform does with each request,
      which includes leaving it without a response: [searchCodeContentOn]
      is the search against a platform, and its promise can stay pending.
    - [localeCompare] is the collation of the host, an input of the model;
      [Array.prototype.sort] is a stable insertion sort. *)

From Stdlib Require Import String Ascii List ZArith Lia Bool Arith.
From Stdlib Require Import DecimalString Decimal DecimalNat.
From Stdlib Require Import Sorting.Sorted Sorting.Permutation.
Import ListNotations.

Open Scope list_scope.
Open Scope string_scope.

(** ** JavaScript string built-ins used by the service *)

Module Js.

Definition dquote : string := String "034"%char "".
Definition newline : ascii := "010"%char.

(** Text is a sequence of code units below 256. *)

(** The classes [[A-Z]] and [[a-z]] of a regular expression. *)
Definition isUpperChar (c : ascii) : bool :=
  (65 <=? nat_of_ascii c)%nat && (nat_of_ascii c <=? 90)%nat.
Definition isLowerChar (c : ascii) : bool :=
  (97 <=? nat_of_ascii c)%nat && (nat_of_ascii c <=? 122)%nat.

(** The letters with a case below 256: the ASCII letters and the accented
    letters from 192 to 222 and from 224 to 254, the signs 215 and 247
    apart. *)
Definition isUpperLetter (c : ascii) : bool :=
  isUpperChar c
  || ((192 <=? nat_of_ascii c)%nat && (nat_of_ascii c <=? 222)%nat
      && negb (Nat.eqb (nat_of_ascii c) 215)).
Definition isLowerLetter (c : ascii) : bool :=
  isLowerChar c
  || ((224 <=? nat_of_ascii c)%nat && (nat_of_ascii c <=? 254)%nat
      && negb (Nat.eqb (nat_of_ascii c) 247)).

Definition toLowerChar (c : ascii) : ascii :=
  if isUpperLetter c then ascii_of_nat (nat_of_ascii c + 32) else c.

(** The upper-case form of a code unit. The code units 181, 223 and 255
    have an upper-case form that is not one code unit below 256: they are
    left as they are, which is what the canonicalisation of a pattern
    compiled with the [i] flag compares them as. *)
Definition toUpperChar (c : ascii) : ascii :=
  if isLowerLetter c then ascii_of_nat (nat_of_ascii c - 32) else c.

(** [String.prototype.toLowerCase] *)
Fixpoint toLowerCase (s : string) : string :=
  match s with
  | EmptyString => EmptyString
  | String c r => String (toLowerChar c) (toLowerCase r)
  end.

(** White space and line terminators below 256, as [trim] sees them. *)
Definition isSpace (c : ascii) : bool :=
  existsb (Nat.eqb (nat_of_ascii c)) [9; 10; 11; 12; 13; 32; 160].

Fixpoint trimStart (s : string) : string :=
  match s with
  | EmptyString => EmptyString
  | String c r => if isSpace c then trimStart r else s
  end.

Fixpoint trimEnd (s : string) : string :=
  match s with
  | EmptyString => EmptyString
  | String c r =>
      match trimEnd r with
      | EmptyString => if isSpace c then EmptyString else String c EmptyString
      | r' => String c r'
      end
  end.

(** [String.prototype.trim] *)
Definition trim (s : string) : string := trimEnd (trimStart s).

(** Truthiness of a string value: only the empty string is falsy. *)
Definition truthy (s : string) : bool :=
  match s with EmptyString => false | _ => true end.

(** A nullable field: [None] is JSON [null]. *)
Definition truthyField (f : option string) : bool :=
  match f with Some s => truthy s | None => false end.

(** Interpolation of a nullable field in a template literal. *)
Definition show (f : option string) : string :=
  match f with Some s => s | None => "null" end.

(** [String(n)] for a non-negative integer. *)
Definition ofNat (n : nat) : string :=
  NilEmpty.string_of_uint (Nat.to_uint n).

(** [s.split('\n')] *)
Fixpoint splitLines (s : string) : list string :=
  match s with
  | EmptyString => [EmptyString]
  | String c r =>
      if Ascii.eqb c newline then EmptyString :: splitLines r
      else match splitLines r with
           | h :: t => String c h :: t
           | [] => [String c EmptyString]
           end
  end.

(** [parts.join(sep)] *)
Fixpoint join (sep : string) (parts : list string) : string :=
  match parts with
  | [] => EmptyString
  | [p] => p
  | p :: rest => p ++ sep ++ join sep rest
  end.

Fixpoint drop (n : nat) (s : string) : string :=
  match n, s with
  | O, _ => s
  | S k, EmptyString => EmptyString
  | S k, String _ r => drop k r
  end.

Fixpoint take (n : nat) (s : string) : string :=
  match n, s with
  | O, _ => EmptyString
  | S k, EmptyString => EmptyString
  | S k, String c r => String c (take k r)
  end.

(** [s.substring(a, b)]: both indices are clamped to [0, length] and
    swapped when out of order. *)
Definition substring (s : string) (a b : Z) : string :=
  let len := Z.of_nat (String.length s) in
  let a' := Z.min (Z.max a 0) len in
  let b' := Z.min (Z.max b 0) len in
  let lo := Z.min a' b' in
  let hi := Z.max a' b' in
  take (Z.to_nat (hi - lo)) (drop (Z.to_nat lo) s).

(** [needle] read as a prefix of [s], characters compared by [eqc]. *)
Fixpoint prefixBy (eqc : ascii -> ascii -> bool) (needle s : string) : bool :=
  match needle, s with
  | EmptyString, _ => true
  | String _ _, EmptyString => false
  | String a n', String b s' => eqc a b && prefixBy eqc n' s'
  end.

(** Offset of the leftmost occurrence of [needle] in [s]. *)
Fixpoint findBy (eqc : ascii -> ascii -> bool) (needle s : string) : option nat :=
  if prefixBy eqc needle s then Some 0
  else match s with
       | EmptyString => None
       | String _ r => option_map S (findBy eqc needle r)
       end.

(** [s.indexOf(needle)], [-1] when absent. *)
Definition indexOf (s needle : string) : Z :=
  match findBy Ascii.eqb needle s with
  | Some i => Z.of_nat i
  | None => (-1)%Z
  end.

(** [s.includes(needle)] *)
Definition includes (s needle : string) : bool :=
  match findBy Ascii.eqb needle s with Some _ => true | None => false end.

(** Character comparison of a pattern compiled with the [i] flag (without
    [u]): both sides are canonicalised by upper-casing. *)
Definition eqIgnoreCase (a b : ascii) : bool :=
  Ascii.eqb (toUpperChar a) (toUpperChar b).

End Js.

(** ** SOSL escaping and the search URL *)

Definition API_VERSION : string := "v64.0".

(** The character class of the pattern in [escapeSOSL], member by member in
    the order the source lists them (the backslash is listed twice). *)
Definition soslClass : list ascii :=
  [ "\"; "?"; "&"; "|"; "!"; "{"; "}"; "["; "]"; "("; ")"; "^"; "~"; "*"; ":";
    "\"; "034"; "'"; "+"; "-" ]%char.

Definition inSoslClass (c : ascii) : bool := existsb (Ascii.eqb c) soslClass.

(** [input.replace(/([...])/g, "\\$1")]: every member of the class is
    replaced by a backslash followed by itself. *)
Fixpoint escapeSOSL (input : string) : string :=
  match input with
  | EmptyString => EmptyString
  | String c r =>
      if inSoslClass c then String "\"%char (String c (escapeSOSL r))
      else String c (escapeSOSL r)
  end.

(** ** Data model *)

(** One entry of [CodeSearchResult['matches']]. *)
Record Match := mkMatch {
  line : nat;
  content : string;
  snippet : string;
  context : string
}.

(** [interface CodeSearchResult] *)
Record CodeSearchResult := mkResult {
  id : string;
  type : string;
  name : string;
  label : string;
  fileName : string;
  matches : list Match;
  totalMatches : nat
}.

(** Records of the remote platform, restricted to the selected fields the
    service reads. Fields the platform declares non-nillable are strings, the
    nillable ones are [option string] with [None] for JSON [null]. *)
Record ApexClass := mkApexClass {
  cls_Id : string; cls_Name : string; cls_Body : option string
}.
Record ApexTrigger := mkApexTrigger {
  trg_Id : string; trg_Name : string; trg_Body : option string;
  trg_TableEnumOrId : option string
}.
Record Flow := mkFlow {
  flow_Id : string; flow_MasterLabel : option string
}.
(** [LightningComponentBundle] and [AuraDefinitionBundle] select the same
    fields. *)
Record Bundle := mkBundle {
  bnd_Id : string; bnd_DeveloperName : string;
  bnd_MasterLabel : option string; bnd_Description : option string
}.
Record ValidationRule := mkValidationRule {
  vr_Id : string; vr_ValidationName : string;
  vr_ErrorMessage : option string; vr_ErrorDisplayField : option string
}.
Record Layout := mkLayout {
  lay_Id : string; lay_Name : string; lay_TableEnumOrId : option string
}.
Record RecordType := mkRecordType {
  rt_Id : string; rt_Name : string;
  rt_SobjectType : option string; rt_Description : option string
}.
(** An element of [data.searchRecords]; [sr_type] is
    [record?.attributes?.type]. *)
Record SearchRecord := mkSearchRecord {
  sr_type : option string; sr_Id : string; sr_Name : string
}.

(** ** The transport collaborator *)

(** The [message] property of an element of the error array, as
    [handleApiError] reads it. A value that is neither a string nor an
    array (a number, a boolean, an object) has no [includes] method; of
    such a value and of an array the function sees only whether it is
    truthy, whether it includes the words looked for, and its conversion
    to a string. *)
Inductive Message :=
| NoMessage                                   (* the property is absent *)
| NullMessage                                 (* JSON null *)
| Text (text : string)
| NotText (truthy : bool) (shown : string)    (* a number, a boolean, an object *)
| Items (holdsWords : bool) (shown : string). (* an array *)

(** One element of the error array the platform answers with. [errorCode]
    is compared with [===] to a string: [None] stands for an absent
    property and for any value that is not a string. *)
Record ApiError := mkApiError {
  errorCode : option string;
  message : Message
}.

(** What [JSON.parse(errorText)] makes of the text of a response. Reading
    [errorJson[0]] throws on [null]; on any other value it gives the
    element or property [0], and [?.] turns a missing or [null] one into
    [undefined]. [Json elements] lists the elements of an array of error
    objects; a value with no usable property [0] reads as the empty array,
    and one whose property [0] is a string or a number as an element with
    neither property. *)
Inductive Parsed :=
| NotJson                                     (* JSON.parse throws *)
| JsonNull
| Json (elements : list ApiError).

(** The body of a response that is not [ok]: its text, and what
    [JSON.parse] makes of it. *)
Record ErrorBody := mkErrorBody {
  raw : string;
  parsed : Parsed
}.

(** [message?.includes('Session expired')]; [None] when the call throws
    because the value has no such method. *)
Definition includesWords (m : Message) : option bool :=
  match m with
  | NoMessage | NullMessage => Some false
  | Text text => Some (Js.includes text "Session expired")
  | NotText _ _ => None
  | Items holdsWords _ => Some holdsWords
  end.

(** The truthiness of a message. *)
Definition truthyMessage (m : Message) : bool :=
  match m with
  | NoMessage | NullMessage => false
  | Text text => Js.truthy text
  | NotText truthy _ => truthy
  | Items _ _ => true
  end.

(** A message in a template literal. *)
Definition showMessage (m : Message) : string :=
  match m with
  | NoMessage => "undefined"
  | NullMessage => "null"
  | Text text => text
  | NotText _ shown | Items _ shown => shown
  end.

(** The text of [new TokenExpiredError(message)]: the default value of the
    parameter stands in for [undefined] only. *)
Definition tokenExpiredText (m : Message) : string :=
  match m with
  | NoMessage => "Token expired or invalid"
  | _ => showMessage m
  end.

(** What [response.json()] yields for a query. *)
Inductive QueryJson (A : Type) : Type :=
| Unparsable                    (* response.json() rejects *)
| Missing                       (* no array under the expected key *)
| Records (records : list A).
Arguments Unparsable {A}.
Arguments Missing {A}.
Arguments Records {A} records.

(** How an awaited [fetch], and the reading of the body of its response,
    end. [Failed] is a response whose [ok] is false; [Aborted] is the
    rejection caused by the [AbortController] of a request that carries a
    timeout, which only a tooling query does. A request whose [await]
    never ends has no place here: see [Reply] and [inTime], which also
    gives [Aborted] to tooling queries only. *)
Inductive Fetched (A : Type) : Type :=
| Ok (payload : A)
| Failed (status : nat) (errorText : ErrorBody)
| Aborted
| NetworkFailure.               (* fetch rejected *)
Arguments Ok {A} payload.
Arguments Failed {A} status errorText.
Arguments Aborted {A}.
Arguments NetworkFailure {A}.

(** The answers of the remote platform to the calls of one search. *)
Record Transport := mkTransport {
  apexClassAnswer : Fetched (QueryJson ApexClass);
  apexTriggerAnswer : Fetched (QueryJson ApexTrigger);
  flowAnswer : Fetched (QueryJson Flow);
  flowDocument : string -> Fetched string;
  lwcAnswer : Fetched (QueryJson Bundle);
  auraAnswer : Fetched (QueryJson Bundle);
  validationRuleAnswer : Fetched (QueryJson ValidationRule);
  layoutAnswer : Fetched (QueryJson Layout);
  recordTypeAnswer : Fetched (QueryJson RecordType);
  soslAnswer : Fetched (QueryJson SearchRecord)
}.

(** The resources under [/services/data/v64.0/] the service asks for:
    [tooling/query/?q=], [query/?q=], [tooling/sobjects/<type>/<id>] and
    [search/?q=]. Query texts are kept as they are before
    [encodeURIComponent]. *)
Inductive Resource :=
| ToolingQuery (soql : string)
| DataQuery (soql : string)
| ToolingSObject (sobject : string) (recordId : string)
| SoslSearch (sosl : string).

Record Url := mkUrl {
  base : string;
  resource : Resource
}.

(** [buildSearchUrl(base, searchTerm, objectTypes)] *)
Definition buildSearchUrl (base searchTerm : string) (objectTypes : list string) : Url :=
  let escaped := escapeSOSL searchTerm in
  let returning := Js.join ", " (map (fun type => type ++ "(Id,Name)") objectTypes) in
  let sosl :=
    "FIND {" ++ Js.dquote ++ escaped ++ Js.dquote ++ "} IN ALL FIELDS RETURNING "
      ++ returning in
  mkUrl base (SoslSearch sosl).

(** A call of [fetch]: the URL, the headers that vary, and the delay after
    which the request is aborted, if any. *)
Record Request := mkRequest {
  url : Url;
  authorization : string;
  accept : string;
  timeout : option Z
}.

(** ** Exceptions and shared state *)

Inductive Thrown :=
| TokenExpiredError (msg : string)
| AbortError
| TypeError
| Error (msg : string).

Definition isTokenExpired (e : Thrown) : bool :=
  match e with TokenExpiredError _ => true | _ => false end.

(** State shared by the branches of one invocation: the [lastIndex] of
    [searchRegex], the [results] array, and the requests issued so far. *)
Record Shared := mkShared {
  lastIndex : nat;
  results : list CodeSearchResult;
  requests : list Request
}.

Definition Exec (A : Type) : Type := Shared -> (Thrown + A) * Shared.

Definition ret {A} (a : A) : Exec A := fun st => (inr a, st).

Definition bind {A B} (m : Exec A) (k : A -> Exec B) : Exec B :=
  fun st =>
    match m st with
    | (inr a, st') => k a st'
    | (inl e, st') => (inl e, st')
    end.

Definition throw {A} (e : Thrown) : Exec A := fun st => (inl e, st).

Definition tryCatch {A} (body : Exec A) (handler : Thrown -> Exec A) : Exec A :=
  fun st =>
    match body st with
    | (inr a, st') => (inr a, st')
    | (inl e, st') => handler e st'
    end.

Declare Scope exec_scope.
Delimit Scope exec_scope with exec.
Notation "x <- c1 ;; c2" := (bind c1 (fun x => c2))
  (at level 61, c1 at next level, right associativity) : exec_scope.
Notation "c1 ;; c2" := (bind c1 (fun _ => c2))
  (at level 61, right associativity) : exec_scope.
Open Scope exec_scope.

(** [for (const x of xs) body] *)
Fixpoint forEach {A} (xs : list A) (body : A -> Exec unit) : Exec unit :=
  match xs with
  | [] => ret tt
  | x :: rest => body x ;; forEach rest body
  end.

(** [results.push(r)] *)
Definition push (r : CodeSearchResult) : Exec unit :=
  fun st => (inr tt, mkShared (lastIndex st) (results st ++ [r])%list (requests st)).

(** Reading the [results] array. *)
Definition getResults : Exec (list CodeSearchResult) :=
  fun st => (inr (results st), st).

(** A settled [fetch] that produced a [Response]. *)
Inductive Response (A : Type) : Type :=
| Good (payload : A)
| Bad (status : nat) (errorText : ErrorBody).
Arguments Good {A} payload.
Arguments Bad {A} status errorText.

(** [await fetch(url, options)]: the request leaves and the transport's
    answer is what the [await] resumes with; a rejected [fetch] throws. The
    request is recorded when the branch that issues it is run. *)
Definition fetch {A} (req : Request) (answer : Fetched A) : Exec (Response A) :=
  fun st =>
    let st' := mkShared (lastIndex st) (results st) (requests st ++ [req])%list in
    match answer with
    | Ok payload => (inr (Good payload), st')
    | Failed status errorText => (inr (Bad status errorText), st')
    | Aborted => (inl AbortError, st')
    | NetworkFailure => (inl TypeError, st')
    end.

(** ** Error classification *)

(** [handleApiError(response, errorText)]. Every path of the function ends in
    a [throw]; the value thrown is returned here. The two throws inside the
    [try] block are seen by its own [catch] clause, which lets only a
    [TokenExpiredError] through and otherwise looks at the status. *)
Definition handleApiError (status : nat) (errorText : ErrorBody) : Thrown :=
  let httpError :=
    Error ("HTTP error! status: " ++ Js.ofNat status ++ " - " ++ raw errorText) in
  let caught (parseError : Thrown) : Thrown :=
    match parseError with
    | TokenExpiredError _ => parseError
    | _ => if Nat.eqb status 401
           then TokenExpiredError "Session expired or invalid"
           else httpError
    end in
  match parsed errorText with
  | NotJson => caught (Error "SyntaxError")
  | JsonNull => caught TypeError
  | Json errorJson =>
      match errorJson with
      | first :: _ =>
          let sessionCode :=
            match errorCode first with
            | Some c => String.eqb c "INVALID_SESSION_ID"
            | None => false
            end in
          let expired :=
            caught (TokenExpiredError (tokenExpiredText (message first))) in
          if sessionCode then expired
          else
            match includesWords (message first) with
            | None => caught TypeError
            | Some true => expired
            | Some false =>
                if truthyMessage (message first) then
                  caught (Error ("Salesforce API Error: " ++ showMessage (message first)))
                else httpError
            end
      | [] => httpError
      end
  end.

(** ** The shared regular expression *)

(** [searchRegex] is built from the term with every metacharacter escaped
    and the flags [gi]: it denotes the term itself, compared ignoring case.
    With [g] set, [test] starts at [lastIndex], leaves [lastIndex] after the
    match it finds, and resets it to [0] when it finds none. *)
Definition regexExec (searchTerm s : string) (from : nat) : bool * nat :=
  if (String.length s <? from)%nat then (false, 0)
  else match Js.findBy Js.eqIgnoreCase searchTerm (Js.drop from s) with
       | Some k => (true, from + k + String.length searchTerm)
       | None => (false, 0)
       end.

(** [searchRegex.test(s)] *)
Definition test (searchTerm s : string) : Exec bool :=
  fun st =>
    let (hit, next) := regexExec searchTerm s (lastIndex st) in
    (inr hit, mkShared next (results st) (requests st)).

(** [cond && searchRegex.test(s)]: the test runs only when [cond] holds. *)
Definition andTest (cond : bool) (searchTerm s : string) : Exec bool :=
  if cond then test searchTerm s else ret false.

(** ** Queries against the tooling endpoint *)

Section Invocation.

(** The inputs of [searchCodeContent] once validated, and the answers of
    the platform. *)
Variable env : Transport.
Variable cleanInstanceUrl : string.
Variable accessToken : string.
Variable searchTerm : string.

(** A request carrying the [headers] object of [searchCodeContent]. *)
Definition jsonRequest (url : Url) (timeout : option Z) : Request :=
  mkRequest url ("Bearer " ++ accessToken) "application/json" timeout.

(** [toolingQuery(soql, timeout)]: a response that is not [ok] is handed
    to [handleApiError] only when its status is 401; the [catch] clause
    re-throws a [TokenExpiredError] and turns everything else, the abort
    of the timeout included, into an empty record set. [Missing] is a
    result object without [records]: it is returned as it is. *)
Definition toolingQuery {A} (soql : string) (timeout : Z)
    (answer : Fetched (QueryJson A)) : Exec (option (list A)) :=
  tryCatch
    (response <- fetch (jsonRequest (mkUrl cleanInstanceUrl (ToolingQuery soql)) (Some timeout)) answer ;;
     match response with
     | Bad status errorText =>
         if Nat.eqb status 401 then throw (handleApiError status errorText)
         else ret (Some [])
     | Good Unparsable => throw (Error "SyntaxError")
     | Good Missing => ret None
     | Good (Records records) => ret (Some records)
     end)
    (fun error =>
       match error with
       | TokenExpiredError _ => throw error
       | _ => ret (Some [])
       end).

(** Destructuring [{ records }] and reading [records.length]: a missing
    array is a [TypeError]. *)
Definition recordsOf {A} (result : option (list A)) : Exec (list A) :=
  match result with
  | Some records => ret records
  | None => throw TypeError
  end.

(** *** The content scanner *)

(** The highlight window: [radius] characters on each side of the first
    occurrence found by [toLowerCase().indexOf]. *)
Definition snippetOf (ln : string) (radius : Z) : string :=
  let matchIndex := Js.indexOf (Js.toLowerCase ln) (Js.toLowerCase searchTerm) in
  let len := Z.of_nat (String.length ln) in
  let start := Z.max 0 (matchIndex - radius) in
  let stop := Z.min len (matchIndex + Z.of_nat (String.length searchTerm) + radius) in
  (if (0 <? start)%Z then "..." else "")
    ++ Js.trim (Js.substring ln start stop)
    ++ (if (stop <? len)%Z then "..." else "").

(** [contextLines.join('\n')] for the line at index [i]. *)
Definition contextOf (lines : list string) (i : nat) (ln : string) : string :=
  let before :=
    match i with
    | O => []
    | S j =>
        match nth_error lines j with
        | Some prev =>
            if Js.truthy (Js.trim prev)
            then [Js.ofNat i ++ ": " ++ Js.trim prev] else []
        | None => []
        end
    end in
  let after :=
    if (i <? List.length lines - 1)%nat then
      match nth_error lines (i + 1) with
      | Some next =>
          if Js.truthy (Js.trim next)
          then [Js.ofNat (i + 2) ++ ": " ++ Js.trim next] else []
      | None => []
      end
    else [] in
  let current := Js.ofNat (i + 1) ++ ": " ++ Js.trim ln in
  Js.join (String Js.newline "") (before ++ [current] ++ after)%list.

Definition maxMatches : nat := 15.

(** The loop of [searchInContent]:
    [for (let i = 0; i < lines.length && matches.length < maxMatches; i++)].
    [rest] is the part of [lines] from index [i] on. *)
Fixpoint scanLines (type : string) (lines rest : list string) (i : nat)
    (found : list Match) : Exec (list Match) :=
  match rest with
  | [] => ret found
  | ln :: rest' =>
      if (List.length found <? maxMatches)%nat then
        hit <- test searchTerm ln ;;
        let lineNumber := i + 1 in
        let entry :=
          mkMatch lineNumber (contextOf lines i ln) (snippetOf ln 50)
            ("Line " ++ Js.ofNat lineNumber ++ " (" ++ type ++ ")") in
        scanLines type lines rest' (S i)
          (if hit then (found ++ [entry])%list else found)
      else ret found
  end.

(** [searchInContent(content, fileName, type, name, label, id)] *)
Definition searchInContent (content fileName type name label id : string) : Exec unit :=
  if negb (Js.truthy content) || Nat.eqb (String.length content) 0 then ret tt
  else
    let lines := Js.splitLines content in
    found <- scanLines type lines lines 0 [] ;;
    if (0 <? List.length found)%nat then
      push (mkResult id type name label fileName found (List.length found))
    else ret tt.

(** The [catch] clause closing every branch. *)
Definition branchCatch (error : Thrown) : Exec unit :=
  if isTokenExpired error then throw error else ret tt.

(** The query texts of the tooling branches are template literals written
    over several lines: the text sent holds a line break and fourteen
    spaces before every line, and a line break and twelve spaces before the
    closing backquote. *)
Definition templateLiteral (lines : list string) : string :=
  fold_right (fun line rest => String Js.newline ("              " ++ line ++ rest))
    (String Js.newline "            ") lines.

(** *** 1. Apex classes *)

Definition apexClassQuery : string :=
  templateLiteral
    [ "SELECT Id, Name, Body, NamespacePrefix";
      "FROM ApexClass";
      "ORDER BY LastModifiedDate DESC";
      "LIMIT 50" ].

Definition scanApexClass (cls : ApexClass) : Exec unit :=
  match cls_Body cls with
  | Some body =>
      hit <- andTest (Js.truthy body && Js.truthy (Js.trim body)) searchTerm body ;;
      if hit then
        searchInContent body (cls_Name cls ++ ".cls") "apex-class"
          (cls_Name cls) (cls_Name cls) ("apex-class-" ++ cls_Id cls)
      else ret tt
  | None => ret tt
  end.

Definition apexClassBranch : Exec unit :=
  tryCatch
    (result <- toolingQuery apexClassQuery 8000%Z (apexClassAnswer env) ;;
     apexClasses <- recordsOf result ;;
     forEach apexClasses scanApexClass)
    branchCatch.

(** *** 2. Apex triggers *)

Definition triggerQuery : string :=
  templateLiteral
    [ "SELECT Id, Name, Body, TableEnumOrId";
      "FROM ApexTrigger";
      "ORDER BY LastModifiedDate DESC";
      "LIMIT 30" ].

Definition scanApexTrigger (trigger : ApexTrigger) : Exec unit :=
  match trg_Body trigger with
  | Some body =>
      hit <- andTest (Js.truthy body && Js.truthy (Js.trim body)) searchTerm body ;;
      if hit then
        searchInContent body (trg_Name trigger ++ ".trigger") "apex-trigger"
          (trg_Name trigger)
          (trg_Name trigger ++ " (" ++ Js.show (trg_TableEnumOrId trigger) ++ ")")
          ("apex-trigger-" ++ trg_Id trigger)
      else ret tt
  | None => ret tt
  end.

Definition apexTriggerBranch : Exec unit :=
  tryCatch
    (result <- toolingQuery triggerQuery 6000%Z (apexTriggerAnswer env) ;;
     triggers <- recordsOf result ;;
     forEach triggers scanApexTrigger)
    branchCatch.

(** *** 3. Flows *)

Definition flowQuery : string :=
  templateLiteral
    [ "SELECT Id, MasterLabel, Status";
      "FROM Flow";
      "WHERE Status = 'Active'";
      "AND MasterLabel != null";
      "ORDER BY LastModifiedDate DESC";
      "LIMIT 50" ].

(** The table [flowElementTypes]. *)
Definition flowElementTypes : list (string * string) :=
  [ ("label", "Element Label"); ("name", "Element Name");
    ("description", "Element Description"); ("helpText", "Help Text");
    ("value", "Value"); ("stringValue", "String Value");
    ("formula", "Formula"); ("elementReference", "Element Reference");
    ("choiceText", "Choice Text"); ("defaultValue", "Default Value");
    ("errorMessage", "Error Message"); ("validationRule", "Validation Rule");
    ("screenField", "Screen Field"); ("inputParameter", "Input Parameter");
    ("outputParameter", "Output Parameter"); ("variable", "Variable");
    ("textTemplate", "Text Template"); ("recordLookup", "Record Lookup");
    ("recordCreate", "Record Create"); ("recordUpdate", "Record Update");
    ("assignment", "Assignment"); ("decision", "Decision");
    ("screen", "Screen"); ("subflow", "Subflow"); ("loop", "Loop");
    ("wait", "Wait"); ("actionCall", "Action Call");
    ("collectionProcessor", "Collection Processor") ].

Fixpoint lookupTag (table : list (string * string)) (tagName : string) : option string :=
  match table with
  | [] => None
  | (k, v) :: rest => if String.eqb k tagName then Some v else lookupTag rest tagName
  end.

(** [\w] *)
Definition isWordChar (c : ascii) : bool :=
  Js.isUpperChar c || Js.isLowerChar c
  || ((48 <=? nat_of_ascii c)%nat && (nat_of_ascii c <=? 57)%nat)
  || Ascii.eqb c "_"%char.

Fixpoint wordRun (s : string) : string :=
  match s with
  | EmptyString => EmptyString
  | String c r => if isWordChar c then String c (wordRun r) else EmptyString
  end.

(** [line.match(/<(\w+)[^>]*>/)]: the first group of the leftmost match, that
    is the longest run of word characters after the first [<] that is
    followed by one and has a [>] somewhere after it. *)
Fixpoint tagMatch (s : string) : option string :=
  match s with
  | EmptyString => None
  | String c r =>
      if Ascii.eqb c "<"%char && Js.truthy (wordRun r) && Js.includes r ">"
      then Some (wordRun r)
      else tagMatch r
  end.

(** The methods [flowElementTypes], an object literal, inherits from
    [Object.prototype] under names made of word characters. *)
Definition objectPrototypeMethods : list string :=
  [ "constructor"; "hasOwnProperty"; "isPrototypeOf"; "propertyIsEnumerable";
    "toLocaleString"; "toString"; "valueOf";
    "__defineGetter__"; "__defineSetter__"; "__lookupGetter__"; "__lookupSetter__" ].

(** An inherited property in a template literal: a built-in function is
    rendered as Hermes and V8 render it, under its own name ([Object] for
    [constructor]); [__proto__] is [Object.prototype] itself. *)
Definition inheritedText (key : string) : option string :=
  if String.eqb key "__proto__" then Some "[object Object]"
  else if existsb (String.eqb key) objectPrototypeMethods then
    Some ("function "
            ++ (if String.eqb key "constructor" then "Object" else key)
            ++ "() { [native code] }")
  else None.

(** The context label of a matching line of a flow document:
    [flowElementTypes[tagName] || `Flow XML (${tagName})`]. The lookup
    finds the own keys of the table and, behind them, what the table
    inherits; every inherited value is truthy. *)
Definition flowContext (ln : string) : string :=
  match tagMatch ln with
  | Some tagName =>
      match lookupTag flowElementTypes tagName with
      | Some human => if Js.truthy human then human else "Flow XML (" ++ tagName ++ ")"
      | None =>
          match inheritedText tagName with
          | Some text => text
          | None => "Flow XML (" ++ tagName ++ ")"
          end
      end
  | None => "Flow XML"
  end.

(** The locals [flowMatches] and [totalMatches] of one flow. *)
Record FlowLocals := mkFlowLocals {
  flowMatches : list Match;
  flowTotal : nat
}.

Definition maxXmlMatches : nat := 10.

(** The loop over [xmlLines]:
    [for (...; lineIndex < xmlLines.length && xmlMatchCount < maxXmlMatches; ...)]. *)
Fixpoint scanXmlLines (xmlLines rest : list string) (lineIndex xmlMatchCount : nat)
    (locals : FlowLocals) : Exec FlowLocals :=
  match rest with
  | [] => ret locals
  | ln :: rest' =>
      if (xmlMatchCount <? maxXmlMatches)%nat then
        hit <- test searchTerm ln ;;
        let lineNumber := lineIndex + 1 in
        let entry :=
          mkMatch lineNumber (contextOf xmlLines lineIndex ln) (snippetOf ln 60)
            (flowContext ln ++ " Line " ++ Js.ofNat lineNumber) in
        if hit then
          scanXmlLines xmlLines rest' (S lineIndex) (S xmlMatchCount)
            (mkFlowLocals (flowMatches locals ++ [entry])%list (S (flowTotal locals)))
        else
          scanXmlLines xmlLines rest' (S lineIndex) xmlMatchCount locals
      else ret locals
  end.

Definition flowDocumentRequest (flow : Flow) : Request :=
  mkRequest (mkUrl cleanInstanceUrl (ToolingSObject "Flow" (flow_Id flow)))
    ("Bearer " ++ accessToken) "application/xml" None.

(** The part of the per-flow function that runs before its [await]: the
    test of the flow name. *)
Definition flowNameMatch (flow : Flow) : Exec FlowLocals :=
  match flow_MasterLabel flow with
  | Some masterLabel =>
      hit <- andTest (Js.truthy masterLabel) searchTerm masterLabel ;;
      if hit then
        ret (mkFlowLocals
               [mkMatch 1 ("Flow Name: " ++ masterLabel) masterLabel "Flow Name"] 1)
      else ret (mkFlowLocals [] 0)
  | None => ret (mkFlowLocals [] 0)
  end.

(** The rest of the per-flow function: the document is fetched and scanned
    inside [try { ... } catch (xmlError)], and the flow is pushed when it has
    matches. *)
Definition flowDocumentScan (flow : Flow) (locals : FlowLocals) : Exec unit :=
  locals' <-
    tryCatch
      (xmlResponse <- fetch (flowDocumentRequest flow) (flowDocument env (flow_Id flow)) ;;
       match xmlResponse with
       | Good xmlContent =>
           hit <- andTest (Js.truthy xmlContent
                           && (0 <? String.length (Js.trim xmlContent))%nat)
                          searchTerm xmlContent ;;
           if hit then
             let xmlLines := Js.splitLines xmlContent in
             scanXmlLines xmlLines xmlLines 0 0 locals
           else ret locals
       | Bad _ _ => ret locals
       end)
      (fun xmlError => ret locals) ;;
  if (0 <? List.length (flowMatches locals'))%nat then
    let shown := match flow_MasterLabel flow with
                 | Some l => if Js.truthy l then l else "Flow"
                 | None => "Flow"
                 end in
    push (mkResult ("flow-" ++ flow_Id flow) "flow" shown shown (shown ++ ".flow")
            (flowMatches locals') (flowTotal locals'))
  else ret tt.

(** [flows.slice(i, i + batchSize)] for [i = 0, 3, 6, ...] *)
Fixpoint batchesOf3 {A} (l : list A) : list (list A) :=
  match l with
  | a :: b :: c :: rest => [a; b; c] :: batchesOf3 rest
  | [] => []
  | short => [short]
  end.

Fixpoint mapExec {A B} (f : A -> Exec B) (xs : list A) : Exec (list B) :=
  match xs with
  | [] => ret []
  | x :: rest => y <- f x ;; ys <- mapExec f rest ;; ret (y :: ys)
  end.

(** [await Promise.all(batch.map(async (flow) => { ... }))]: the functions of
    a batch are started in order, each running up to its [await]; their
    continuations are then run in the same order, which is one of the
    orders in which the documents of a batch can arrive. The per-flow
    function swallows every exception ([catch (flowError)]). *)
Definition flowBatch (batch : list Flow) : Exec unit :=
  started <- mapExec (fun flow =>
               locals <- tryCatch (flowNameMatch flow)
                           (fun flowError => ret (mkFlowLocals [] 0)) ;;
               ret (flow, locals)) batch ;;
  forEach started (fun fl =>
    tryCatch (flowDocumentScan (fst fl) (snd fl)) (fun flowError => ret tt)).

Definition flowBranch : Exec unit :=
  tryCatch
    (result <- toolingQuery flowQuery 15000%Z (flowAnswer env) ;;
     flows <- recordsOf result ;;
     forEach (batchesOf3 flows) flowBatch)
    branchCatch.

(** *** 4. and 5. Lightning web components and Aura components

    The two branches have the same shape; [BundleKind] holds the literals in
    which they differ. *)

Record BundleKind := mkBundleKind {
  bk_sobject : string;
  bk_type : string;
  bk_extension : string;
  bk_nameContext : string;
  bk_labelContext : string;
  bk_descriptionContext : string
}.

Definition lwcKind : BundleKind :=
  mkBundleKind "LightningComponentBundle" "lwc-bundle" ".js"
    "LWC Name" "LWC Label" "LWC Description".

Definition auraKind : BundleKind :=
  mkBundleKind "AuraDefinitionBundle" "aura-bundle" ".cmp"
    "Aura Name" "Aura Label" "Aura Description".

(** [lwcQuery] and [auraQuery]. *)
Definition bundleQuery (kind : BundleKind) : string :=
  templateLiteral
    [ "SELECT Id, DeveloperName, MasterLabel, Description";
      "FROM " ++ bk_sobject kind;
      "ORDER BY LastModifiedDate DESC";
      "LIMIT 30" ].

(** [fields.filter(Boolean)] *)
Definition filterBoolean (fields : list (option string)) : list string :=
  flat_map (fun f => match f with
                     | Some s => if Js.truthy s then [s] else []
                     | None => []
                     end) fields.

(** [text.length > 100 ? text.substring(0, 100) + '...' : text] *)
Definition clip100 (text : string) : string :=
  if (100 <? String.length text)%nat then Js.substring text 0 100 ++ "..." else text.

(** [field && searchRegex.test(field)] guarding one [matches.push]. *)
Definition fieldMatch (field : option string) (entry : string -> Match) : Exec (list Match) :=
  match field with
  | Some text =>
      hit <- andTest (Js.truthy text) searchTerm text ;;
      ret (if hit then [entry text] else [])
  | None => ret []
  end.

Definition scanBundle (kind : BundleKind) (bundle : Bundle) : Exec unit :=
  let searchableContent :=
    Js.join " " (filterBoolean [Some (bnd_DeveloperName bundle);
                                bnd_MasterLabel bundle; bnd_Description bundle]) in
  hit <- test searchTerm searchableContent ;;
  if hit then
    m1 <- fieldMatch (Some (bnd_DeveloperName bundle))
            (fun text => mkMatch 1 ("Component Name: " ++ text) text (bk_nameContext kind)) ;;
    m2 <- fieldMatch (bnd_MasterLabel bundle)
            (fun text => mkMatch 2 ("Label: " ++ text) text (bk_labelContext kind)) ;;
    m3 <- fieldMatch (bnd_Description bundle)
            (fun text => mkMatch 3 ("Description: " ++ text) (clip100 text)
                           (bk_descriptionContext kind)) ;;
    let found := (m1 ++ m2 ++ m3)%list in
    push (mkResult (bk_type kind ++ "-" ++ bnd_Id bundle) (bk_type kind)
            (bnd_DeveloperName bundle)
            (if Js.truthyField (bnd_MasterLabel bundle)
             then Js.show (bnd_MasterLabel bundle) else bnd_DeveloperName bundle)
            (bnd_DeveloperName bundle ++ bk_extension kind)
            found (List.length found))
  else ret tt.

Definition bundleBranch (kind : BundleKind) (answer : Fetched (QueryJson Bundle)) : Exec unit :=
  tryCatch
    (result <- toolingQuery (bundleQuery kind) 8000%Z answer ;;
     bundles <- recordsOf result ;;
     forEach bundles (scanBundle kind))
    branchCatch.

Definition lwcBranch : Exec unit := bundleBranch lwcKind (lwcAnswer env).
Definition auraBranch : Exec unit := bundleBranch auraKind (auraAnswer env).

(** *** 6. Validation rules *)

Definition validationQuery : string :=
  templateLiteral
    [ "SELECT Id, ValidationName, ErrorMessage, ErrorDisplayField, Active";
      "FROM ValidationRule";
      "ORDER BY LastModifiedDate DESC";
      "LIMIT 30" ].

Definition scanValidationRule (rule : ValidationRule) : Exec unit :=
  let searchableContent :=
    Js.join " " (filterBoolean [Some (vr_ValidationName rule);
                                vr_ErrorMessage rule; vr_ErrorDisplayField rule]) in
  hit <- test searchTerm searchableContent ;;
  if hit then
    m1 <- fieldMatch (Some (vr_ValidationName rule))
            (fun text => mkMatch 1 ("Rule Name: " ++ text) text "Validation Rule Name") ;;
    m2 <- fieldMatch (vr_ErrorMessage rule)
            (fun text => mkMatch 2 ("Error Message: " ++ text) (clip100 text) "Error Message") ;;
    let found := (m1 ++ m2)%list in
    push (mkResult ("validation-rule-" ++ vr_Id rule) "validation-rule"
            (vr_ValidationName rule) (vr_ValidationName rule)
            (vr_ValidationName rule ++ ".validationRule")
            found (List.length found))
  else ret tt.

Definition validationRuleBranch : Exec unit :=
  tryCatch
    (result <- toolingQuery validationQuery 6000%Z (validationRuleAnswer env) ;;
     validationRules <- recordsOf result ;;
     forEach validationRules scanValidationRule)
    branchCatch.

(** *** 7. Page layouts *)

Definition layoutQuery : string :=
  templateLiteral
    [ "SELECT Id, Name, TableEnumOrId";
      "FROM Layout";
      "ORDER BY LastModifiedDate DESC";
      "LIMIT 30" ].

Definition scanLayout (layout : Layout) : Exec unit :=
  hit <- andTest (Js.truthy (lay_Name layout)) searchTerm (lay_Name layout) ;;
  if hit then
    push (mkResult ("page-layout-" ++ lay_Id layout) "page-layout"
            (lay_Name layout)
            (lay_Name layout ++ " (" ++ Js.show (lay_TableEnumOrId layout) ++ ")")
            (Js.show (lay_TableEnumOrId layout) ++ "." ++ lay_Name layout ++ ".layout")
            [mkMatch 1 ("Layout Name: " ++ lay_Name layout) (lay_Name layout)
               "Page Layout Name"]
            1)
  else ret tt.

Definition layoutBranch : Exec unit :=
  tryCatch
    (result <- toolingQuery layoutQuery 6000%Z (layoutAnswer env) ;;
     layouts <- recordsOf result ;;
     forEach layouts scanLayout)
    branchCatch.

(** *** 8. Record types, through the data endpoint and a plain [fetch] *)

(** Written on one line, as a plain string. *)
Definition recordTypeQuery : string :=
  "SELECT Id, Name, SobjectType, Description FROM RecordType ORDER BY LastModifiedDate DESC LIMIT 30".

Definition scanRecordType (recordType : RecordType) : Exec unit :=
  let searchableContent :=
    Js.join " " (filterBoolean [Some (rt_Name recordType); rt_Description recordType]) in
  hit <- test searchTerm searchableContent ;;
  if hit then
    m1 <- fieldMatch (Some (rt_Name recordType))
            (fun text => mkMatch 1 ("Record Type Name: " ++ text) text "Record Type Name") ;;
    m2 <- fieldMatch (rt_Description recordType)
            (fun text => mkMatch 2 ("Description: " ++ text) (clip100 text)
                           "Record Type Description") ;;
    let found := (m1 ++ m2)%list in
    push (mkResult ("record-type-" ++ rt_Id recordType) "record-type"
            (rt_Name recordType)
            (rt_Name recordType ++ " (" ++ Js.show (rt_SobjectType recordType) ++ ")")
            (Js.show (rt_SobjectType recordType) ++ "." ++ rt_Name recordType ++ ".recordType")
            found (List.length found))
  else ret tt.

Definition recordTypeBranch : Exec unit :=
  tryCatch
    (recordTypeResponse <-
       fetch (jsonRequest (mkUrl cleanInstanceUrl (DataQuery recordTypeQuery)) None)
         (recordTypeAnswer env) ;;
     match recordTypeResponse with
     | Bad _ _ => ret tt
     | Good Unparsable => throw (Error "SyntaxError")
     | Good Missing => throw TypeError
     | Good (Records recordTypes) => forEach recordTypes scanRecordType
     end)
    branchCatch.

(** *** 10. The SOSL fallback *)

Definition soslEntry (existingId type extension : string) (record : SearchRecord)
    : CodeSearchResult :=
  mkResult existingId type (sr_Name record) (sr_Name record)
    (sr_Name record ++ extension)
    [mkMatch 1
       ("Found via SOSL search - contains " ++ Js.dquote ++ searchTerm ++ Js.dquote)
       ("Contains " ++ Js.dquote ++ searchTerm ++ Js.dquote)
       "SOSL Search Result"]
    1.

Definition isType (t : option string) (expected : string) : bool :=
  match t with Some s => String.eqb s expected | None => false end.

Definition addSearchRecord (record : SearchRecord) : Exec unit :=
  let existingId :=
    if isType (sr_type record) "ApexClass"
    then "apex-class-" ++ sr_Id record
    else "apex-trigger-" ++ sr_Id record in
  current <- getResults ;;
  if existsb (fun r => String.eqb (id r) existingId) current then ret tt
  else if isType (sr_type record) "ApexClass" then
    push (soslEntry existingId "apex-class" ".cls" record)
  else if isType (sr_type record) "ApexTrigger" then
    push (soslEntry existingId "apex-trigger" ".trigger" record)
  else ret tt.

Definition soslBranch : Exec unit :=
  tryCatch
    (response <-
       fetch (jsonRequest
                (buildSearchUrl cleanInstanceUrl searchTerm ["ApexClass"; "ApexTrigger"])
                None)
         (soslAnswer env) ;;
     match response with
     | Good Unparsable => throw (Error "SyntaxError")
     | Good Missing => ret tt
     | Good (Records searchRecords) => forEach searchRecords addSearchRecord
     | Bad _ _ => ret tt
     end)
    branchCatch.

End Invocation.

(** ** Merging and ranking *)

(** [`${current.type}-${current.name}`] *)
Definition resultKey (r : CodeSearchResult) : string := type r ++ "-" ++ name r.

(** [`${match.line}-${match.snippet}`] *)
Definition matchKey (m : Match) : string := Js.ofNat (line m) ++ "-" ++ snippet m.

(** [acc.findIndex(p)], with [None] for [-1]. *)
Fixpoint findIndex {A} (p : A -> bool) (l : list A) : option nat :=
  match l with
  | [] => None
  | x :: rest => if p x then Some 0 else option_map S (findIndex p rest)
  end.

(** [acc[i] = v] for an index inside the array. *)
Fixpoint setAt {A} (i : nat) (v : A) (l : list A) : list A :=
  match l, i with
  | [], _ => []
  | _ :: rest, O => v :: rest
  | x :: rest, S j => x :: setAt j v rest
  end.

(** The inner [reduce]: a match is kept when no match already kept has its
    key. *)
Definition uniqueMatchesOf (combinedMatches : list Match) : list Match :=
  fold_left
    (fun matchAcc m =>
       if existsb (fun m' => String.eqb (matchKey m') (matchKey m)) matchAcc
       then matchAcc else (matchAcc ++ [m])%list)
    combinedMatches [].

(** The object written back at [existingIndex]. *)
Definition mergeEntry (existing current : CodeSearchResult) : CodeSearchResult :=
  let uniqueMatches := uniqueMatchesOf (matches existing ++ matches current)%list in
  mkResult (id existing) (type existing) (name existing) (label existing)
    (fileName existing) uniqueMatches (List.length uniqueMatches).

(** One step of the outer [reduce]. *)
Definition mergeStep (acc : list CodeSearchResult) (current : CodeSearchResult)
    : list CodeSearchResult :=
  let key := resultKey current in
  match findIndex (fun item => String.eqb (resultKey item) key) acc with
  | None => (acc ++ [current])%list
  | Some existingIndex =>
      match nth_error acc existingIndex with
      | Some existing => setAt existingIndex (mergeEntry existing current) acc
      | None => acc
      end
  end.

(** [results.reduce(..., [])] *)
Definition uniqueResults (results : list CodeSearchResult) : list CodeSearchResult :=
  fold_left mergeStep results [].

(** The comparator handed to [sort]. [localeCompare] is the collation of
    the host, an input of the model. *)
Definition compareResults (localeCompare : string -> string -> Z)
    (a b : CodeSearchResult) : Z :=
  let matchDiff := (Z.of_nat (totalMatches b) - Z.of_nat (totalMatches a))%Z in
  if negb (matchDiff =? 0)%Z then matchDiff
  else localeCompare (name a) (name b).

(** [Array.prototype.sort] is stable; with a consistent comparator its result
    is the one of a stable insertion sort. *)
Fixpoint insertSorted {A} (cmp : A -> A -> Z) (x : A) (l : list A) : list A :=
  match l with
  | [] => [x]
  | y :: rest => if (cmp x y <=? 0)%Z then x :: l else y :: insertSorted cmp x rest
  end.

Definition sort {A} (cmp : A -> A -> Z) (l : list A) : list A :=
  fold_right (insertSorted cmp) [] l.

(** The tail of [searchCodeContent]: dedupe, sort, [slice(0, 50)]. *)
Definition rank (localeCompare : string -> string -> Z)
    (results : list CodeSearchResult) : list CodeSearchResult :=
  firstn 50 (sort (compareResults localeCompare) (uniqueResults results)).

(** ** The dispatcher *)

(** The elements of [searchPromises], in the order they are pushed. *)
Inductive Branch :=
| ApexClasses | ApexTriggers | Flows | Lwc | Aura
| ValidationRules | Layouts | RecordTypes | Sosl.

Definition searchPromises : list Branch :=
  [ApexClasses; ApexTriggers; Flows; Lwc; Aura; ValidationRules; Layouts;
   RecordTypes; Sosl].

Definition Branch_eqb (a b : Branch) : bool :=
  match a, b with
  | ApexClasses, ApexClasses | ApexTriggers, ApexTriggers | Flows, Flows
  | Lwc, Lwc | Aura, Aura | ValidationRules, ValidationRules
  | Layouts, Layouts | RecordTypes, RecordTypes | Sosl, Sosl => true
  | _, _ => false
  end.

Definition runBranch (env : Transport) (cleanInstanceUrl accessToken searchTerm : string)
    (b : Branch) : Exec unit :=
  match b with
  | ApexClasses => apexClassBranch env cleanInstanceUrl accessToken searchTerm
  | ApexTriggers => apexTriggerBranch env cleanInstanceUrl accessToken searchTerm
  | Flows => flowBranch env cleanInstanceUrl accessToken searchTerm
  | Lwc => lwcBranch env cleanInstanceUrl accessToken searchTerm
  | Aura => auraBranch env cleanInstanceUrl accessToken searchTerm
  | ValidationRules => validationRuleBranch env cleanInstanceUrl accessToken searchTerm
  | Layouts => layoutBranch env cleanInstanceUrl accessToken searchTerm
  | RecordTypes => recordTypeBranch env cleanInstanceUrl accessToken searchTerm
  | Sosl => soslBranch env cleanInstanceUrl accessToken searchTerm
  end.

(** The order in which the branches are resumed: the branches named by
    [order] first, each once, then the remaining ones in program order. *)
Fixpoint firstOccurrences (seen l : list Branch) : list Branch :=
  match l with
  | [] => []
  | b :: rest =>
      if existsb (Branch_eqb b) seen then firstOccurrences seen rest
      else b :: firstOccurrences (b :: seen) rest
  end.

Definition settleOrder (order : list Branch) : list Branch :=
  firstOccurrences [] (order ++ searchPromises)%list.

(** How a promise settles. *)
Inductive Settled (A : Type) : Type :=
| Fulfilled (value : A)
| Rejected (reason : Thrown).
Arguments Fulfilled {A} value.
Arguments Rejected {A} reason.

(** A branch run to its settlement: an exception leaving it becomes the
    reason of its rejection. *)
Definition settle (body : Exec unit) : Exec (Settled unit) :=
  fun st =>
    match body st with
    | (inr v, st') => (inr (Fulfilled v), st')
    | (inl e, st') => (inr (Rejected e), st')
    end.

(** [await Promise.allSettled(searchPromises)] under a settle order: the
    outcome of every branch, keyed by the branch. Each branch is run in
    one piece, in the order [order]. Eight of the branches await their one
    request and its body and then work on the shared state in a single
    synchronous run, ending with their settlement: for them the order of
    these runs is all the event loop can vary. The flow branch awaits its
    query, then batch after batch the documents of the flows, and works on
    the shared state in between; it is run here as one piece too, so that
    of the interleavings of its steps with the other branches only those
    are covered in which no other branch runs between them. *)
Fixpoint allSettled (run : Branch -> Exec unit) (order : list Branch)
    : Exec (list (Branch * Settled unit)) :=
  match order with
  | [] => ret []
  | b :: rest =>
      s <- settle (run b) ;;
      others <- allSettled run rest ;;
      ret ((b, s) :: others)
  end.

Fixpoint outcomeOf (b : Branch) (settled : list (Branch * Settled unit)) : option (Settled unit) :=
  match settled with
  | [] => None
  | (b', s) :: rest => if Branch_eqb b b' then Some s else outcomeOf b rest
  end.

(** [searchResults.forEach(...)]: the outcomes are visited in the order of
    [searchPromises]; the first [TokenExpiredError] found is thrown. *)
Definition rethrowTokenExpired (settled : list (Branch * Settled unit)) : Exec unit :=
  forEach searchPromises (fun b =>
    match outcomeOf b settled with
    | Some (Rejected reason) => if isTokenExpired reason then throw reason else ret tt
    | _ => ret tt
    end).

(** [instanceUrl.replace(/\/$/, '')] *)
Fixpoint stripTrailingSlash (s : string) : string :=
  match s with
  | EmptyString => EmptyString
  | String c EmptyString => if Ascii.eqb c "/"%char then EmptyString else s
  | String c r => String c (stripTrailingSlash r)
  end.

(** What the caller of [searchCodeContent] observes: how the returned
    promise settles, and the requests that reached the transport. *)
Record Observation := mkObservation {
  returned : Settled (list CodeSearchResult);
  issued : list Request
}.

Definition initialShared : Shared := mkShared 0 [] [].

(** [searchCodeContent(instanceUrl, accessToken, searchTerm)], run against
    the answers [env] of the platform, the collation [localeCompare] of the
    host and a settle [order] of the branches. *)
Definition searchCodeContent (localeCompare : string -> string -> Z)
    (env : Transport) (order : list Branch)
    (instanceUrl accessToken searchTerm : string) : Observation :=
  let body : Exec (list CodeSearchResult) :=
    if negb (Js.truthy instanceUrl) || negb (Js.truthy accessToken)
       || negb (Js.truthy searchTerm) || (String.length searchTerm <? 2)%nat
    then ret []
    else
      let cleanInstanceUrl := stripTrailingSlash instanceUrl in
      searchResults <-
        allSettled (runBranch env cleanInstanceUrl accessToken searchTerm)
          (settleOrder order) ;;
      rethrowTokenExpired searchResults ;;
      results <- getResults ;;
      ret (rank localeCompare results) in
  match tryCatch body (fun error => ret []) initialShared with
  | (inr value, st) => mkObservation (Fulfilled value) (requests st)
  | (inl reason, st) => mkObservation (Rejected reason) (requests st)
  end.

(** [searchSalesforce] delegates to [searchCodeContent]. *)
Definition searchSalesforce := searchCodeContent.

(** ** Requests that are never answered

    [Fetched] tells how an awaited [fetch], and the reading of the body
    that follows it, end. Against a platform that leaves a request without
    a response, or a response without its body, an [await] of the search
    may never end. *)

(** What the platform does with one request. *)
Inductive Reply (A : Type) : Type :=
| Answered (payload : A)                          (* a response that is [ok], with its body *)
| Refused (status : nat) (errorText : ErrorBody)  (* a response that is not [ok], with its body *)
| Unreachable                                     (* the request fails: [fetch] rejects *)
| Silent                                          (* no response ever arrives *)
| Stalled (status : nat).                         (* a response whose body never arrives *)
Arguments Answered {A} payload.
Arguments Refused {A} status errorText.
Arguments Unreachable {A}.
Arguments Silent {A}.
Arguments Stalled {A} status.

(** What the platform does with the requests of one search. *)
Record Platform := mkPlatform {
  apexClassReply : Reply (QueryJson ApexClass);
  apexTriggerReply : Reply (QueryJson ApexTrigger);
  flowReply : Reply (QueryJson Flow);
  flowDocumentReply : string -> Reply string;
  lwcReply : Reply (QueryJson Bundle);
  auraReply : Reply (QueryJson Bundle);
  validationRuleReply : Reply (QueryJson ValidationRule);
  layoutReply : Reply (QueryJson Layout);
  recordTypeReply : Reply (QueryJson RecordType);
  soslReply : Reply (QueryJson SearchRecord)
}.

(** [response.ok] *)
Definition isOk (status : nat) : bool := (200 <=? status)%nat && (status <=? 299)%nat.

(** The body of a response whose body is not read. *)
Definition unread : ErrorBody := mkErrorBody "" NotJson.

(** How the [await]s on one request end, when they do. [toolingQuery]
    hands [fetch] the signal of an [AbortController] that a timer aborts
    after [timeout] milliseconds, so that a request left without a
    response is rejected with an [AbortError]; the other requests carry no
    signal. Where the [await]s never end (see [staysPending]) the value
    given here is not looked at. *)
Definition ended {A} (signal : bool) (r : Reply A) : Fetched A :=
  match r with
  | Answered payload => Ok payload
  | Refused status errorText => Failed status errorText
  | Unreachable => NetworkFailure
  | Silent => if signal then Aborted else NetworkFailure
  | Stalled status => Failed status unread
  end.

(** The answers a search gets from the platform [p]. *)
Definition inTime (p : Platform) : Transport :=
  mkTransport
    (ended true (apexClassReply p)) (ended true (apexTriggerReply p))
    (ended true (flowReply p)) (fun flowId => ended false (flowDocumentReply p flowId))
    (ended true (lwcReply p)) (ended true (auraReply p))
    (ended true (validationRuleReply p)) (ended true (layoutReply p))
    (ended false (recordTypeReply p)) (ended false (soslReply p)).

(** [toolingQuery] clears its timer as soon as the response is there, and
    then reads the body, with [response.text()] or [response.json()]:
    it never returns when the body never arrives. *)
Definition toolingQueryHangs {A} (r : Reply A) : bool :=
  match r with Stalled _ => true | _ => false end.

(** The record-type query and the SOSL search are fetched without a
    signal, and the body of the response is read whatever its status. *)
Definition plainFetchHangs {A} (r : Reply A) : bool :=
  match r with Silent | Stalled _ => true | _ => false end.

(** The document of a flow is fetched without a signal; its body is read
    when the response is [ok]. *)
Definition flowDocumentHangs (r : Reply string) : bool :=
  match r with
  | Silent => true
  | Stalled status => isOk status
  | _ => false
  end.

(** The flows whose document the flow branch asks for: those the flow
    query answers with. *)
Definition flowsAsked (p : Platform) : list Flow :=
  match flowReply p with
  | Answered (Records flows) => flows
  | _ => []
  end.

(** Some branch of a search with valid arguments never settles: every
    branch sends its first request, and the flow branch asks for the
    document of every flow. [Promise.allSettled] then never settles, and
    neither does the promise of the search. *)
Definition staysPending (p : Platform) : bool :=
  toolingQueryHangs (apexClassReply p) || toolingQueryHangs (apexTriggerReply p)
  || toolingQueryHangs (flowReply p)
  || existsb (fun flow => flowDocumentHangs (flowDocumentReply p (flow_Id flow)))
       (flowsAsked p)
  || toolingQueryHangs (lwcReply p) || toolingQueryHangs (auraReply p)
  || toolingQueryHangs (validationRuleReply p) || toolingQueryHangs (layoutReply p)
  || plainFetchHangs (recordTypeReply p) || plainFetchHangs (soslReply p).

(** What becomes of the promise of a search. *)
Inductive Outcome :=
| Settles (seen : Observation)
| Pending.

(** [searchCodeContent(instanceUrl, accessToken, searchTerm)] against the
    platform [p]. With arguments that fail the validation no request is
    made. *)
Definition searchCodeContentOn (localeCompare : string -> string -> Z)
    (p : Platform) (order : list Branch)
    (instanceUrl accessToken searchTerm : string) : Outcome :=
  let valid :=
    negb (negb (Js.truthy instanceUrl) || negb (Js.truthy accessToken)
          || negb (Js.truthy searchTerm) || (String.length searchTerm <? 2)%nat) in
  if valid && staysPending p then Pending
  else Settles (searchCodeContent localeCompare (inTime p) order instanceUrl accessToken
                  searchTerm).

(** A collation comparing code units, one consistent choice of
    [localeCompare]. *)
Fixpoint ordinalCompare (a b : string) : Z :=
  match a, b with
  | EmptyString, EmptyString => 0
  | EmptyString, String _ _ => (-1)
  | String _ _, EmptyString => 1
  | String x a', String y b' =>
      match Nat.compare (nat_of_ascii x) (nat_of_ascii y) with
      | Lt => (-1)
      | Gt => 1
      | Eq => ordinalCompare a' b'
      end
  end%Z.

(** * The other functions of the service

    [fetchFieldMetadata], [fetchSalesforceObjects] and [fetchObjectFields]
    keep their state in locals instead of the shared state of a search, and
    their [await]s follow one another. [Task.t S] is the same kind of
    computation as [Exec], over a state [S] of the function's own. *)

Module Task.

Definition t (S A : Type) : Type := S -> (Thrown + A) * S.

Definition ret {S A} (a : A) : t S A := fun st => (inr a, st).

Definition bind {S A B} (m : t S A) (k : A -> t S B) : t S B :=
  fun st =>
    match m st with
    | (inr a, st') => k a st'
    | (inl e, st') => (inl e, st')
    end.

Definition throw {S A} (e : Thrown) : t S A := fun st => (inl e, st).

Definition tryCatch {S A} (body : t S A) (handler : Thrown -> t S A) : t S A :=
  fun st =>
    match body st with
    | (inr a, st') => (inr a, st')
    | (inl e, st') => handler e st'
    end.

(** [for (const x of xs) body] *)
Fixpoint forEach {S A} (xs : list A) (body : A -> t S unit) : t S unit :=
  match xs with
  | [] => ret tt
  | x :: rest => bind (body x) (fun _ => forEach rest body)
  end.

(** How the promise of an [async] function settles, given the completion
    of its body. *)
Definition settled {A} (completion : Thrown + A) : Settled A :=
  match completion with
  | inr value => Fulfilled value
  | inl reason => Rejected reason
  end.

End Task.

Declare Scope task_scope.
Delimit Scope task_scope with task.
Notation "x <- c1 ;; c2" := (Task.bind c1 (fun x => c2))
  (at level 61, c1 at next level, right associativity) : task_scope.
Notation "c1 ;; c2" := (Task.bind c1 (fun _ => c2))
  (at level 61, right associativity) : task_scope.

(** ** [fetchFieldMetadata] *)

Module Metadata.

Local Open Scope task_scope.

(** One entry of [MetadataReference['references']]. *)
Record Reference := mkReference {
  line : nat;
  snippet : string;
  context : string
}.

(** [interface MetadataReference] *)
Record MetadataReference := mkMetadataReference {
  id : string;
  fileName : string;
  type : string;
  references : list Reference
}.

(** The locals of one invocation: the array [refs], and the requests that
    left so far. *)
Record Locals := mkLocals {
  refs : list MetadataReference;
  calls : list Request
}.

Definition Run (A : Type) : Type := Task.t Locals A.

(** [refs.push(r)] *)
Definition push (r : MetadataReference) : Run unit :=
  fun st => (inr tt, mkLocals (refs st ++ [r])%list (calls st)).

(** [await fetch(url, { headers })] *)
Definition fetch {A} (req : Request) (answer : Fetched A) : Run (Response A) :=
  fun st =>
    let st' := mkLocals (refs st) (calls st ++ [req])%list in
    match answer with
    | Ok payload => (inr (Good payload), st')
    | Failed status errorText => (inr (Bad status errorText), st')
    | Aborted => (inl AbortError, st')
    | NetworkFailure => (inl TypeError, st')
    end.

(** The horizontal ellipsis U+2026, in UTF-8. *)
Definition ellipsis : string :=
  String (ascii_of_nat 226) (String (ascii_of_nat 128) (String (ascii_of_nat 166) "")).

(** [fieldName.replace(/[%_]/g, (m) => `\\${m}`)] *)
Fixpoint escapeLike (s : string) : string :=
  match s with
  | EmptyString => EmptyString
  | String c r =>
      if Ascii.eqb c "%"%char || Ascii.eqb c "_"%char
      then String "\"%char (String c (escapeLike r))
      else String c (escapeLike r)
  end.

(** The indentation of the query texts written as multi-line template
    literals. *)
Definition indent : string := String Js.newline "        ".
Definition closing : string := String Js.newline "      ".

Section Invocation.

Variable env : Transport.
Variable cleanInstanceUrl : string.
Variable accessToken : string.
Variable objectName : string.
Variable fieldName : string.

Definition likeNeedle : string := "%" ++ escapeLike fieldName ++ "%".

(** The one entry every section gives a reference it pushes. *)
Definition mention (context : string) : list Reference :=
  [mkReference 1 (ellipsis ++ fieldName ++ ellipsis) context].

(** The local helper [toolingQuery(q)]: a response that is not [ok] is
    logged and answered with an empty record set; [handleApiError] is not
    called. [None] is a result without the property [records]. *)
Definition toolingQuery {A} (q : string) (answer : Fetched (QueryJson A))
    : Run (option (list A)) :=
  res <- fetch (jsonRequest accessToken (mkUrl cleanInstanceUrl (ToolingQuery q)) None)
           answer ;;
  match res with
  | Bad _ _ => Task.ret (Some [])
  | Good Unparsable => Task.throw (Error "SyntaxError")
  | Good Missing => Task.ret None
  | Good (Records records) => Task.ret (Some records)
  end.

(** [for (const r of records) body], where [records] may be undefined. *)
Definition forOf {A} (records : option (list A)) (body : A -> Run unit) : Run unit :=
  match records with
  | Some l => Task.forEach l body
  | None => Task.throw TypeError
  end.

(** The handler of every section: the error is logged. *)
Definition logged (e : Thrown) : Run unit := Task.ret tt.

(** 1) SOSL for ApexClass and ApexTrigger *)
Definition soslSection : Run unit :=
  Task.tryCatch
    (sRes <- fetch (jsonRequest accessToken
                      (buildSearchUrl cleanInstanceUrl fieldName
                         ["ApexClass"; "ApexTrigger"]) None)
               (soslAnswer env) ;;
     match sRes with
     | Good Unparsable => Task.throw (Error "SyntaxError")
     | Good Missing => Task.ret tt
     | Good (Records searchRecords) =>
         Task.forEach searchRecords (fun r =>
           if isType (sr_type r) "ApexClass" then
             push (mkMetadataReference ("apex-class-" ++ sr_Id r) (sr_Name r ++ ".cls")
                     "Apex Class" (mention "Found via SOSL"))
           else if isType (sr_type r) "ApexTrigger" then
             push (mkMetadataReference ("apex-trigger-" ++ sr_Id r)
                     (sr_Name r ++ ".trigger") "Apex Trigger" (mention "Found via SOSL"))
           else Task.ret tt)
     | Bad _ _ => Task.ret tt
     end)
    logged.

(** 2) ApexClass via Tooling *)
Definition apexClassSection : Run unit :=
  Task.tryCatch
    (let q := "SELECT Id, Name FROM ApexClass WHERE Name LIKE '" ++ likeNeedle
                ++ "' LIMIT 100" in
     records <- toolingQuery q (apexClassAnswer env) ;;
     forOf records (fun r =>
       push (mkMetadataReference ("apex-class-" ++ cls_Id r) (cls_Name r ++ ".cls")
               "Apex Class" (mention "Tooling: ApexClass.Name LIKE"))))
    logged.

(** 3) ApexTrigger via Tooling *)
Definition apexTriggerSection : Run unit :=
  Task.tryCatch
    (let q := "SELECT Id, Name FROM ApexTrigger WHERE Name LIKE '" ++ likeNeedle
                ++ "' LIMIT 100" in
     records <- toolingQuery q (apexTriggerAnswer env) ;;
     forOf records (fun r =>
       push (mkMetadataReference ("apex-trigger-" ++ trg_Id r) (trg_Name r ++ ".trigger")
               "Apex Trigger" (mention "Tooling: ApexTrigger.Name LIKE"))))
    logged.

(** [`${r.DeveloperName || fallback}`] *)
Definition orElse (value fallback : string) : string :=
  if Js.truthy value then value else fallback.

(** 4) Aura components *)
Definition auraSection : Run unit :=
  Task.tryCatch
    (let q := indent ++ "SELECT Id, DeveloperName"
                ++ indent ++ "FROM AuraDefinitionBundle"
                ++ indent ++ "WHERE DeveloperName LIKE '" ++ likeNeedle ++ "'"
                ++ indent ++ "LIMIT 100" ++ closing in
     records <- toolingQuery q (auraAnswer env) ;;
     forOf records (fun r =>
       push (mkMetadataReference ("aura-" ++ bnd_Id r)
               (orElse (bnd_DeveloperName r) "Aura" ++ ".cmp") "Aura Bundle"
               (mention "Tooling: AuraDefinitionBundle.DeveloperName LIKE"))))
    logged.

(** 5) Lightning web components *)
Definition lwcSection : Run unit :=
  Task.tryCatch
    (let q := indent ++ "SELECT Id, DeveloperName"
                ++ indent ++ "FROM LightningComponentBundle"
                ++ indent ++ "WHERE DeveloperName LIKE '" ++ likeNeedle ++ "'"
                ++ indent ++ "LIMIT 100" ++ closing in
     records <- toolingQuery q (lwcAnswer env) ;;
     forOf records (fun r =>
       push (mkMetadataReference ("lwc-" ++ bnd_Id r)
               (orElse (bnd_DeveloperName r) "lwc" ++ ".js") "LWC Bundle"
               (mention "Tooling: LightningComponentBundle.DeveloperName LIKE"))))
    logged.

(** [r.MasterLabel && r.MasterLabel.toLowerCase().includes(fieldName.toLowerCase())] *)
Definition labelHoldsTerm (r : Flow) : bool :=
  match flow_MasterLabel r with
  | Some masterLabel =>
      Js.truthy masterLabel
      && Js.includes (Js.toLowerCase masterLabel) (Js.toLowerCase fieldName)
  | None => false
  end.

(** 6) Flows: the query does not name the term; the records are filtered
    afterwards. Reading [records.length] of a missing array throws. *)
Definition flowSection : Run unit :=
  Task.tryCatch
    (let q := indent ++ "SELECT Id, MasterLabel, Status"
                ++ indent ++ "FROM Flow"
                ++ indent ++ "WHERE Status = 'Active'"
                ++ indent ++ "AND MasterLabel != null"
                ++ indent ++ "LIMIT 100" ++ closing in
     records <- toolingQuery q (flowAnswer env) ;;
     match records with
     | None => Task.throw TypeError
     | Some records =>
         let matchingFlows := filter labelHoldsTerm records in
         Task.forEach matchingFlows (fun r =>
           push (mkMetadataReference ("flow-" ++ flow_Id r)
                   (match flow_MasterLabel r with
                    | Some masterLabel => orElse masterLabel "Flow"
                    | None => "Flow"
                    end ++ ".flow") "Flow"
                   (mention "Flow: MasterLabel contains term")))
     end)
    logged.

(** 7) Validation rules *)
Definition validationRuleSection : Run unit :=
  Task.tryCatch
    (let q := indent ++ "SELECT Id, ValidationName"
                ++ indent ++ "FROM ValidationRule"
                ++ indent ++ "WHERE ValidationName LIKE '" ++ likeNeedle ++ "'"
                ++ indent ++ "LIMIT 100" ++ closing in
     records <- toolingQuery q (validationRuleAnswer env) ;;
     forOf records (fun r =>
       push (mkMetadataReference ("vr-" ++ vr_Id r)
               (objectName ++ "." ++ vr_ValidationName r ++ ".validationRule")
               "Validation Rule"
               (mention "Tooling: ValidationRule.ValidationName LIKE"))))
    logged.

(** 8) Record types, through the data endpoint *)
Definition recordTypeSection : Run unit :=
  Task.tryCatch
    (let q := "SELECT Id, Name, SobjectType FROM RecordType WHERE SobjectType = '"
                ++ objectName ++ "' AND Name LIKE '" ++ likeNeedle ++ "' LIMIT 100" in
     response <- fetch (jsonRequest accessToken (mkUrl cleanInstanceUrl (DataQuery q)) None)
                   (recordTypeAnswer env) ;;
     match response with
     | Good Unparsable => Task.throw (Error "SyntaxError")
     | Good Missing => Task.throw TypeError
     | Good (Records records) =>
         Task.forEach records (fun r =>
           push (mkMetadataReference ("recordtype-" ++ rt_Id r)
                   (Js.show (rt_SobjectType r) ++ "." ++ rt_Name r ++ ".recordType")
                   "Record Type" (mention "Standard API: RecordType.Name LIKE")))
     | Bad _ _ => Task.ret tt
     end)
    logged.

(** 9) Page layouts *)
Definition layoutSection : Run unit :=
  Task.tryCatch
    (let q := indent ++ "SELECT Id, Name, TableEnumOrId"
                ++ indent ++ "FROM Layout"
                ++ indent ++ "WHERE TableEnumOrId = '" ++ objectName ++ "'"
                ++ indent ++ "AND Name LIKE '" ++ likeNeedle ++ "'"
                ++ indent ++ "LIMIT 100" ++ closing in
     records <- toolingQuery q (layoutAnswer env) ;;
     forOf records (fun r =>
       push (mkMetadataReference ("layout-" ++ lay_Id r)
               (Js.show (lay_TableEnumOrId r) ++ "." ++ lay_Name r ++ ".layout")
               "Page Layout" (mention "Tooling: Layout.Name LIKE"))))
    logged.

(** The nine sections, one after the other. *)
Definition sections : Run unit :=
  soslSection ;;
  apexClassSection ;;
  apexTriggerSection ;;
  auraSection ;;
  lwcSection ;;
  flowSection ;;
  validationRuleSection ;;
  recordTypeSection ;;
  layoutSection.

End Invocation.

(** One step of the final [reduce]: an entry whose id is new is appended;
    otherwise its references are appended to the ones of the entry that has
    the id. *)
Definition mergeRef (acc : list MetadataReference) (current : MetadataReference)
    : list MetadataReference :=
  match findIndex (fun item => String.eqb (id item) (id current)) acc with
  | None => (acc ++ [current])%list
  | Some existingIndex =>
      match nth_error acc existingIndex with
      | Some existing =>
          setAt existingIndex
            (mkMetadataReference (id existing) (fileName existing) (type existing)
               (references existing ++ references current)%list)
            acc
      | None => acc
      end
  end.

(** [refs.reduce(..., [])] *)
Definition uniqueRefs (refs : list MetadataReference) : list MetadataReference :=
  fold_left mergeRef refs [].

(** What the caller of [fetchFieldMetadata] observes. *)
Record Observation := mkObservation {
  returned : Settled (list MetadataReference);
  issued : list Request
}.

(** [fetchFieldMetadata(instanceUrl, accessToken, objectName, fieldName)],
    run against the answers [env] of the platform. *)
Definition fetchFieldMetadata (env : Transport)
    (instanceUrl accessToken objectName fieldName : string) : Observation :=
  let cleanInstanceUrl := stripTrailingSlash instanceUrl in
  let body : Run (list MetadataReference) :=
    sections env cleanInstanceUrl accessToken objectName fieldName ;;
    (fun st => (inr (uniqueRefs (refs st)), st)) in
  match body (mkLocals [] []) with
  | (completion, st) => mkObservation (Task.settled completion) (calls st)
  end.

End Metadata.

(** ** [fetchSalesforceObjects] and [fetchObjectFields] *)

Module Describe.

Local Open Scope task_scope.

(** [interface SalesforceObject]; [recordCount] is always [undefined]. *)
Record SalesforceObject := mkSalesforceObject {
  name : string;
  label : string;
  custom : bool;
  queryable : bool;
  recordCount : option nat
}.

(** One element of [data.sobjects], restricted to the properties read. *)
Record SObject := mkSObject {
  so_name : string;
  so_label : option string;
  so_custom : bool;
  so_queryable : bool
}.

(** One element of [data.childRelationships]. *)
Record ChildRelationship := mkChildRelationship {
  childSObject : string;
  field : string;
  relationshipName : option string
}.

Record PicklistValue := mkPicklistValue {
  pv_value : string;
  pv_label : option string;
  pv_active : bool
}.

(** One element of [data.fields], restricted to the properties read. *)
Record FieldDescribe := mkFieldDescribe {
  fd_name : string;
  fd_label : option string;
  fd_type : string;
  fd_length : option nat;
  fd_custom : bool;
  fd_nillable : bool;
  fd_defaultedOnCreate : bool;
  fd_unique : bool;
  fd_referenceTo : option (list string);
  fd_relationshipName : option string;
  fd_restrictedPicklist : bool;
  fd_cascadeDelete : bool;
  fd_picklistValues : option (list PicklistValue)
}.

(** The describe result of one object: [data.fields] and
    [data.childRelationships]. *)
Record ObjectDescribe := mkObjectDescribe {
  fields : QueryJson FieldDescribe;
  childRelationships : option (list ChildRelationship)
}.

(** [interface SalesforceField] *)
Record SalesforceField := mkSalesforceField {
  f_name : string;
  f_label : string;
  f_type : string;
  f_length : nat;
  f_custom : bool;
  f_required : bool;
  f_unique : bool;
  f_nillable : bool;
  f_referenceTo : list string;
  f_relationshipName : option string;
  f_childRelationships : list ChildRelationship;
  f_restrictedPicklist : bool;
  f_cascadeDelete : bool;
  f_picklistValues : list PicklistValue
}.

(** The resources under [/services/data/v64.0/sobjects/]. *)
Inductive Endpoint :=
| AllObjects
| DescribeOf (objectName : string).

(** A call of [fetch] with the headers of the two functions. *)
Record Call := mkCall {
  base : string;
  endpoint : Endpoint;
  authorization : string
}.

Definition Run (A : Type) : Type := Task.t (list Call) A.

(** [await fetch(url, { method: 'GET', headers })] *)
Definition fetch {A} (call : Call) (answer : Fetched A) : Run (Response A) :=
  fun calls =>
    let calls' := (calls ++ [call])%list in
    match answer with
    | Ok payload => (inr (Good payload), calls')
    | Failed status errorText => (inr (Bad status errorText), calls')
    | Aborted => (inl AbortError, calls')
    | NetworkFailure => (inl TypeError, calls')
    end.

(** *** Labels *)

(** [s.replace(/<suffix>$/, '')] for a literal suffix. *)
Fixpoint dropSuffix (suffix s : string) : string :=
  if String.eqb s suffix then EmptyString
  else match s with
       | EmptyString => EmptyString
       | String c rest => String c (dropSuffix suffix rest)
       end.

(** [s.replace(/_/g, ' ')] *)
Fixpoint underscoresToSpaces (s : string) : string :=
  match s with
  | EmptyString => EmptyString
  | String c rest =>
      String (if Ascii.eqb c "_"%char then " "%char else c) (underscoresToSpaces rest)
  end.

(** [s.replace(/([a-z])([A-Z])/g, '$1 $2')] *)
Fixpoint spaceBeforeCapitals (s : string) : string :=
  match s with
  | EmptyString => EmptyString
  | String a rest =>
      match rest with
      | String b _ =>
          if Js.isLowerChar a && Js.isUpperChar b
          then String a (String " "%char (spaceBeforeCapitals rest))
          else String a (spaceBeforeCapitals rest)
      | EmptyString => String a EmptyString
      end
  end.

(** [s.split(' ')] *)
Fixpoint splitWords (s : string) : list string :=
  match s with
  | EmptyString => [EmptyString]
  | String c rest =>
      if Ascii.eqb c " "%char then EmptyString :: splitWords rest
      else match splitWords rest with
           | word :: others => String c word :: others
           | [] => [String c EmptyString]
           end
  end.

(** [s.toUpperCase()]. The words it is applied to are the pieces of an API
    name; on the code units 181, 223 and 255, which no API name holds, the
    result of the built-in cannot be written below 256 and the code unit
    is kept. *)
Fixpoint toUpperCase (s : string) : string :=
  match s with
  | EmptyString => EmptyString
  | String c rest => String (Js.toUpperChar c) (toUpperCase rest)
  end.

(** [word.charAt(0).toUpperCase() + word.slice(1).toLowerCase()] *)
Definition capitalize (word : string) : string :=
  match word with
  | EmptyString => EmptyString
  | String c rest => String (Js.toUpperChar c) (Js.toLowerCase rest)
  end.

(** [originalLabel && originalLabel.trim() && originalLabel !== name] *)
Definition usable (name : string) (originalLabel : option string) : bool :=
  match originalLabel with
  | Some l => Js.truthy l && Js.truthy (Js.trim l) && negb (String.eqb l name)
  | None => false
  end.

(** The label [generateLabel] makes of an API name. *)
Definition labelFromName (name : string) : string :=
  Js.join " "
    (map capitalize
       (splitWords
          (spaceBeforeCapitals (underscoresToSpaces (dropSuffix "__c" name))))).

(** The helper [generateLabel] of [fetchSalesforceObjects]. *)
Definition generateLabel (name : string) (originalLabel : option string) : string :=
  match originalLabel with
  | Some l => if usable name originalLabel then l else labelFromName name
  | None => labelFromName name
  end.

Definition abbreviations : list string := ["ID"; "URL"; "API"; "CRM"; "ERP"; "SLA"].

(** The word map of [generateFieldLabel]. *)
Definition fieldWord (word : string) : string :=
  let upperWord := toUpperCase word in
  if existsb (String.eqb upperWord) abbreviations then upperWord
  else capitalize word.

(** The label [generateFieldLabel] makes of a field name. *)
Definition labelFromFieldName (name : string) : string :=
  Js.join " "
    (map fieldWord
       (splitWords
          (spaceBeforeCapitals
             (underscoresToSpaces
                (dropSuffix "__r" (dropSuffix "__pc" (dropSuffix "__c" name))))))).

(** The helper [generateFieldLabel] of [fetchObjectFields]. *)
Definition generateFieldLabel (name : string) (originalLabel : option string) : string :=
  match originalLabel with
  | Some l => if usable name originalLabel then l else labelFromFieldName name
  | None => labelFromFieldName name
  end.

(** *** [fetchSalesforceObjects] *)

(** What the caller of one of the two functions observes. *)
Record Observation (A : Type) := mkObservation {
  returned : Settled A;
  issued : list Call
}.
Arguments mkObservation {A} returned issued.
Arguments returned {A} o.
Arguments issued {A} o.

Definition observe {A} (body : Run A) : Observation A :=
  match body [] with
  | (completion, calls) => mkObservation (Task.settled completion) calls
  end.

(** [!instanceUrl || !instanceUrl.startsWith('https://')] *)
Definition invalidInstanceUrl (instanceUrl : string) : bool :=
  negb (Js.truthy instanceUrl) || negb (String.prefix "https://" instanceUrl).

(** The element built for one queryable object. *)
Definition toObject (obj : SObject) : SalesforceObject :=
  mkSalesforceObject (so_name obj) (generateLabel (so_name obj) (so_label obj))
    (so_custom obj) (so_queryable obj) None.

(** [fetchSalesforceObjects(instanceUrl, accessToken)], run against the
    answer of the platform and the collation of the host. The [catch]
    clause logs the error and throws it again. *)
Definition fetchSalesforceObjects (localeCompare : string -> string -> Z)
    (answer : Fetched (QueryJson SObject)) (instanceUrl accessToken : string)
    : Observation (list SalesforceObject) :=
  observe
    (Task.tryCatch
       (if invalidInstanceUrl instanceUrl then
          Task.throw (Error ("Invalid instance URL: " ++ instanceUrl))
        else
          let cleanInstanceUrl := stripTrailingSlash instanceUrl in
          response <- fetch (mkCall cleanInstanceUrl AllObjects ("Bearer " ++ accessToken))
                        answer ;;
          data <- match response with
                  | Bad status errorText => Task.throw (handleApiError status errorText)
                  | Good Unparsable => Task.throw (Error "SyntaxError")
                  | Good data => Task.ret data
                  end ;;
          match data with
          | Records sobjects =>
              Task.ret
                (sort (fun a b => localeCompare (label a) (label b))
                   (map toObject (filter so_queryable sobjects)))
          | _ => Task.throw (Error "Invalid response structure from Salesforce API")
          end)
       (fun error => Task.throw error)).

(** *** [fetchObjectFields] *)

(** [value || fallback] for a property that may be absent. *)
Definition orDefault {A} (value : option A) (fallback : A) : A :=
  match value with Some v => v | None => fallback end.

(** The element built for one field. *)
Definition toField (relationships : option (list ChildRelationship)) (fd : FieldDescribe)
    : SalesforceField :=
  mkSalesforceField (fd_name fd) (generateFieldLabel (fd_name fd) (fd_label fd))
    (fd_type fd) (orDefault (fd_length fd) 0) (fd_custom fd)
    (negb (fd_nillable fd) && negb (fd_defaultedOnCreate fd))
    (fd_unique fd) (fd_nillable fd) (orDefault (fd_referenceTo fd) [])
    (fd_relationshipName fd)
    (match relationships with
     | Some rels =>
         map (fun rel => mkChildRelationship (childSObject rel) (field rel)
                           (relationshipName rel))
           (filter (fun rel => String.eqb (field rel) (fd_name fd)) rels)
     | None => []
     end)
    (fd_restrictedPicklist fd) (fd_cascadeDelete fd) (orDefault (fd_picklistValues fd) []).

(** [fetchObjectFields(instanceUrl, accessToken, objectName)]: the instance
    URL is not validated. The answer [None] is a body that is not JSON. *)
Definition fetchObjectFields (answer : Fetched (option ObjectDescribe))
    (instanceUrl accessToken objectName : string) : Observation (list SalesforceField) :=
  observe
    (Task.tryCatch
       (let cleanInstanceUrl := stripTrailingSlash instanceUrl in
        response <- fetch (mkCall cleanInstanceUrl (DescribeOf objectName)
                             ("Bearer " ++ accessToken)) answer ;;
        data <- match response with
                | Bad status errorText => Task.throw (handleApiError status errorText)
                | Good None => Task.throw (Error "SyntaxError")
                | Good (Some data) => Task.ret data
                end ;;
        match fields data with
        | Records fieldList => Task.ret (map (toField (childRelationships data)) fieldList)
        | _ => Task.throw (Error "Invalid response structure from Salesforce Fields API")
        end)
       (fun error => Task.throw error)).

End Describe.

(** ** Callers

    [withTokenHandling] of the authentication provider, and the search
    mutation of the assistant screen. *)

Module Auth.

Local Open Scope task_scope.

Section Provider.

(** The state of the application, and the collaborator
    [handleTokenExpiredError], which refreshes the token or asks the user to
    authorize again and answers whether it succeeded. *)
Variable State : Type.
Variable handleTokenExpiredError : Thrown -> Task.t State bool.

(** [withTokenHandling(apiCall)] *)
Definition withTokenHandling {A} (apiCall : Task.t State A) : Task.t State A :=
  Task.tryCatch apiCall
    (fun error =>
       if isTokenExpired error then
         success <- handleTokenExpiredError error ;;
         if success then apiCall else Task.throw error
       else Task.throw error).

End Provider.

End Auth.

Module FieldDetails.

(** The icon components of the field screen. *)
Inductive Icon := FileCode | Code | FileText.

(** [getFileIcon(type)], applied to the [type] of a metadata reference. *)
Definition getFileIcon (type : string) : Icon :=
  if Js.includes type "apex" || Js.includes type "class" then FileCode
  else if Js.includes type "trigger" || Js.includes type "flow" then Code
  else FileText.

End FieldDetails.

Module Assistant.

(** The icon components of the search screen. *)
Inductive Icon :=
| Database | Code | Settings | Zap | Shield | Component | Layers | Layout | Grid3X3.

Record MetadataType := mkMetadataType {
  key : string;
  label : string;
  icon : Icon
}.

Definition METADATA_TYPES : list MetadataType :=
  [ mkMetadataType "all" "All Types" Database;
    mkMetadataType "apex-class" "Apex Classes" Code;
    mkMetadataType "apex-trigger" "Apex Triggers" Settings;
    mkMetadataType "flow" "Flows" Zap;
    mkMetadataType "validation-rule" "Validation Rules" Shield;
    mkMetadataType "lwc-bundle" "Lightning Web Components" Component;
    mkMetadataType "aura-bundle" "Aura Components" Layers;
    mkMetadataType "page-layout" "Page Layouts" Layout;
    mkMetadataType "record-type" "Record Types" Grid3X3 ].

(** [getMetadataTypeLabel(type)] *)
Definition getMetadataTypeLabel (type : string) : string :=
  if String.eqb type "object" then "Object"
  else if String.eqb type "field" then "Field"
  else if String.eqb type "flow" then "Flow"
  else if String.eqb type "apex-class" then "Apex Class"
  else if String.eqb type "apex-trigger" then "Apex Trigger"
  else if String.eqb type "validation-rule" then "Validation Rule"
  else if String.eqb type "record-type" then "Record Type"
  else if String.eqb type "page-layout" then "Page Layout"
  else if String.eqb type "aura-bundle" then "Aura Component"
  else if String.eqb type "lwc-bundle" then "Lightning Web Component"
  else "Metadata".

(** [getMetadataTypeInfo(type)] *)
Definition getMetadataTypeInfo (type : string) : MetadataType :=
  match find (fun mt => String.eqb (key mt) type) METADATA_TYPES with
  | Some metadataType => metadataType
  | None => mkMetadataType type (getMetadataTypeLabel type) Database
  end.

(** The updater that [toggleFilter(filterKey)] hands to
    [setSelectedFilters]. *)
Definition toggleFilter (filterKey : string) (prev : list string) : list string :=
  if String.eqb filterKey "all" then ["all"]
  else
    let newFilters :=
      if existsb (String.eqb filterKey) prev
      then filter (fun f => negb (String.eqb f filterKey)) prev
      else (filter (fun f => negb (String.eqb f "all")) prev ++ [filterKey])%list in
    match newFilters with
    | [] => ["all"]
    | _ => newFilters
    end.

Section Screen.

Variable localeCompare : string -> string -> Z.
Variable env : Transport.
Variable order : list Branch.
Variables instanceUrl accessToken : string.

(** [searchMutation.mutationFn(query)] *)
Definition mutationFn (query : string) : Observation :=
  if negb (Js.truthy query) || (String.length query <? 2)%nat
  then mkObservation (Fulfilled []) []
  else searchSalesforce localeCompare env order instanceUrl accessToken query.

(** [handleSearch()], for the text [searchQuery] of the input: the mutation
    that is started, if any. *)
Definition handleSearch (searchQuery : string) : option Observation :=
  if (2 <=? String.length (Js.trim searchQuery))%nat
  then Some (mutationFn (Js.trim searchQuery))
  else None.

End Screen.

End Assistant.

(** * Specification-level notions *)

(** ** A small program logic for [Exec]

    [wellFormed] is what every branch guarantees of an entry it pushes;
    [Inv] lifts it to the shared [results] array. A [triple] states that a
    computation keeps [Inv], whatever way it completes, and that a normal
    completion satisfies a postcondition. *)

Definition knownTypes : list string :=
  ["apex-class"; "apex-trigger"; "flow"; "lwc-bundle"; "aura-bundle";
   "validation-rule"; "page-layout"; "record-type"].

Definition wellFormed (r : CodeSearchResult) : Prop :=
  totalMatches r = List.length (matches r) /\ In (type r) knownTypes.

Definition Inv (st : Shared) : Prop := Forall wellFormed (results st).

Definition triple {A} (m : Exec A) (Q : A -> Prop) : Prop :=
  forall st, Inv st ->
    Inv (snd (m st)) /\ forall a, fst (m st) = inr a -> Q a.

Definition preserves {A} (m : Exec A) : Prop := triple m (fun _ => True).

(** The counter [totalMatches] of a flow follows the length of
    [flowMatches]. *)
Definition countedLocals (locals : FlowLocals) : Prop :=
  flowTotal locals = List.length (flowMatches locals).

(** ** Views of one invocation *)

(** The input validation at the head of [searchCodeContent]. *)
Definition invalidParameters (instanceUrl accessToken searchTerm : string) : bool :=
  negb (Js.truthy instanceUrl) || negb (Js.truthy accessToken)
  || negb (Js.truthy searchTerm) || (String.length searchTerm <? 2)%nat.

(** The shared state once every branch has settled. *)
Definition settledState (env : Transport) (order : list Branch)
    (instanceUrl accessToken searchTerm : string) : Shared :=
  snd (allSettled (runBranch env (stripTrailingSlash instanceUrl) accessToken searchTerm)
         (settleOrder order) initialShared).

(** The [results] array once every branch has settled. *)
Definition collected (env : Transport) (order : list Branch)
    (instanceUrl accessToken searchTerm : string) : list CodeSearchResult :=
  results (settledState env order instanceUrl accessToken searchTerm).

(** How the branch [b] settles. It is read off a run from the initial
    state; [runBranch_completion] shows that the state does not matter. *)
Definition completion (env : Transport) (cleanInstanceUrl accessToken searchTerm : string)
    (b : Branch) : Settled unit :=
  match fst (runBranch env cleanInstanceUrl accessToken searchTerm b initialShared) with
  | inr v => Fulfilled v
  | inl e => Rejected e
  end.

(** Some branch is rejected with a [TokenExpiredError]. *)
Definition sessionExpired (env : Transport) (cleanInstanceUrl accessToken searchTerm : string)
    : bool :=
  existsb (fun b =>
             match completion env cleanInstanceUrl accessToken searchTerm b with
             | Rejected reason => isTokenExpired reason
             | Fulfilled _ => false
             end) searchPromises.

(** A computation that cannot throw. *)
Definition total {A} (m : Exec A) : Prop :=
  forall st, exists a, fst (m st) = inr a.

(** A computation whose completion does not depend on the shared state. *)
Definition steady {A} (m : Exec A) : Prop :=
  forall st st', fst (m st) = fst (m st').

(** The identity of an entry: its category and its logical name. *)
Definition identity (r : CodeSearchResult) : string * string := (type r, name r).

(** ** Deduplication and ranking, as the specification words them *)

(** Two match records denote the same hit when they agree on the line and
    on the snippet. *)
Definition sameLineSnippet (a b : Match) : bool :=
  Nat.eqb (line a) (line b) && String.eqb (snippet a) (snippet b).

(** The records of [l], in order, that agree with no record of [kept] and
    with no earlier record of [l]. *)
Fixpoint dedupeAfter (kept l : list Match) : list Match :=
  match l with
  | [] => []
  | m :: rest =>
      if existsb (sameLineSnippet m) kept then dedupeAfter kept rest
      else m :: dedupeAfter (m :: kept) rest
  end.

(** A match list deduplicated by (line, snippet): the first record of every
    (line, snippet) pair is kept. *)
Definition dedupeByLineSnippet (l : list Match) : list Match := dedupeAfter [] l.

(** The entries collected under the identity of [r], in collection order. *)
Definition sameIdentity (r e : CodeSearchResult) : bool :=
  String.eqb (type e) (type r) && String.eqb (name e) (name r).

(** [a] may stand before [b] in the ranking: more matches first, and for
    equal match counts the name that collates first. *)
Definition ranksBefore (localeCompare : string -> string -> Z)
    (a b : CodeSearchResult) : Prop :=
  totalMatches a > totalMatches b
  \/ (totalMatches a = totalMatches b /\ (localeCompare (name a) (name b) <= 0)%Z).

(** A consistent comparison function, as [Array.prototype.sort] requires
    of its comparator. *)
Record Consistent (cmp : string -> string -> Z) : Prop := mkConsistent {
  cmp_antisym : forall a b, Z.sgn (cmp b a) = (- Z.sgn (cmp a b))%Z;
  cmp_trans : forall a b c, (cmp a b <= 0)%Z -> (cmp b c <= 0)%Z -> (cmp a c <= 0)%Z
}.

(** No hyphen occurs in [s]. *)
Fixpoint noDash (s : string) : bool :=
  match s with
  | EmptyString => true
  | String c r => negb (Ascii.eqb c "-"%char) && noDash r
  end.

(** The entry [r] carries the key [k]. *)
Definition keyIs (k : string) (r : CodeSearchResult) : bool :=
  String.eqb (resultKey r) k.

(** The entries of a group folded into the first one, as the outer [reduce]
    does when it meets them one after the other. *)
Definition mergeAll (group : list CodeSearchResult) : option CodeSearchResult :=
  match group with
  | [] => None
  | e :: rest => Some (fold_left mergeEntry rest e)
  end.

(** ** SOSL escaping, as the specification words it *)

(** The characters reserved by SOSL: question mark, ampersand, bar, bang,
    braces, brackets, parentheses, caret, tilde, star, colon, backslash,
    double quote, single quote, plus and minus. *)
Definition soslReserved : list ascii :=
  [ "?"; "&"; "|"; "!"; "{"; "}"; "["; "]"; "("; ")"; "^"; "~"; "*"; ":";
    "\"; "034"; "'"; "+"; "-" ]%char.

(** Removing the backslash that stands before a character: the character
    after a backslash is kept as it is. *)
Fixpoint unescapeSOSL (s : string) : string :=
  match s with
  | EmptyString => EmptyString
  | String c r =>
      if Ascii.eqb c "\"%char then
        match r with
        | EmptyString => EmptyString
        | String d r' => String d (unescapeSOSL r')
        end
      else String c (unescapeSOSL r)
  end.

(** ** Failing remote calls *)

(** The remote calls of one invocation: the first call of each branch, and
    the document fetch of a flow. *)
Inductive RemoteCall :=
| BranchCall (b : Branch)
| FlowDocumentCall (flowId : string).

(** The awaited call was aborted, was rejected by the network, or was
    answered with a status that is neither a success nor 401. *)
Definition failsWithoutAuth {A} (answer : Fetched A) : Prop :=
  match answer with
  | Ok _ => False
  | Failed status _ => status <> 401
  | Aborted => True
  | NetworkFailure => True
  end.

Definition callFails (env : Transport) (c : RemoteCall) : Prop :=
  match c with
  | BranchCall ApexClasses => failsWithoutAuth (apexClassAnswer env)
  | BranchCall ApexTriggers => failsWithoutAuth (apexTriggerAnswer env)
  | BranchCall Flows => failsWithoutAuth (flowAnswer env)
  | BranchCall Lwc => failsWithoutAuth (lwcAnswer env)
  | BranchCall Aura => failsWithoutAuth (auraAnswer env)
  | BranchCall ValidationRules => failsWithoutAuth (validationRuleAnswer env)
  | BranchCall Layouts => failsWithoutAuth (layoutAnswer env)
  | BranchCall RecordTypes => failsWithoutAuth (recordTypeAnswer env)
  | BranchCall Sosl => failsWithoutAuth (soslAnswer env)
  | FlowDocumentCall flowId => failsWithoutAuth (flowDocument env flowId)
  end.

(** A tooling query fails: it gets no response before its timeout, it is
    rejected by the network, or it is answered with a status that is
    neither a success nor 401. *)
Definition toolingQueryFails {A} (r : Reply A) : Prop :=
  match r with
  | Silent | Unreachable => True
  | Refused status _ => status <> 401
  | Answered _ | Stalled _ => False
  end.

(** A request without a timeout fails: it is rejected by the network or
    answered with a status that is neither a success nor 401. *)
Definition plainFetchFails {A} (r : Reply A) : Prop :=
  match r with
  | Unreachable => True
  | Refused status _ => status <> 401
  | Answered _ | Silent | Stalled _ => False
  end.

(** The call [c] fails on the platform [p]. *)
Definition fails (p : Platform) (c : RemoteCall) : Prop :=
  match c with
  | BranchCall ApexClasses => toolingQueryFails (apexClassReply p)
  | BranchCall ApexTriggers => toolingQueryFails (apexTriggerReply p)
  | BranchCall Flows => toolingQueryFails (flowReply p)
  | BranchCall Lwc => toolingQueryFails (lwcReply p)
  | BranchCall Aura => toolingQueryFails (auraReply p)
  | BranchCall ValidationRules => toolingQueryFails (validationRuleReply p)
  | BranchCall Layouts => toolingQueryFails (layoutReply p)
  | BranchCall RecordTypes => plainFetchFails (recordTypeReply p)
  | BranchCall Sosl => plainFetchFails (soslReply p)
  | FlowDocumentCall flowId => plainFetchFails (flowDocumentReply p flowId)
  end.

(** The shared state when the branches [before] have settled. *)
Definition settledAfter (run : Branch -> Exec unit) (before : list Branch) : Shared :=
  snd (allSettled run before initialShared).

(** From [st] to [st'] the [results] array has only been pushed to. *)
Definition grows (st st' : Shared) : Prop :=
  exists pushed, results st' = (results st ++ pushed)%list.

(** A successful answer that carries nothing. *)
Definition noRecords {A} : Fetched (QueryJson A) := Ok (Records []).

(** The transport in which the call [c] succeeds with an empty answer, all
    other answers being those of [env]. *)
Definition withEmptyAnswer (c : RemoteCall) (env : Transport) : Transport :=
  match c with
  | BranchCall ApexClasses =>
      mkTransport noRecords (apexTriggerAnswer env) (flowAnswer env) (flowDocument env)
        (lwcAnswer env) (auraAnswer env) (validationRuleAnswer env) (layoutAnswer env)
        (recordTypeAnswer env) (soslAnswer env)
  | BranchCall ApexTriggers =>
      mkTransport (apexClassAnswer env) noRecords (flowAnswer env) (flowDocument env)
        (lwcAnswer env) (auraAnswer env) (validationRuleAnswer env) (layoutAnswer env)
        (recordTypeAnswer env) (soslAnswer env)
  | BranchCall Flows =>
      mkTransport (apexClassAnswer env) (apexTriggerAnswer env) noRecords (flowDocument env)
        (lwcAnswer env) (auraAnswer env) (validationRuleAnswer env) (layoutAnswer env)
        (recordTypeAnswer env) (soslAnswer env)
  | BranchCall Lwc =>
      mkTransport (apexClassAnswer env) (apexTriggerAnswer env) (flowAnswer env)
        (flowDocument env) noRecords (auraAnswer env) (validationRuleAnswer env)
        (layoutAnswer env) (recordTypeAnswer env) (soslAnswer env)
  | BranchCall Aura =>
      mkTransport (apexClassAnswer env) (apexTriggerAnswer env) (flowAnswer env)
        (flowDocument env) (lwcAnswer env) noRecords (validationRuleAnswer env)
        (layoutAnswer env) (recordTypeAnswer env) (soslAnswer env)
  | BranchCall ValidationRules =>
      mkTransport (apexClassAnswer env) (apexTriggerAnswer env) (flowAnswer env)
        (flowDocument env) (lwcAnswer env) (auraAnswer env) noRecords
        (layoutAnswer env) (recordTypeAnswer env) (soslAnswer env)
  | BranchCall Layouts =>
      mkTransport (apexClassAnswer env) (apexTriggerAnswer env) (flowAnswer env)
        (flowDocument env) (lwcAnswer env) (auraAnswer env) (validationRuleAnswer env)
        noRecords (recordTypeAnswer env) (soslAnswer env)
  | BranchCall RecordTypes =>
      mkTransport (apexClassAnswer env) (apexTriggerAnswer env) (flowAnswer env)
        (flowDocument env) (lwcAnswer env) (auraAnswer env) (validationRuleAnswer env)
        (layoutAnswer env) noRecords (soslAnswer env)
  | BranchCall Sosl =>
      mkTransport (apexClassAnswer env) (apexTriggerAnswer env) (flowAnswer env)
        (flowDocument env) (lwcAnswer env) (auraAnswer env) (validationRuleAnswer env)
        (layoutAnswer env) (recordTypeAnswer env) noRecords
  | FlowDocumentCall flowId =>
      mkTransport (apexClassAnswer env) (apexTriggerAnswer env) (flowAnswer env)
        (fun i => if String.eqb i flowId then Ok EmptyString else flowDocument env i)
        (lwcAnswer env) (auraAnswer env) (validationRuleAnswer env) (layoutAnswer env)
        (recordTypeAnswer env) (soslAnswer env)
  end.

(** ** Sample invocations *)

Definition sampleUrl : string := "https://example.my.salesforce.com/".
Definition sampleToken : string := "00D000000000001".
Definition lineBreak : string := String Js.newline "".

(** An organisation in which every query succeeds and finds nothing. *)
Definition quietOrg : Transport :=
  mkTransport noRecords noRecords noRecords (fun _ => Ok EmptyString)
    noRecords noRecords noRecords noRecords noRecords noRecords.

(** An organisation with one class, also surfaced by the SOSL fallback, one
    web component and one page layout. *)
Definition sampleOrg : Transport :=
  mkTransport
    (Ok (Records
       [mkApexClass "01p1" "AccountService"
          (Some ("public class AccountService {" ++ lineBreak
                 ++ "  private Account record;" ++ lineBreak
                 ++ "  // loads the ACCOUNT" ++ lineBreak ++ "}"))]))
    noRecords noRecords (fun _ => Ok EmptyString)
    (Ok (Records [mkBundle "0Rb1" "accountTile" (Some "Account Tile") None]))
    noRecords noRecords
    (Ok (Records [mkLayout "00h1" "Account Layout" (Some "Account")]))
    noRecords
    (Ok (Records [mkSearchRecord (Some "ApexClass") "01p1" "AccountService"])).

(** The organisation of [sampleOrg], with the trigger query left without a
    response. *)
Definition slowTriggerOrg : Platform :=
  mkPlatform
    (Answered (Records
       [mkApexClass "01p1" "AccountService"
          (Some ("public class AccountService {" ++ lineBreak
                 ++ "  private Account record;" ++ lineBreak
                 ++ "  // loads the ACCOUNT" ++ lineBreak ++ "}"))]))
    Silent
    (Answered (Records [])) (fun _ => Answered EmptyString)
    (Answered (Records [mkBundle "0Rb1" "accountTile" (Some "Account Tile") None]))
    (Answered (Records [])) (Answered (Records []))
    (Answered (Records [mkLayout "00h1" "Account Layout" (Some "Account")]))
    (Answered (Records []))
    (Answered (Records [mkSearchRecord (Some "ApexClass") "01p1" "AccountService"])).

(** The same organisation, with the record-type query left without a
    response as well. *)
Definition slowAndMuteOrg : Platform :=
  mkPlatform (apexClassReply slowTriggerOrg) Silent
    (flowReply slowTriggerOrg) (flowDocumentReply slowTriggerOrg)
    (lwcReply slowTriggerOrg) (auraReply slowTriggerOrg)
    (validationRuleReply slowTriggerOrg) (layoutReply slowTriggerOrg)
    Silent (soslReply slowTriggerOrg).

(** The same organisation, answering the trigger query with no record and
    leaving only the record-type query without a response. *)
Definition muteRecordTypeOrg : Platform :=
  mkPlatform (apexClassReply slowTriggerOrg) (Answered (Records []))
    (flowReply slowTriggerOrg) (flowDocumentReply slowTriggerOrg)
    (lwcReply slowTriggerOrg) (auraReply slowTriggerOrg)
    (validationRuleReply slowTriggerOrg) (layoutReply slowTriggerOrg)
    Silent (soslReply slowTriggerOrg).

(** The body with which the platform answers an expired session. *)
Definition invalidSession : ErrorBody :=
  let q := Js.dquote in
  mkErrorBody
    ("[{" ++ q ++ "message" ++ q ++ ":" ++ q ++ "Session expired or invalid" ++ q ++ ","
       ++ q ++ "errorCode" ++ q ++ ":" ++ q ++ "INVALID_SESSION_ID" ++ q ++ "}]")
    (Json [mkApiError (Some "INVALID_SESSION_ID") (Text "Session expired or invalid")]).

(** [sampleOrg] with the class query answered by 401 and an expired
    session. *)
Definition expiredOrg : Transport :=
  mkTransport (Failed 401 invalidSession) (apexTriggerAnswer sampleOrg)
    (flowAnswer sampleOrg) (flowDocument sampleOrg) (lwcAnswer sampleOrg)
    (auraAnswer sampleOrg) (validationRuleAnswer sampleOrg) (layoutAnswer sampleOrg)
    (recordTypeAnswer sampleOrg) (soslAnswer sampleOrg).

(** One class whose body holds the term on two consecutive lines. *)
Definition ledgerBody : string :=
  "public class Ledger {" ++ lineBreak
    ++ "  Account debtor;" ++ lineBreak
    ++ "  Account creditor;" ++ lineBreak
    ++ "}".

Definition ledgerClass : ApexClass := mkApexClass "01p2" "Ledger" (Some ledgerBody).

Definition ledgerOrg : Transport :=
  mkTransport (Ok (Records [ledgerClass]))
    noRecords noRecords (fun _ => Ok EmptyString)
    noRecords noRecords noRecords noRecords noRecords noRecords.

(** One web component that holds the term in its developer name only. *)
Definition tileOrg : Transport :=
  mkTransport noRecords noRecords noRecords (fun _ => Ok EmptyString)
    (Ok (Records [mkBundle "0Rb2" "accountTile" (Some "Customer Tile") None]))
    noRecords noRecords noRecords noRecords noRecords.

(** A class and a trigger of the same name, each with one match. *)
Definition billingBody : string :=
  "// billing" ++ lineBreak ++ "Invoice inv;" ++ lineBreak.

Definition tieOrg : Transport :=
  mkTransport
    (Ok (Records [mkApexClass "01p3" "Billing" (Some billingBody)]))
    (Ok (Records [mkApexTrigger "01q3" "Billing" (Some billingBody) (Some "Invoice__c")]))
    noRecords (fun _ => Ok EmptyString)
    noRecords noRecords noRecords noRecords noRecords noRecords.

(** A class and a trigger of different names. *)
Definition distinctOrg : Transport :=
  mkTransport
    (Ok (Records [mkApexClass "01p3" "Billing" (Some billingBody)]))
    (Ok (Records [mkApexTrigger "01q3" "BillingTrigger" (Some billingBody)
                    (Some "Invoice__c")]))
    noRecords (fun _ => Ok EmptyString)
    noRecords noRecords noRecords noRecords noRecords noRecords.

(** The lines of a body that hold the term, compared ignoring case, by
    their 1-based numbers. *)
Definition holdsTerm (searchTerm ln : string) : bool :=
  match Js.findBy Js.eqIgnoreCase searchTerm ln with
  | Some _ => true
  | None => false
  end.

Fixpoint numberedFrom (i : nat) (lines : list string) : list (nat * string) :=
  match lines with
  | [] => []
  | ln :: rest => (i, ln) :: numberedFrom (S i) rest
  end.

Definition matchingLines (searchTerm body : string) : list nat :=
  map fst (filter (fun nl => holdsTerm searchTerm (snd nl))
             (numberedFrom 1 (Js.splitLines body))).

(** What the loop of [searchInContent] guarantees of the records found up
    to line [i]: at most [maxMatches] of them, with strictly ascending line
    numbers. *)
Definition scanned (i : nat) (found : list Match) : Prop :=
  List.length found <= maxMatches
  /\ StronglySorted lt (map line found)
  /\ Forall (fun m => line m <= i) found.



(** * Further notions *)

(** ** Error bodies *)

(** The first element of the parsed error array names an expired session:
    its code is INVALID_SESSION_ID, or its message is a text that holds
    the words Session expired or an array that has them as an element. *)
Definition sessionMarked (errorText : ErrorBody) : bool :=
  match parsed errorText with
  | Json (first :: _) =>
      match errorCode first with
      | Some c => String.eqb c "INVALID_SESSION_ID"
      | None => false
      end
      || match message first with
         | Text text => Js.includes text "Session expired"
         | Items holdsWords _ => holdsWords
         | _ => false
         end
  | _ => false
  end.

(** The body is not JSON or is the JSON value null, or the message of its
    first element is truthy or is a value that is neither null, a text
    nor an array. *)
Definition unreadableOrWorded (errorText : ErrorBody) : bool :=
  match parsed errorText with
  | NotJson | JsonNull => true
  | Json (first :: _) =>
      match message first with
      | NotText _ _ => true
      | m => truthyMessage m
      end
  | Json [] => false
  end.

(** ** Escaped SOSL text *)

(** Read from the left, every backslash of [s] is followed by a character,
    which it escapes, and no character of the class stands outside such a
    pair. *)
Fixpoint wellEscaped (s : string) : bool :=
  match s with
  | EmptyString => true
  | String c r =>
      if Ascii.eqb c "\"%char then
        match r with
        | EmptyString => false
        | String _ r' => wellEscaped r'
        end
      else negb (inSoslClass c) && wellEscaped r
  end.

(** Some character of [s] is in the class. *)
Fixpoint hasReserved (s : string) : bool :=
  match s with
  | EmptyString => false
  | String c r => inSoslClass c || hasReserved r
  end.

(** ** A relational reading of [Exec] *)

(** [moves R m Q]: the computation [m] takes any shared state to one that is
    [R]-related to it, however it completes, and its result, when it
    returns one, satisfies [Q]. *)
Definition moves (R : Shared -> Shared -> Prop) {A} (m : Exec A) (Q : A -> Prop) : Prop :=
  forall st, R st (snd (m st)) /\ forall a, fst (m st) = inr a -> Q a.

(** ** Bounds on collected entries *)

(** The categories whose entries are pushed behind a test of their match
    list, or with a match list of one record. *)
Definition guardedTypes : list string :=
  ["apex-class"; "apex-trigger"; "flow"; "page-layout"].

Definition maxFlowMatches : nat := 1 + maxXmlMatches.

(** At most [maxMatches] matches, at most [maxFlowMatches] for a flow, and
    at least one for the guarded categories. *)
Definition capped (r : CodeSearchResult) : Prop :=
  List.length (matches r) <= maxMatches
  /\ (type r = "flow" -> List.length (matches r) <= maxFlowMatches)
  /\ (In (type r) guardedTypes -> 1 <= List.length (matches r)).

(** The results array only holds capped entries, if it did before. *)
Definition keepsCapped (st st' : Shared) : Prop :=
  Forall capped (results st) -> Forall capped (results st').

(** The locals of a flow hold at most one record before the document is
    scanned, and at most [maxFlowMatches] after. *)
Definition flowRoom (used : nat) (locals : FlowLocals) : Prop :=
  List.length (flowMatches locals) + (maxXmlMatches - used) <= maxFlowMatches.

(** An entry of a guarded category has at least one match. *)
Definition matchedIfGuarded (r : CodeSearchResult) : Prop :=
  In (type r) guardedTypes -> 1 <= List.length (matches r).

(** ** Appending without duplicating *)

(** The results array has grown by entries whose ids were not in it and
    are pairwise distinct. *)
Definition appendsFreshIds (st st' : Shared) : Prop :=
  exists added,
    results st' = (results st ++ added)%list
    /\ NoDup (map id added)
    /\ Forall (fun r => ~ In (id r) (map id (results st))) added.

(** ** Match records of the content scanner *)

(** The record names a line of [lines] that holds the term, compared
    ignoring case; its context names that line and the type; and its snippet
    is at most 106 characters longer than the term (fifty on each side and
    two ellipses). *)
Definition soundMatch (searchTerm type : string) (lines : list string) (m : Match) : Prop :=
  (exists ln, nth_error lines (line m - 1) = Some ln /\ holdsTerm searchTerm ln = true)
  /\ 1 <= line m
  /\ context m = "Line " ++ Js.ofNat (line m) ++ " (" ++ type ++ ")"
  /\ String.length (snippet m) <= String.length searchTerm + 106.

(** ** Requests *)

(** No request left. *)
Definition sameRequests (st st' : Shared) : Prop := requests st' = requests st.

(** The computation sends the requests [sent], in this order, however it
    completes. *)
Definition emits {A} (m : Exec A) (sent : list Request) : Prop :=
  forall st, requests (snd (m st)) = (requests st ++ sent)%list.

(** The flow records the flow query answered with. *)
Definition flowsReturned (env : Transport) : list Flow :=
  match flowAnswer env with
  | Ok (Records flows) => flows
  | _ => []
  end.

(** The requests of one branch. *)
Definition branchRequests (env : Transport) (cleanInstanceUrl accessToken searchTerm : string)
    (b : Branch) : list Request :=
  let tooling soql timeout :=
    jsonRequest accessToken (mkUrl cleanInstanceUrl (ToolingQuery soql)) (Some timeout) in
  match b with
  | ApexClasses => [tooling apexClassQuery 8000%Z]
  | ApexTriggers => [tooling triggerQuery 6000%Z]
  | Flows =>
      tooling flowQuery 15000%Z
        :: map (flowDocumentRequest cleanInstanceUrl accessToken) (flowsReturned env)
  | Lwc => [tooling (bundleQuery lwcKind) 8000%Z]
  | Aura => [tooling (bundleQuery auraKind) 8000%Z]
  | ValidationRules => [tooling validationQuery 6000%Z]
  | Layouts => [tooling layoutQuery 6000%Z]
  | RecordTypes =>
      [jsonRequest accessToken (mkUrl cleanInstanceUrl (DataQuery recordTypeQuery)) None]
  | Sosl =>
      [jsonRequest accessToken
         (buildSearchUrl cleanInstanceUrl searchTerm ["ApexClass"; "ApexTrigger"]) None]
  end.

(** What every request of a search carries: the bearer token, the
    instance URL without its trailing slash, and a timeout exactly when it
    is a tooling query. *)
Definition addressed (cleanInstanceUrl accessToken : string) (r : Request) : Prop :=
  authorization r = "Bearer " ++ accessToken
  /\ base (url r) = cleanInstanceUrl
  /\ (timeout r = None <-> forall soql, resource (url r) <> ToolingQuery soql).

(** ** Views of [fetchFieldMetadata] *)

(** The entries in [refs] when the last section is over. *)
Definition metadataCollected (env : Transport)
    (instanceUrl accessToken objectName fieldName : string)
    : list Metadata.MetadataReference :=
  Metadata.refs
    (snd (Metadata.sections env (stripTrailingSlash instanceUrl) accessToken objectName
            fieldName (Metadata.mkLocals [] []))).

(** The kinds of endpoint. *)
Inductive Kind := SearchCall | ToolingCall | DataCall | DocumentCall.

Definition kindOf (r : Resource) : Kind :=
  match r with
  | SoslSearch _ => SearchCall
  | ToolingQuery _ => ToolingCall
  | DataQuery _ => DataCall
  | ToolingSObject _ _ => DocumentCall
  end.

(** The calls of [fetchFieldMetadata], in the order of its sections. *)
Definition metadataCalls : list Kind :=
  [SearchCall; ToolingCall; ToolingCall; ToolingCall; ToolingCall; ToolingCall;
   ToolingCall; DataCall; ToolingCall].

(** A request with the headers of [fetchFieldMetadata] and no timeout. *)
Definition plainRequest (cleanInstanceUrl accessToken : string) (r : Request) : Prop :=
  authorization r = "Bearer " ++ accessToken
  /\ base (url r) = cleanInstanceUrl
  /\ timeout r = None.

(** The rows of an answer that is [ok] and holds a record array. *)
Definition rowsOf {A} (answer : Fetched (QueryJson A)) : list A :=
  match answer with
  | Ok (Records rows) => rows
  | _ => []
  end.

(** The answer that holds the rows of [answer] and is [ok]. *)
Definition orNoRows {A} (answer : Fetched (QueryJson A)) : Fetched (QueryJson A) :=
  Ok (Records (rowsOf answer)).

(** The transport in which every call that did not answer with a record
    array answers with an empty one. *)
Definition withoutFailures (env : Transport) : Transport :=
  mkTransport (orNoRows (apexClassAnswer env)) (orNoRows (apexTriggerAnswer env))
    (orNoRows (flowAnswer env)) (flowDocument env) (orNoRows (lwcAnswer env))
    (orNoRows (auraAnswer env)) (orNoRows (validationRuleAnswer env))
    (orNoRows (layoutAnswer env)) (orNoRows (recordTypeAnswer env)) (orNoRows (soslAnswer env)).

(** The section sends the requests [sent] and pushes the entries [pushed],
    and completes normally. *)
Definition appends (m : Metadata.Run unit) (sent : list Request)
    (pushed : list Metadata.MetadataReference) : Prop :=
  forall st,
    m st = (inr tt, Metadata.mkLocals (Metadata.refs st ++ pushed)%list
                      (Metadata.calls st ++ sent)%list).

(** The values of [type] that the sections write. *)
Definition metadataTypes : list string :=
  ["Apex Class"; "Apex Trigger"; "Aura Bundle"; "LWC Bundle"; "Flow";
   "Validation Rule"; "Record Type"; "Page Layout"].

(** The entry mentions the field once: one reference, at line 1, whose
    snippet is the field name between two ellipses; and its type is one of
    [metadataTypes]. *)
Definition oneMention (fieldName : string) (r : Metadata.MetadataReference) : Prop :=
  (exists context, Metadata.references r = Metadata.mention fieldName context)
  /\ In (Metadata.type r) metadataTypes.

(** The references are mentions of the field, and there is at least one. *)
Definition mentionsOnly (fieldName : string) (r : Metadata.MetadataReference) : Prop :=
  Metadata.references r <> []
  /\ Forall (fun ref => Metadata.line ref = 1
                        /\ Metadata.snippet ref
                           = Metadata.ellipsis ++ fieldName ++ Metadata.ellipsis)
       (Metadata.references r).

(** What holds of one section: it sends one request of the kind [kind] with
    the headers of the function, pushes entries that mention the field, and
    completes normally; and [m'], the section run against the transport
    without failures, does the same. *)
Definition sectionFacts (m m' : Metadata.Run unit)
    (cleanInstanceUrl accessToken fieldName : string) (kind : Kind) : Prop :=
  exists req pushed,
    appends m [req] pushed /\ appends m' [req] pushed
    /\ plainRequest cleanInstanceUrl accessToken req
    /\ kindOf (resource (url req)) = kind
    /\ Forall (oneMention fieldName) pushed.

(** The entries of [l] that have the id of [r]. *)
Definition sameId (r : Metadata.MetadataReference) (l : list Metadata.MetadataReference)
    : list Metadata.MetadataReference :=
  filter (fun x => String.eqb (Metadata.id x) (Metadata.id r)) l.

Definition idIs (k : string) (r : Metadata.MetadataReference) : bool :=
  String.eqb (Metadata.id r) k.

(** The entry [existing] once the references of [current] are appended to
    its own. *)
Definition absorb (existing current : Metadata.MetadataReference)
    : Metadata.MetadataReference :=
  Metadata.mkMetadataReference (Metadata.id existing) (Metadata.fileName existing)
    (Metadata.type existing)
    (Metadata.references existing ++ Metadata.references current)%list.

(** The entries of a group joined into the first one. *)
Definition joined (group : list Metadata.MetadataReference)
    : option Metadata.MetadataReference :=
  match group with
  | [] => None
  | first :: rest => Some (fold_left absorb rest first)
  end.

(** Reading a LIKE pattern: a backslash escapes the character after it; a
    percent sign or an underscore that is not escaped is a wildcard. *)
Fixpoint wildcards (pattern : string) : nat :=
  match pattern with
  | EmptyString => 0
  | String c rest =>
      if Ascii.eqb c "\"%char then
        match rest with
        | String _ rest' => wildcards rest'
        | EmptyString => 0
        end
      else if Ascii.eqb c "%"%char || Ascii.eqb c "_"%char then S (wildcards rest)
      else wildcards rest
  end.

(** The text a LIKE pattern without wildcards stands for. *)
Fixpoint unescapeLike (pattern : string) : string :=
  match pattern with
  | EmptyString => EmptyString
  | String c rest =>
      if Ascii.eqb c "\"%char then
        match rest with
        | String d rest' => String d (unescapeLike rest')
        | EmptyString => EmptyString
        end
      else String c (unescapeLike rest)
  end.

(** No backslash in the text. *)
Fixpoint noBackslash (s : string) : bool :=
  match s with
  | EmptyString => true
  | String c rest => negb (Ascii.eqb c "\"%char) && noBackslash rest
  end.

(** ** Views of the describe functions *)

(** The one request of [fetchSalesforceObjects] and of [fetchObjectFields]. *)
Definition describeCall (instanceUrl accessToken : string) (endpoint : Describe.Endpoint)
    : Describe.Call :=
  Describe.mkCall (stripTrailingSlash instanceUrl) endpoint ("Bearer " ++ accessToken).

(** The order of the returned objects: by label, in the collation of the
    host. *)
Definition labelledBefore (localeCompare : string -> string -> Z)
    (a b : Describe.SalesforceObject) : Prop :=
  (localeCompare (Describe.label a) (Describe.label b) <= 0)%Z.

(** What [fetchObjectFields] guarantees of a field it returns: it is
    required only when it is not nillable, and its child relationships are
    the ones that name it. *)
Definition coherentField (f : Describe.SalesforceField) : Prop :=
  (Describe.f_required f = true -> Describe.f_nillable f = false)
  /\ Forall (fun rel => Describe.field rel = Describe.f_name f)
       (Describe.f_childRelationships f).

(** No underscore in the text. *)
Fixpoint noUnderscore (s : string) : bool :=
  match s with
  | EmptyString => true
  | String c rest => negb (Ascii.eqb c "_"%char) && noUnderscore rest
  end.

(** A sample answer of the global describe: two queryable objects, one of
    them custom and without a label of its own, and one that is not
    queryable. *)
Definition sampleObjects : list Describe.SObject :=
  [ Describe.mkSObject "Invoice_Line__c" None true true;
    Describe.mkSObject "AccountFeed" (Some "Account Feed") false false;
    Describe.mkSObject "Account" (Some "Account") false true ].

(** A sample describe result: a required text field, a nillable lookup, and
    two child relationships of which one names the first field. *)
Definition sampleDescribe : Describe.ObjectDescribe :=
  Describe.mkObjectDescribe
    (Records
       [ Describe.mkFieldDescribe "Name" (Some "Account Name") "string" (Some 255) false
           false false false None None false false None;
         Describe.mkFieldDescribe "ParentId" (Some "ParentId") "reference" (Some 18) false
           true false false (Some ["Account"]) (Some "Parent") false false None ])
    (Some [ Describe.mkChildRelationship "Contact" "AccountId" (Some "Contacts");
            Describe.mkChildRelationship "Account" "ParentId" (Some "ChildAccounts") ]).

(** No space in the text. *)
Fixpoint noSpace (s : string) : bool :=
  match s with
  | EmptyString => true
  | String c rest => negb (Ascii.eqb c " "%char) && noSpace rest
  end.

(** No lower-case letter of the text is followed by an upper-case one. *)
Fixpoint noCamelHump (s : string) : bool :=
  match s with
  | EmptyString => true
  | String a rest =>
      match rest with
      | String b _ => negb (Js.isLowerChar a && Js.isUpperChar b) && noCamelHump rest
      | EmptyString => true
      end
  end.

(** A word as [split(' ')] yields it from a text without underscores. *)
Definition plainWord (w : string) : bool := noSpace w && noUnderscore w.

(** The suffix starts with an underscore, as the three suffixes that the
    label functions remove do. *)
Definition startsWithUnderscore (suffix : string) : bool :=
  match suffix with
  | String c _ => Ascii.eqb c "_"%char
  | EmptyString => false
  end.

(** ** Views of the callers *)

(** A state with a tally: how often the API call was attempted, and how
    often the recovery ran. *)
Record Tally (St : Type) := mkTally {
  inner : St;
  attempts : nat;
  recoveries : nat
}.
Arguments mkTally {St} inner attempts recoveries.
Arguments inner {St} t.
Arguments attempts {St} t.
Arguments recoveries {St} t.

(** The API call, counted. *)
Definition attempted {St A} (apiCall : Task.t St A) : Task.t (Tally St) A :=
  fun st =>
    match apiCall (inner st) with
    | (completion, s) => (completion, mkTally s (S (attempts st)) (recoveries st))
    end.

(** The recovery, counted. *)
Definition recovered {St} (handler : Thrown -> Task.t St bool)
    : Thrown -> Task.t (Tally St) bool :=
  fun error st =>
    match handler error (inner st) with
    | (completion, s) => (completion, mkTally s (attempts st) (S (recoveries st)))
    end.

(** The first attempt of the call rejects with an expired token and the
    recovery that follows answers that it succeeded. *)
Definition recoverable {St A} (handler : Thrown -> Task.t St bool) (apiCall : Task.t St A)
    (s : St) : Prop :=
  exists error s1 s2,
    apiCall s = (inl error, s1) /\ isTokenExpired error = true
    /\ handler error s1 = (inr true, s2).

(** A search as an API call: its requests join the log of the
    application. *)
Definition searchCall (localeCompare : string -> string -> Z) (env : Transport)
    (order : list Branch) (instanceUrl accessToken searchTerm : string)
    : Task.t (list Request) (list CodeSearchResult) :=
  fun log =>
    let seen := searchCodeContent localeCompare env order instanceUrl accessToken
                  searchTerm in
    (match returned seen with
     | Fulfilled value => inr value
     | Rejected reason => inl reason
     end, (log ++ issued seen)%list).

(** The filters that the search screen can hold: at least one, and the
    filter for all types only alone. *)
Definition settledFilters (selected : list string) : Prop :=
  selected <> [] /\ (In "all" selected -> selected = ["all"]).

(** The selected filters after the keys [pressed] were toggled one after
    the other, starting from the initial selection. *)
Definition filtersAfter (pressed : list string) : list string :=
  fold_left (fun selected filterKey => Assistant.toggleFilter filterKey selected)
    pressed ["all"].


(** * Properties *)

(** ** Rules of the program logic *)

Lemma triple_weaken {A} (m : Exec A) (Q R : A -> Prop) :
  triple m Q -> (forall a, Q a -> R a) -> triple m R.
Proof.
  intros Hm HQR st Hst. destruct (Hm st Hst) as [Hinv Hq].
  split; [assumption | intros a Ha; apply HQR, Hq, Ha].
Qed.

Lemma triple_ret {A} (a : A) (Q : A -> Prop) : Q a -> triple (ret a) Q.
Proof.
  intros Hq st Hst. split; [exact Hst | ].
  intros a' Ha. cbn in Ha. injection Ha as <-. exact Hq.
Qed.

Lemma triple_throw {A} (e : Thrown) (Q : A -> Prop) : triple (throw e) Q.
Proof.
  intros st Hst. split; [exact Hst | ].
  intros a Ha. cbn in Ha. discriminate Ha.
Qed.

Lemma triple_bind {A B} (m : Exec A) (k : A -> Exec B) (Q : A -> Prop) (R : B -> Prop) :
  triple m Q -> (forall a, Q a -> triple (k a) R) -> triple (bind m k) R.
Proof.
  intros Hm Hk st Hst. unfold bind.
  destruct (Hm st Hst) as [Hinv Hq].
  destruct (m st) as [[e | a] st'] eqn:E; cbn in *.
  - split; [exact Hinv | intros b Hb; discriminate Hb].
  - apply (Hk a (Hq a eq_refl) st' Hinv).
Qed.

Lemma triple_tryCatch {A} (body : Exec A) (handler : Thrown -> Exec A) (Q : A -> Prop) :
  triple body Q -> (forall e, triple (handler e) Q) -> triple (tryCatch body handler) Q.
Proof.
  intros Hb Hh st Hst. unfold tryCatch.
  destruct (Hb st Hst) as [Hinv Hq].
  destruct (body st) as [[e | a] st'] eqn:E; cbn in *.
  - apply (Hh e st' Hinv).
  - split; [exact Hinv | ]. intros a' Ha. injection Ha as <-. apply Hq. reflexivity.
Qed.

Lemma triple_test (searchTerm s : string) : triple (test searchTerm s) (fun _ => True).
Proof.
  intros st Hst. unfold test. destruct (regexExec searchTerm s (lastIndex st)).
  split; [exact Hst | trivial].
Qed.

Lemma triple_andTest (cond : bool) (searchTerm s : string) :
  triple (andTest cond searchTerm s) (fun _ => True).
Proof.
  unfold andTest. destruct cond; [apply triple_test | apply triple_ret; exact I].
Qed.

Lemma triple_fetch {A} (req : Request) (answer : Fetched A) :
  triple (fetch req answer) (fun _ => True).
Proof.
  intros st Hst. unfold fetch. destruct answer; split; trivial.
Qed.

Lemma triple_push (r : CodeSearchResult) :
  wellFormed r -> triple (push r) (fun _ => True).
Proof.
  intros Hr st Hst. split; [ | trivial].
  unfold Inv, push. cbn. apply Forall_app. split; [exact Hst | ].
  constructor; [exact Hr | constructor].
Qed.

Lemma triple_getResults : triple getResults (fun _ => True).
Proof. intros st Hst. split; [exact Hst | trivial]. Qed.

Lemma triple_forEach {A} (xs : list A) (body : A -> Exec unit) :
  (forall x, In x xs -> preserves (body x)) -> preserves (forEach xs body).
Proof.
  induction xs as [ | x rest IH]; intros Hbody; cbn.
  - apply triple_ret. exact I.
  - eapply triple_bind.
    + apply Hbody. left. reflexivity.
    + intros _ _. apply IH. intros y Hy. apply Hbody. right. exact Hy.
Qed.

Lemma triple_mapExec {A B} (f : A -> Exec B) (Q : B -> Prop) (xs : list A) :
  (forall x, triple (f x) Q) -> triple (mapExec f xs) (Forall Q).
Proof.
  intros Hf. induction xs as [ | x rest IH]; cbn.
  - apply triple_ret. constructor.
  - eapply triple_bind; [apply Hf | ]. intros y Hy.
    eapply triple_bind; [apply IH | ]. intros ys Hys.
    apply triple_ret. constructor; assumption.
Qed.

Lemma triple_settle (body : Exec unit) : preserves body -> preserves (settle body).
Proof.
  intros Hb st Hst. unfold settle. destruct (Hb st Hst) as [Hinv _].
  destruct (body st) as [[e | a] st']; cbn in *; split; trivial.
Qed.

Lemma triple_toolingQuery {A} cleanInstanceUrl accessToken soql timeout
    (answer : Fetched (QueryJson A)) :
  preserves (toolingQuery cleanInstanceUrl accessToken soql timeout answer).
Proof.
  unfold toolingQuery. apply triple_tryCatch.
  - eapply triple_bind; [apply triple_fetch | ]. intros response _.
    destruct response as [[ | | records] | status errorText].
    + apply triple_throw.
    + apply triple_ret. exact I.
    + apply triple_ret. exact I.
    + destruct (Nat.eqb status 401); [apply triple_throw | apply triple_ret; exact I].
  - intros e. destruct e; first [apply triple_throw | apply triple_ret; exact I].
Qed.

Lemma triple_recordsOf {A} (result : option (list A)) : preserves (recordsOf result).
Proof.
  destruct result; cbn; [apply triple_ret; exact I | apply triple_throw].
Qed.

Lemma triple_branchCatch (e : Thrown) : preserves (branchCatch e).
Proof.
  unfold branchCatch. destruct (isTokenExpired e);
    [apply triple_throw | apply triple_ret; exact I].
Qed.

(** From here on the primitives of [Exec] are reasoned about through
    their rules only. *)
Arguments ret : simpl never.
Arguments bind : simpl never.
Arguments throw : simpl never.
Arguments tryCatch : simpl never.
Arguments test : simpl never.
Arguments andTest : simpl never.
Arguments push : simpl never.
Arguments fetch : simpl never.
Arguments getResults : simpl never.
Arguments settle : simpl never.
Arguments toolingQuery : simpl never.

(** ** Every branch pushes well-formed entries *)

Section BranchInvariants.

Variable env : Transport.
Variables cleanInstanceUrl accessToken searchTerm : string.

Ltac known_type := cbn; unfold knownTypes; cbn; tauto.

Lemma triple_scanLines type lines rest i found :
  preserves (scanLines searchTerm type lines rest i found).
Proof.
  revert i found. induction rest as [ | ln rest' IH]; intros i found; cbn [scanLines].
  - apply triple_ret. exact I.
  - destruct (List.length found <? maxMatches)%nat.
    + eapply triple_bind; [apply triple_test | ]. intros hit _. apply IH.
    + apply triple_ret. exact I.
Qed.

Lemma triple_searchInContent content fileName type name label id :
  In type knownTypes ->
  preserves (searchInContent searchTerm content fileName type name label id).
Proof.
  intros Htype. unfold searchInContent.
  destruct (negb (Js.truthy content) || Nat.eqb (String.length content) 0).
  - apply triple_ret. exact I.
  - eapply triple_bind; [apply triple_scanLines | ]. intros found _.
    destruct (0 <? List.length found)%nat.
    + apply triple_push. split; [reflexivity | exact Htype].
    + apply triple_ret. exact I.
Qed.

Lemma triple_apexClassBranch :
  preserves (apexClassBranch env cleanInstanceUrl accessToken searchTerm).
Proof.
  unfold apexClassBranch. apply triple_tryCatch; [ | apply triple_branchCatch].
  eapply triple_bind; [apply triple_toolingQuery | ]. intros result _.
  eapply triple_bind; [apply triple_recordsOf | ]. intros apexClasses _.
  apply triple_forEach. intros cls _. unfold scanApexClass.
  destruct (cls_Body cls) as [body | ]; [ | apply triple_ret; exact I].
  eapply triple_bind; [apply triple_andTest | ]. intros hit _.
  destruct hit; [ | apply triple_ret; exact I].
  apply triple_searchInContent. known_type.
Qed.

Lemma triple_apexTriggerBranch :
  preserves (apexTriggerBranch env cleanInstanceUrl accessToken searchTerm).
Proof.
  unfold apexTriggerBranch. apply triple_tryCatch; [ | apply triple_branchCatch].
  eapply triple_bind; [apply triple_toolingQuery | ]. intros result _.
  eapply triple_bind; [apply triple_recordsOf | ]. intros triggers _.
  apply triple_forEach. intros trigger _. unfold scanApexTrigger.
  destruct (trg_Body trigger) as [body | ]; [ | apply triple_ret; exact I].
  eapply triple_bind; [apply triple_andTest | ]. intros hit _.
  destruct hit; [ | apply triple_ret; exact I].
  apply triple_searchInContent. known_type.
Qed.

Lemma triple_scanXmlLines xmlLines rest lineIndex xmlMatchCount locals :
  countedLocals locals ->
  triple (scanXmlLines searchTerm xmlLines rest lineIndex xmlMatchCount locals)
    countedLocals.
Proof.
  revert lineIndex xmlMatchCount locals.
  induction rest as [ | ln rest' IH]; intros lineIndex xmlMatchCount locals Hl;
    cbn [scanXmlLines].
  - apply triple_ret. exact Hl.
  - destruct (xmlMatchCount <? maxXmlMatches)%nat; [ | apply triple_ret; exact Hl].
    eapply triple_bind; [apply triple_test | ]. intros hit _.
    destruct hit; apply IH; [ | exact Hl].
    unfold countedLocals in *. cbn. rewrite length_app. cbn. lia.
Qed.

Lemma triple_flowNameMatch flow :
  triple (flowNameMatch searchTerm flow) countedLocals.
Proof.
  unfold flowNameMatch. destruct (flow_MasterLabel flow) as [masterLabel | ].
  - eapply triple_bind; [apply triple_andTest | ]. intros hit _.
    destruct hit; apply triple_ret; reflexivity.
  - apply triple_ret. reflexivity.
Qed.

Lemma triple_flowDocumentScan flow locals :
  countedLocals locals ->
  preserves (flowDocumentScan env cleanInstanceUrl accessToken searchTerm flow locals).
Proof.
  intros Hl. unfold flowDocumentScan.
  eapply triple_bind with (Q := countedLocals).
  - apply triple_tryCatch; [ | intros e; apply triple_ret; exact Hl].
    eapply triple_bind; [apply triple_fetch | ]. intros xmlResponse _.
    destruct xmlResponse as [xmlContent | status errorText];
      [ | apply triple_ret; exact Hl].
    eapply triple_bind; [apply triple_andTest | ]. intros hit _.
    destruct hit; [apply triple_scanXmlLines; exact Hl | apply triple_ret; exact Hl].
  - intros locals' Hl'.
    destruct (0 <? List.length (flowMatches locals'))%nat; [ | apply triple_ret; exact I].
    apply triple_push. split; [exact Hl' | known_type].
Qed.

Lemma triple_flowBatch batch :
  preserves (flowBatch env cleanInstanceUrl accessToken searchTerm batch).
Proof.
  unfold flowBatch.
  eapply triple_bind with (Q := Forall (fun fl => countedLocals (snd fl))).
  - apply triple_mapExec. intros flow.
    eapply triple_bind with (Q := countedLocals).
    + apply triple_tryCatch; [apply triple_flowNameMatch | ].
      intros e. apply triple_ret. reflexivity.
    + intros locals Hl. apply triple_ret. exact Hl.
  - intros started Hstarted. apply triple_forEach. intros fl Hfl.
    apply triple_tryCatch; [ | intros e; apply triple_ret; exact I].
    apply triple_flowDocumentScan.
    rewrite Forall_forall in Hstarted. apply Hstarted. exact Hfl.
Qed.

Lemma triple_flowBranch :
  preserves (flowBranch env cleanInstanceUrl accessToken searchTerm).
Proof.
  unfold flowBranch. apply triple_tryCatch; [ | apply triple_branchCatch].
  eapply triple_bind; [apply triple_toolingQuery | ]. intros result _.
  eapply triple_bind; [apply triple_recordsOf | ]. intros flows _.
  apply triple_forEach. intros batch _. apply triple_flowBatch.
Qed.

Lemma triple_fieldMatch field entry :
  preserves (fieldMatch searchTerm field entry).
Proof.
  unfold fieldMatch. destruct field as [text | ]; [ | apply triple_ret; exact I].
  eapply triple_bind; [apply triple_andTest | ]. intros hit _.
  apply triple_ret. exact I.
Qed.

Lemma triple_bundleBranch kind answer :
  In (bk_type kind) knownTypes ->
  preserves (bundleBranch cleanInstanceUrl accessToken searchTerm kind answer).
Proof.
  intros Hkind. unfold bundleBranch.
  apply triple_tryCatch; [ | apply triple_branchCatch].
  eapply triple_bind; [apply triple_toolingQuery | ]. intros result _.
  eapply triple_bind; [apply triple_recordsOf | ]. intros bundles _.
  apply triple_forEach. intros bundle _. unfold scanBundle.
  eapply triple_bind; [apply triple_test | ]. intros hit _.
  destruct hit; [ | apply triple_ret; exact I].
  eapply triple_bind; [apply triple_fieldMatch | ]. intros m1 _.
  eapply triple_bind; [apply triple_fieldMatch | ]. intros m2 _.
  eapply triple_bind; [apply triple_fieldMatch | ]. intros m3 _.
  apply triple_push. split; [reflexivity | exact Hkind].
Qed.

Lemma triple_validationRuleBranch :
  preserves (validationRuleBranch env cleanInstanceUrl accessToken searchTerm).
Proof.
  unfold validationRuleBranch.
  apply triple_tryCatch; [ | apply triple_branchCatch].
  eapply triple_bind; [apply triple_toolingQuery | ]. intros result _.
  eapply triple_bind; [apply triple_recordsOf | ]. intros rules _.
  apply triple_forEach. intros rule _. unfold scanValidationRule.
  eapply triple_bind; [apply triple_test | ]. intros hit _.
  destruct hit; [ | apply triple_ret; exact I].
  eapply triple_bind; [apply triple_fieldMatch | ]. intros m1 _.
  eapply triple_bind; [apply triple_fieldMatch | ]. intros m2 _.
  apply triple_push. split; [reflexivity | known_type].
Qed.

Lemma triple_layoutBranch :
  preserves (layoutBranch env cleanInstanceUrl accessToken searchTerm).
Proof.
  unfold layoutBranch.
  apply triple_tryCatch; [ | apply triple_branchCatch].
  eapply triple_bind; [apply triple_toolingQuery | ]. intros result _.
  eapply triple_bind; [apply triple_recordsOf | ]. intros layouts _.
  apply triple_forEach. intros layout _. unfold scanLayout.
  eapply triple_bind; [apply triple_andTest | ]. intros hit _.
  destruct hit; [ | apply triple_ret; exact I].
  apply triple_push. split; [reflexivity | known_type].
Qed.

Lemma triple_recordTypeBranch :
  preserves (recordTypeBranch env cleanInstanceUrl accessToken searchTerm).
Proof.
  unfold recordTypeBranch.
  apply triple_tryCatch; [ | apply triple_branchCatch].
  eapply triple_bind; [apply triple_fetch | ]. intros response _.
  destruct response as [[ | | recordTypes] | status errorText];
    try (apply triple_throw); try (apply triple_ret; exact I).
  apply triple_forEach. intros recordType _. unfold scanRecordType.
  eapply triple_bind; [apply triple_test | ]. intros hit _.
  destruct hit; [ | apply triple_ret; exact I].
  eapply triple_bind; [apply triple_fieldMatch | ]. intros m1 _.
  eapply triple_bind; [apply triple_fieldMatch | ]. intros m2 _.
  apply triple_push. split; [reflexivity | known_type].
Qed.

Lemma triple_soslBranch :
  preserves (soslBranch env cleanInstanceUrl accessToken searchTerm).
Proof.
  unfold soslBranch.
  apply triple_tryCatch; [ | apply triple_branchCatch].
  eapply triple_bind; [apply triple_fetch | ]. intros response _.
  destruct response as [[ | | searchRecords] | status errorText];
    try (apply triple_throw); try (apply triple_ret; exact I).
  apply triple_forEach. intros record _. unfold addSearchRecord.
  eapply triple_bind; [apply triple_getResults | ]. intros current _.
  destruct (existsb _ current); [apply triple_ret; exact I | ].
  destruct (isType (sr_type record) "ApexClass").
  - apply triple_push. split; [reflexivity | known_type].
  - destruct (isType (sr_type record) "ApexTrigger").
    + apply triple_push. split; [reflexivity | known_type].
    + apply triple_ret. exact I.
Qed.

Lemma triple_runBranch b :
  preserves (runBranch env cleanInstanceUrl accessToken searchTerm b).
Proof.
  destruct b; cbn [runBranch]; unfold lwcBranch, auraBranch.
  - apply triple_apexClassBranch.
  - apply triple_apexTriggerBranch.
  - apply triple_flowBranch.
  - apply triple_bundleBranch. cbn. unfold knownTypes. cbn. tauto.
  - apply triple_bundleBranch. cbn. unfold knownTypes. cbn. tauto.
  - apply triple_validationRuleBranch.
  - apply triple_layoutBranch.
  - apply triple_recordTypeBranch.
  - apply triple_soslBranch.
Qed.

Lemma triple_allSettled order :
  preserves (allSettled (runBranch env cleanInstanceUrl accessToken searchTerm) order).
Proof.
  induction order as [ | b rest IH]; cbn [allSettled].
  - apply triple_ret. exact I.
  - eapply triple_bind; [apply triple_settle, triple_runBranch | ]. intros s _.
    eapply triple_bind; [apply IH | ]. intros others _.
    apply triple_ret. exact I.
Qed.

End BranchInvariants.

(** ** The shape of what [searchCodeContent] returns *)

Lemma allSettled_normal (run : Branch -> Exec unit) (order : list Branch) (st : Shared) :
  exists outcomes, fst (allSettled run order st) = inr outcomes.
Proof.
  revert st. induction order as [ | b rest IH]; intros st; cbn [allSettled].
  - exists []. reflexivity.
  - unfold bind, settle.
    destruct (run b st) as [[e | v] st'].
    + destruct (IH st') as [outcomes Ho].
      destruct (allSettled run rest st') as [[e' | o] st'']; cbn in Ho; [discriminate | ].
      eexists. reflexivity.
    + destruct (IH st') as [outcomes Ho].
      destruct (allSettled run rest st') as [[e' | o] st'']; cbn in Ho; [discriminate | ].
      eexists. reflexivity.
Qed.

Lemma forEach_rethrow_state (bs : list Branch) settled (st : Shared) :
  snd (forEach bs (fun b =>
         match outcomeOf b settled with
         | Some (Rejected reason) => if isTokenExpired reason then throw reason else ret tt
         | _ => ret tt
         end) st) = st.
Proof.
  induction bs as [ | b rest IH]; cbn [forEach].
  - reflexivity.
  - unfold bind.
    destruct (outcomeOf b settled) as [[v | reason] | ]; unfold ret at 1; cbn.
    + exact IH.
    + destruct (isTokenExpired reason); unfold throw, ret; cbn; [reflexivity | exact IH].
    + exact IH.
Qed.

Lemma rethrowTokenExpired_state settled (st : Shared) :
  snd (rethrowTokenExpired settled st) = st.
Proof. apply forEach_rethrow_state. Qed.

(** [searchCodeContent] never rejects: it returns the empty list, or the
    ranked list of what the branches collected. *)
Lemma searchCodeContent_returned localeCompare env order instanceUrl accessToken searchTerm :
  returned (searchCodeContent localeCompare env order instanceUrl accessToken searchTerm)
    = Fulfilled []
  \/ (invalidParameters instanceUrl accessToken searchTerm = false
      /\ returned (searchCodeContent localeCompare env order instanceUrl accessToken searchTerm)
         = Fulfilled (rank localeCompare
                        (collected env order instanceUrl accessToken searchTerm))).
Proof.
  unfold searchCodeContent, collected, settledState.
  fold (invalidParameters instanceUrl accessToken searchTerm).
  destruct (invalidParameters instanceUrl accessToken searchTerm).
  - left. reflexivity.
  - unfold tryCatch, bind.
    destruct (allSettled_normal
                (runBranch env (stripTrailingSlash instanceUrl) accessToken searchTerm)
                (settleOrder order) initialShared) as [outcomes Ho].
    destruct (allSettled _ (settleOrder order) initialShared) as [[e | o] st].
    + cbn in Ho. discriminate.
    + cbn [snd].
      pose proof (rethrowTokenExpired_state o st) as Hst.
      destruct (rethrowTokenExpired o st) as [[e | u] st']; cbn in Hst; subst st'.
      * left. reflexivity.
      * right. split; reflexivity.
Qed.

Lemma collected_Inv env order instanceUrl accessToken searchTerm :
  Forall wellFormed (collected env order instanceUrl accessToken searchTerm).
Proof.
  unfold collected, settledState.
  apply (triple_allSettled env (stripTrailingSlash instanceUrl) accessToken searchTerm
           (settleOrder order) initialShared).
  constructor.
Qed.

(** ** Keys are faithful to the pairs they are built from *)

Lemma dash_split (s1 s2 t1 t2 : string) :
  noDash s1 = true -> noDash s2 = true ->
  s1 ++ "-" ++ t1 = s2 ++ "-" ++ t2 -> s1 = s2 /\ t1 = t2.
Proof.
  revert s2. induction s1 as [ | c1 r1 IH]; intros [ | c2 r2] H1 H2 E; cbn in *.
  - injection E as ->. split; reflexivity.
  - injection E as <- _. cbn in H2. discriminate H2.
  - injection E as -> _. cbn in H1. discriminate H1.
  - injection E as -> E'.
    apply andb_prop in H1 as [_ H1]. apply andb_prop in H2 as [_ H2].
    destruct (IH r2 H1 H2 E') as [-> ->]. split; reflexivity.
Qed.

Lemma noDash_uint (d : uint) : noDash (NilEmpty.string_of_uint d) = true.
Proof. induction d; cbn; auto. Qed.

Lemma ofNat_inj (n m : nat) : Js.ofNat n = Js.ofNat m -> n = m.
Proof.
  unfold Js.ofNat. intros E. apply Unsigned.to_uint_inj.
  pose proof (NilEmpty.usu (Nat.to_uint n)) as Hn.
  pose proof (NilEmpty.usu (Nat.to_uint m)) as Hm.
  rewrite E in Hn. rewrite Hn in Hm. injection Hm as ->. reflexivity.
Qed.

Lemma matchKey_faithful (a b : Match) :
  String.eqb (matchKey a) (matchKey b) = sameLineSnippet a b.
Proof.
  unfold sameLineSnippet.
  destruct (String.eqb (matchKey a) (matchKey b)) eqn:E.
  - apply String.eqb_eq in E. unfold matchKey in E.
    apply dash_split in E; try apply noDash_uint.
    destruct E as [En Es]. apply ofNat_inj in En.
    rewrite En, Es, Nat.eqb_refl, String.eqb_refl. reflexivity.
  - symmetry. apply not_true_iff_false. intros H.
    apply andb_prop in H as [Hn Hs].
    apply Nat.eqb_eq in Hn. apply String.eqb_eq in Hs.
    apply String.eqb_neq in E. apply E. unfold matchKey. rewrite Hn, Hs. reflexivity.
Qed.

Ltac peel_strings :=
  repeat match goal with
         | H : String _ _ = String _ _ |- _ => injection H as ? H
         | H : String _ _ = EmptyString |- _ => discriminate H
         | H : EmptyString = String _ _ |- _ => discriminate H
         end.

Lemma resultKey_faithful (a b : CodeSearchResult) :
  In (type a) knownTypes -> In (type b) knownTypes ->
  resultKey a = resultKey b -> identity a = identity b.
Proof.
  unfold resultKey, identity, knownTypes. intros Ha Hb E.
  cbn in Ha, Hb.
  repeat (destruct Ha as [Ha | Ha]; [ | ]); try contradiction;
  repeat (destruct Hb as [Hb | Hb]; [ | ]); try contradiction;
  rewrite <- Ha, <- Hb in *; cbn in E; peel_strings;
  try discriminate; congruence.
Qed.

(** ** The inner [reduce] deduplicates by (line, snippet) *)

Lemma sameLineSnippet_sym (a b : Match) : sameLineSnippet a b = sameLineSnippet b a.
Proof.
  unfold sameLineSnippet. rewrite (Nat.eqb_sym (line a)), (String.eqb_sym (snippet a)).
  reflexivity.
Qed.

Lemma sameLineSnippet_true (a b : Match) :
  sameLineSnippet a b = true <-> (line a, snippet a) = (line b, snippet b).
Proof.
  unfold sameLineSnippet. rewrite andb_true_iff, Nat.eqb_eq, String.eqb_eq.
  split; [intros [-> ->]; reflexivity | intros E; injection E; auto].
Qed.

Lemma existsb_pointwise {A} (p q : A -> bool) (l : list A) :
  (forall x, p x = q x) -> existsb p l = existsb q l.
Proof.
  intros H. induction l as [ | x r IH]; cbn; [reflexivity | rewrite H, IH; reflexivity].
Qed.

Lemma existsb_reversed {A} (p : A -> bool) (l : list A) :
  existsb p (List.rev l) = existsb p l.
Proof.
  induction l as [ | x r IH]; cbn; [reflexivity | ].
  rewrite existsb_app, IH. cbn. rewrite orb_false_r. apply orb_comm.
Qed.

Lemma uniqueMatches_fold (l acc : list Match) :
  fold_left
    (fun matchAcc m =>
       if existsb (fun m' => String.eqb (matchKey m') (matchKey m)) matchAcc
       then matchAcc else (matchAcc ++ [m])%list) l acc
  = (acc ++ dedupeAfter (List.rev acc) l)%list.
Proof.
  revert acc. induction l as [ | m rest IH]; intros acc; cbn [fold_left dedupeAfter].
  - rewrite app_nil_r. reflexivity.
  - rewrite IH.
    rewrite (existsb_pointwise _ (sameLineSnippet m))
      by (intros x; rewrite matchKey_faithful; apply sameLineSnippet_sym).
    rewrite existsb_reversed.
    destruct (existsb (sameLineSnippet m) acc); [reflexivity | ].
    rewrite rev_app_distr. cbn [List.rev app]. rewrite <- app_assoc. reflexivity.
Qed.

Lemma uniqueMatchesOf_spec (l : list Match) :
  uniqueMatchesOf l = dedupeByLineSnippet l.
Proof. unfold uniqueMatchesOf. rewrite uniqueMatches_fold. reflexivity. Qed.

Lemma dedupeAfter_absorb (kept l1 l2 : list Match) :
  dedupeAfter kept (dedupeAfter kept l1 ++ l2) = dedupeAfter kept (l1 ++ l2).
Proof.
  revert kept. induction l1 as [ | m rest IH]; intros kept.
  - reflexivity.
  - rewrite <- app_comm_cons. cbn [dedupeAfter].
    destruct (existsb (sameLineSnippet m) kept) eqn:E.
    + apply IH.
    + rewrite <- app_comm_cons. cbn [dedupeAfter]. rewrite E, IH. reflexivity.
Qed.

Lemma dedupeAfter_sound (kept l : list Match) (m : Match) :
  In m (dedupeAfter kept l) -> In m l /\ existsb (sameLineSnippet m) kept = false.
Proof.
  revert kept. induction l as [ | x rest IH]; intros kept H; cbn [dedupeAfter] in H.
  - contradiction.
  - destruct (existsb (sameLineSnippet x) kept) eqn:E.
    + destruct (IH _ H) as [Hin Hk]. split; [right; exact Hin | exact Hk].
    + destruct H as [<- | H]; [split; [left; reflexivity | exact E] | ].
      destruct (IH _ H) as [Hin Hk]. split; [right; exact Hin | ].
      cbn in Hk. apply orb_false_elim in Hk. apply Hk.
Qed.

(** No two records kept agree on (line, snippet). *)
Lemma dedupeAfter_NoDup (kept l : list Match) :
  NoDup (map (fun m => (line m, snippet m)) (dedupeAfter kept l)).
Proof.
  revert kept. induction l as [ | x rest IH]; intros kept; cbn [dedupeAfter].
  - constructor.
  - destruct (existsb (sameLineSnippet x) kept); [apply IH | ].
    cbn [map]. constructor; [ | apply IH].
    intros Hin. apply in_map_iff in Hin as [y [Hy Hin]].
    apply dedupeAfter_sound in Hin as [_ Hk]. cbn in Hk.
    apply orb_false_elim in Hk as [Hk _].
    apply not_true_iff_false in Hk. apply Hk. apply sameLineSnippet_true. exact Hy.
Qed.

(** Every record of the input is represented among the records kept. *)
Lemma dedupeAfter_complete (kept l : list Match) (m : Match) :
  In m l -> existsb (sameLineSnippet m) (kept ++ dedupeAfter kept l) = true.
Proof.
  revert kept. induction l as [ | x rest IH]; intros kept H; [contradiction | ].
  cbn [dedupeAfter]. destruct (existsb (sameLineSnippet x) kept) eqn:E.
  - destruct H as [<- | H]; [ | apply IH; exact H].
    rewrite existsb_app, E. reflexivity.
  - destruct H as [<- | H].
    + rewrite existsb_app. cbn.
      assert (sameLineSnippet x x = true) as -> by (apply sameLineSnippet_true; reflexivity).
      apply orb_true_r.
    + specialize (IH (x :: kept) H).
      rewrite existsb_app in *. cbn in *.
      destruct (sameLineSnippet m x); cbn in *.
      * rewrite orb_true_r. reflexivity.
      * destruct (existsb (sameLineSnippet m) kept); cbn in *; [reflexivity | ].
        exact IH.
Qed.

(** ** The outer [reduce] groups by key *)

Lemma findIndex_none {A} (p : A -> bool) (l : list A) :
  findIndex p l = None -> find p l = None.
Proof.
  induction l as [ | x r IH]; cbn; [reflexivity | ].
  destruct (p x); [discriminate | ].
  destruct (findIndex p r); [discriminate | ]. intros _. apply IH. reflexivity.
Qed.

Lemma findIndex_some {A} (p : A -> bool) (l : list A) (i : nat) :
  findIndex p l = Some i -> exists x, nth_error l i = Some x /\ find p l = Some x.
Proof.
  revert i. induction l as [ | x r IH]; intros i; cbn; [discriminate | ].
  destruct (p x).
  - intros E. injection E as <-. exists x. split; reflexivity.
  - destruct (findIndex p r) as [j | ]; [ | discriminate].
    intros E. injection E as <-. apply (IH j). reflexivity.
Qed.

Lemma find_setAt_hit {A} (p : A -> bool) (l : list A) (i : nat) (v : A) :
  findIndex p l = Some i -> p v = true -> find p (setAt i v l) = Some v.
Proof.
  revert i. induction l as [ | x r IH]; intros i; cbn; [discriminate | ].
  destruct (p x) eqn:Px.
  - intros E Pv. injection E as <-. cbn. rewrite Pv. reflexivity.
  - destruct (findIndex p r) as [j | ]; [ | discriminate].
    intros E Pv. injection E as <-. cbn. rewrite Px. apply IH; [reflexivity | exact Pv].
Qed.

Lemma find_setAt_miss {A} (q : A -> bool) (l : list A) (i : nat) (x v : A) :
  nth_error l i = Some x -> q x = false -> q v = false ->
  find q (setAt i v l) = find q l.
Proof.
  revert i. induction l as [ | y r IH]; intros [ | j]; cbn; try discriminate.
  - intros E Qx Qv. injection E as ->. rewrite Qx, Qv. reflexivity.
  - intros E Qx Qv. destruct (q y); [reflexivity | ]. apply (IH j); assumption.
Qed.

Lemma map_setAt {A B} (f : A -> B) (l : list A) (i : nat) (x v : A) :
  nth_error l i = Some x -> f v = f x -> map f (setAt i v l) = map f l.
Proof.
  revert i. induction l as [ | y r IH]; intros [ | j]; cbn; try discriminate.
  - intros E Fv. injection E as ->. rewrite Fv. reflexivity.
  - intros E Fv. rewrite (IH j); [reflexivity | exact E | exact Fv].
Qed.

Lemma Forall_setAt {A} (P : A -> Prop) (l : list A) (i : nat) (v : A) :
  Forall P l -> P v -> Forall P (setAt i v l).
Proof.
  revert i. induction l as [ | y r IH]; intros i Hl Hv; [destruct i; constructor | ].
  inversion Hl as [ | ? ? Hy Hr]; subst.
  destruct i as [ | j]; cbn; constructor; auto.
Qed.

Lemma find_app_ {A} (p : A -> bool) (l1 l2 : list A) :
  find p (l1 ++ l2) = match find p l1 with Some x => Some x | None => find p l2 end.
Proof.
  induction l1 as [ | x r IH]; cbn; [reflexivity | ].
  destruct (p x); [reflexivity | exact IH].
Qed.

Lemma resultKey_mergeEntry (existing current : CodeSearchResult) :
  resultKey (mergeEntry existing current) = resultKey existing.
Proof. reflexivity. Qed.

Lemma keyIs_trans (k : string) (a b : CodeSearchResult) :
  keyIs (resultKey a) b = true -> keyIs k b = keyIs k a.
Proof.
  unfold keyIs. intros E. apply String.eqb_eq in E. rewrite E. reflexivity.
Qed.

Lemma mergeStep_find (k : string) (acc : list CodeSearchResult) (c : CodeSearchResult) :
  find (keyIs k) (mergeStep acc c)
  = if keyIs k c
    then Some (match find (keyIs k) acc with
               | Some e => mergeEntry e c
               | None => c
               end)
    else find (keyIs k) acc.
Proof.
  unfold mergeStep. fold (keyIs (resultKey c)).
  destruct (findIndex (keyIs (resultKey c)) acc) as [i | ] eqn:Ei.
  - destruct (findIndex_some _ _ _ Ei) as [existing [Hnth Hfind]].
    rewrite Hnth.
    pose proof (find_some _ _ Hfind) as [_ Hkey].
    destruct (keyIs k c) eqn:Ekc.
    + assert (k = resultKey c) as -> by (symmetry; apply String.eqb_eq; exact Ekc).
      rewrite Hfind. apply find_setAt_hit; [exact Ei | ].
      unfold keyIs. rewrite resultKey_mergeEntry. exact Hkey.
    + assert (keyIs k existing = false) as Hke
        by (rewrite (keyIs_trans k c existing Hkey); exact Ekc).
      apply (find_setAt_miss _ _ _ existing); [exact Hnth | exact Hke | ].
      unfold keyIs. rewrite resultKey_mergeEntry. exact Hke.
  - apply findIndex_none in Ei. rewrite find_app_. cbn [find].
    destruct (keyIs k c) eqn:Ekc.
    + assert (k = resultKey c) as -> by (symmetry; apply String.eqb_eq; exact Ekc).
      rewrite Ei. reflexivity.
    + destruct (find (keyIs k) acc); reflexivity.
Qed.

Lemma fold_mergeStep_find (k : string) (l acc : list CodeSearchResult) :
  find (keyIs k) (fold_left mergeStep l acc)
  = match find (keyIs k) acc with
    | Some e => Some (fold_left mergeEntry (filter (keyIs k) l) e)
    | None => mergeAll (filter (keyIs k) l)
    end.
Proof.
  revert acc. induction l as [ | c rest IH]; intros acc; cbn [fold_left filter].
  - destruct (find (keyIs k) acc); reflexivity.
  - rewrite IH, mergeStep_find.
    destruct (keyIs k c); [ | reflexivity].
    destruct (find (keyIs k) acc); reflexivity.
Qed.

(** The entry found under a key is the fold of the entries collected under
    that key. *)
Lemma uniqueResults_find (k : string) (l : list CodeSearchResult) :
  find (keyIs k) (uniqueResults l) = mergeAll (filter (keyIs k) l).
Proof. unfold uniqueResults. rewrite fold_mergeStep_find. reflexivity. Qed.

Lemma mergeStep_keys_NoDup (acc : list CodeSearchResult) (c : CodeSearchResult) :
  NoDup (map resultKey acc) -> NoDup (map resultKey (mergeStep acc c)).
Proof.
  intros Hacc. unfold mergeStep. fold (keyIs (resultKey c)).
  destruct (findIndex (keyIs (resultKey c)) acc) as [i | ] eqn:Ei.
  - destruct (findIndex_some _ _ _ Ei) as [existing [Hnth _]]. rewrite Hnth.
    rewrite (map_setAt resultKey acc i existing); [exact Hacc | exact Hnth | reflexivity].
  - apply findIndex_none in Ei. rewrite map_app. cbn [map].
    apply NoDup_app_remove_l with (l := []). cbn.
    apply Permutation_NoDup with (l := resultKey c :: map resultKey acc).
    + apply Permutation_cons_append.
    + constructor; [ | exact Hacc].
      intros Hin. apply in_map_iff in Hin as [x [Hx Hin]].
      pose proof (find_none _ _ Ei x Hin) as Hk. unfold keyIs in Hk.
      rewrite Hx, String.eqb_refl in Hk. discriminate Hk.
Qed.

Lemma uniqueResults_keys_NoDup (l : list CodeSearchResult) :
  NoDup (map resultKey (uniqueResults l)).
Proof.
  unfold uniqueResults.
  assert (forall acc, NoDup (map resultKey acc) ->
                      NoDup (map resultKey (fold_left mergeStep l acc))) as H.
  { induction l as [ | c rest IH]; intros acc Hacc; cbn [fold_left]; [exact Hacc | ].
    apply IH, mergeStep_keys_NoDup, Hacc. }
  apply H. constructor.
Qed.

Lemma wellFormed_mergeEntry (existing current : CodeSearchResult) :
  wellFormed existing -> wellFormed (mergeEntry existing current).
Proof. intros [_ Ht]. split; [reflexivity | exact Ht]. Qed.

Lemma mergeStep_wellFormed (acc : list CodeSearchResult) (c : CodeSearchResult) :
  Forall wellFormed acc -> wellFormed c -> Forall wellFormed (mergeStep acc c).
Proof.
  intros Hacc Hc. unfold mergeStep.
  destruct (findIndex _ acc) as [i | ].
  - destruct (nth_error acc i) as [existing | ] eqn:Hnth; [ | exact Hacc].
    apply Forall_setAt; [exact Hacc | ].
    apply wellFormed_mergeEntry.
    rewrite Forall_forall in Hacc. apply Hacc. eapply nth_error_In. exact Hnth.
  - apply Forall_app. split; [exact Hacc | constructor; [exact Hc | constructor]].
Qed.

Lemma uniqueResults_wellFormed (l : list CodeSearchResult) :
  Forall wellFormed l -> Forall wellFormed (uniqueResults l).
Proof.
  unfold uniqueResults.
  assert (forall acc, Forall wellFormed acc -> Forall wellFormed l ->
                      Forall wellFormed (fold_left mergeStep l acc)) as H.
  { induction l as [ | c rest IH]; intros acc Hacc Hl; cbn [fold_left]; [exact Hacc | ].
    inversion Hl as [ | ? ? Hc Hrest]; subst.
    apply IH; [apply mergeStep_wellFormed; assumption | exact Hrest]. }
  intros Hl. apply H; [constructor | exact Hl].
Qed.

(** ** Sorting and truncation *)

Section Sorting.

Context {A : Type}.
Variable cmp : A -> A -> Z.

Lemma insertSorted_perm (x : A) (l : list A) :
  Permutation (insertSorted cmp x l) (x :: l).
Proof.
  induction l as [ | y rest IH]; cbn [insertSorted]; [reflexivity | ].
  destruct (cmp x y <=? 0)%Z; [reflexivity | ].
  rewrite IH. apply perm_swap.
Qed.

Lemma sort_perm (l : list A) : Permutation (sort cmp l) l.
Proof.
  induction l as [ | x rest IH]; cbn; [reflexivity | ].
  unfold sort in IH. rewrite insertSorted_perm, IH. reflexivity.
Qed.

Hypothesis cmp_total : forall a b, (0 < cmp a b)%Z -> (cmp b a <= 0)%Z.
Hypothesis cmp_transitive :
  forall a b c, (cmp a b <= 0)%Z -> (cmp b c <= 0)%Z -> (cmp a c <= 0)%Z.

Lemma insertSorted_sorted (x : A) (l : list A) :
  StronglySorted (fun a b => (cmp a b <= 0)%Z) l ->
  StronglySorted (fun a b => (cmp a b <= 0)%Z) (insertSorted cmp x l).
Proof.
  induction l as [ | y rest IH]; intros Hl; cbn [insertSorted].
  - constructor; constructor.
  - inversion Hl as [ | ? ? Hrest Hy]; subst.
    destruct (cmp x y <=? 0)%Z eqn:E.
    + apply Z.leb_le in E. constructor; [exact Hl | ].
      constructor; [exact E | ].
      rewrite Forall_forall in *. intros z Hz.
      apply (cmp_transitive x y z E). apply Hy. exact Hz.
    + apply Z.leb_gt in E. constructor; [apply IH; exact Hrest | ].
      rewrite Forall_forall in *. intros z Hz.
      apply (Permutation_in _ (insertSorted_perm x rest)) in Hz.
      destruct Hz as [<- | Hz]; [apply cmp_total; exact E | apply Hy; exact Hz].
Qed.

Lemma sort_sorted (l : list A) :
  StronglySorted (fun a b => (cmp a b <= 0)%Z) (sort cmp l).
Proof.
  induction l as [ | x rest IH]; cbn; [constructor | ].
  apply insertSorted_sorted. exact IH.
Qed.

End Sorting.

Lemma In_firstn {A} (n : nat) (l : list A) (x : A) : In x (firstn n l) -> In x l.
Proof.
  revert l. induction n as [ | n IH]; intros [ | y rest]; cbn; try contradiction.
  intros [-> | H]; [left; reflexivity | right; apply IH; exact H].
Qed.

Lemma Forall_firstn_ {A} (P : A -> Prop) (n : nat) (l : list A) :
  Forall P l -> Forall P (firstn n l).
Proof.
  intros H. rewrite Forall_forall in *. intros x Hx. apply H, (In_firstn n), Hx.
Qed.

Lemma StronglySorted_firstn {A} (R : A -> A -> Prop) (n : nat) (l : list A) :
  StronglySorted R l -> StronglySorted R (firstn n l).
Proof.
  revert l. induction n as [ | n IH]; intros [ | y rest] H; cbn; try constructor.
  - inversion H; subst. apply IH. assumption.
  - inversion H; subst. apply Forall_firstn_. assumption.
Qed.

Lemma NoDup_firstn {A} (n : nat) (l : list A) : NoDup l -> NoDup (firstn n l).
Proof.
  revert l. induction n as [ | n IH]; intros [ | y rest] H; cbn; try constructor.
  - inversion H; subst. intros Hin. apply In_firstn in Hin. contradiction.
  - inversion H; subst. apply IH. assumption.
Qed.

Lemma map_firstn_ {A B} (f : A -> B) (n : nat) (l : list A) :
  map f (firstn n l) = firstn n (map f l).
Proof.
  revert l. induction n as [ | n IH]; intros [ | y rest]; cbn; try reflexivity.
  rewrite IH. reflexivity.
Qed.

(** The comparator of the source and the ranking relation of the
    specification agree. *)
Lemma compareResults_ranksBefore localeCompare (a b : CodeSearchResult) :
  (compareResults localeCompare a b <= 0)%Z <-> ranksBefore localeCompare a b.
Proof.
  unfold compareResults, ranksBefore.
  destruct (Z.of_nat (totalMatches b) - Z.of_nat (totalMatches a) =? 0)%Z eqn:E; cbn [negb].
  - apply Z.eqb_eq in E. split.
    + intros H. right. split; [lia | exact H].
    + intros [H | [_ H]]; [lia | exact H].
  - apply Z.eqb_neq in E. split.
    + intros H. left. lia.
    + intros [H | [H _]]; lia.
Qed.

Lemma compareResults_total localeCompare (a b : CodeSearchResult) :
  Consistent localeCompare ->
  (0 < compareResults localeCompare a b)%Z -> (compareResults localeCompare b a <= 0)%Z.
Proof.
  intros HC. unfold compareResults.
  destruct (Z.eqb_spec (Z.of_nat (totalMatches b) - Z.of_nat (totalMatches a)) 0) as [E | E];
  destruct (Z.eqb_spec (Z.of_nat (totalMatches a) - Z.of_nat (totalMatches b)) 0) as [E' | E'];
  cbn [negb]; try lia.
  intros Hpos. pose proof (cmp_antisym _ HC (name a) (name b)) as Hs. lia.
Qed.

Lemma compareResults_trans localeCompare (a b c : CodeSearchResult) :
  Consistent localeCompare ->
  (compareResults localeCompare a b <= 0)%Z ->
  (compareResults localeCompare b c <= 0)%Z ->
  (compareResults localeCompare a c <= 0)%Z.
Proof.
  intros HC. rewrite !compareResults_ranksBefore. unfold ranksBefore.
  intros [Hab | [Hab Hab']] [Hbc | [Hbc Hbc']]; try (left; lia).
  right. split; [lia | ]. apply (cmp_trans _ HC _ (name b)); assumption.
Qed.

Lemma rank_sorted localeCompare (results : list CodeSearchResult) :
  Consistent localeCompare ->
  StronglySorted (ranksBefore localeCompare) (rank localeCompare results).
Proof.
  intros HC. unfold rank. apply StronglySorted_firstn.
  pose proof (sort_sorted (compareResults localeCompare)
                (fun a b => compareResults_total localeCompare a b HC)
                (fun a b c => compareResults_trans localeCompare a b c HC)
                (uniqueResults results)) as H.
  induction H as [ | x l Hl IH Hx]; constructor; [exact IH | ].
  rewrite Forall_forall in *. intros y Hy.
  apply compareResults_ranksBefore, Hx, Hy.
Qed.

Lemma rank_In localeCompare (results : list CodeSearchResult) (r : CodeSearchResult) :
  In r (rank localeCompare results) -> In r (uniqueResults results).
Proof.
  unfold rank. intros H. apply In_firstn in H.
  apply (Permutation_in _ (sort_perm _ _)) in H. exact H.
Qed.

Lemma rank_length localeCompare (results : list CodeSearchResult) :
  List.length (rank localeCompare results) <= 50.
Proof. unfold rank. apply firstn_le_length. Qed.

Lemma rank_wellFormed localeCompare (results : list CodeSearchResult) :
  Forall wellFormed results -> Forall wellFormed (rank localeCompare results).
Proof.
  intros H. apply uniqueResults_wellFormed in H.
  rewrite Forall_forall in *. intros r Hr. apply H, (rank_In localeCompare), Hr.
Qed.

Lemma rank_keys_NoDup localeCompare (results : list CodeSearchResult) :
  NoDup (map resultKey (rank localeCompare results)).
Proof.
  unfold rank. rewrite map_firstn_. apply NoDup_firstn.
  apply Permutation_NoDup with (l := map resultKey (uniqueResults results)).
  - apply Permutation_map. symmetry. apply sort_perm.
  - apply uniqueResults_keys_NoDup.
Qed.

(** ** The code-unit collation is consistent *)

Lemma ordinalCompare_refl (a : string) : ordinalCompare a a = 0%Z.
Proof.
  induction a as [ | x a IH]; cbn; [reflexivity | ].
  rewrite Nat.compare_refl. exact IH.
Qed.

Lemma ordinalCompare_antisym (a b : string) :
  ordinalCompare b a = (- ordinalCompare a b)%Z.
Proof.
  revert b. induction a as [ | x a IH]; intros [ | y b]; cbn; try lia.
  rewrite (Nat.compare_antisym (nat_of_ascii x) (nat_of_ascii y)).
  destruct (Nat.compare (nat_of_ascii x) (nat_of_ascii y)); cbn; try lia. apply IH.
Qed.

Lemma ordinalCompare_trans (a b c : string) :
  (ordinalCompare a b <= 0)%Z -> (ordinalCompare b c <= 0)%Z ->
  (ordinalCompare a c <= 0)%Z.
Proof.
  revert b c. induction a as [ | x a IH]; intros [ | y b] [ | z c]; cbn; try lia.
  destruct (Nat.compare_spec (nat_of_ascii x) (nat_of_ascii y)) as [Exy | Exy | Exy];
  destruct (Nat.compare_spec (nat_of_ascii y) (nat_of_ascii z)) as [Eyz | Eyz | Eyz];
  destruct (Nat.compare_spec (nat_of_ascii x) (nat_of_ascii z)) as [Exz | Exz | Exz];
  try lia.
  apply IH.
Qed.

Lemma ordinalCompare_consistent : Consistent ordinalCompare.
Proof.
  constructor.
  - intros a b. rewrite ordinalCompare_antisym. lia.
  - apply ordinalCompare_trans.
Qed.

(** ** Rules of the relational reading *)

Section Moves.

Variable R : Shared -> Shared -> Prop.
Hypothesis R_refl : forall st, R st st.
Hypothesis R_trans : forall a b c, R a b -> R b c -> R a c.

Lemma moves_weaken {A} (m : Exec A) (Q Q' : A -> Prop) :
  moves R m Q -> (forall a, Q a -> Q' a) -> moves R m Q'.
Proof.
  intros Hm Himp st. destruct (Hm st) as [Hr Hq].
  split; [exact Hr | intros a Ha; apply Himp, Hq, Ha].
Qed.

Lemma moves_ret {A} (a : A) (Q : A -> Prop) : Q a -> moves R (ret a) Q.
Proof.
  intros Hq st. split; [apply R_refl | ].
  intros a' Ha. unfold ret in Ha. cbn in Ha. injection Ha as <-. exact Hq.
Qed.

Lemma moves_throw {A} (e : Thrown) (Q : A -> Prop) : moves R (throw e) Q.
Proof.
  intros st. split; [apply R_refl | ].
  intros a Ha. unfold throw in Ha. cbn in Ha. discriminate Ha.
Qed.

Lemma moves_bind {A B} (m : Exec A) (k : A -> Exec B) (Q : A -> Prop) (Q' : B -> Prop) :
  moves R m Q -> (forall a, Q a -> moves R (k a) Q') -> moves R (bind m k) Q'.
Proof.
  intros Hm Hk st. unfold bind. destruct (Hm st) as [Hr Hq].
  destruct (m st) as [[e | a] st1]; cbn in *.
  - split; [exact Hr | intros b Hb; discriminate Hb].
  - destruct (Hk a (Hq a eq_refl) st1) as [Hr' Hq'].
    split; [apply (R_trans _ st1); assumption | exact Hq'].
Qed.

Lemma moves_tryCatch {A} (body : Exec A) (handler : Thrown -> Exec A) (Q : A -> Prop) :
  moves R body Q -> (forall e, moves R (handler e) Q) -> moves R (tryCatch body handler) Q.
Proof.
  intros Hb Hh st. unfold tryCatch. destruct (Hb st) as [Hr Hq].
  destruct (body st) as [[e | a] st1]; cbn in *.
  - destruct (Hh e st1) as [Hr' Hq'].
    split; [apply (R_trans _ st1); assumption | exact Hq'].
  - split; [exact Hr | ]. intros a' Ha. injection Ha as <-. apply Hq. reflexivity.
Qed.

Lemma moves_forEach {A} (xs : list A) (body : A -> Exec unit) :
  (forall x, In x xs -> moves R (body x) (fun _ => True)) ->
  moves R (forEach xs body) (fun _ => True).
Proof.
  induction xs as [ | x rest IH]; intros Hb; cbn [forEach].
  - apply moves_ret. exact I.
  - eapply moves_bind; [apply Hb; left; reflexivity | ].
    intros _ _. apply IH. intros y Hy. apply Hb. right. exact Hy.
Qed.

Lemma moves_mapExec {A B} (f : A -> Exec B) (Q : B -> Prop) (xs : list A) :
  (forall x, moves R (f x) Q) -> moves R (mapExec f xs) (Forall Q).
Proof.
  intros Hf. induction xs as [ | x rest IH]; cbn [mapExec].
  - apply moves_ret. constructor.
  - eapply moves_bind; [apply Hf | ]. intros y Hy.
    eapply moves_bind; [apply IH | ]. intros ys Hys.
    apply moves_ret. constructor; assumption.
Qed.

Lemma moves_settle (body : Exec unit) :
  moves R body (fun _ => True) -> moves R (settle body) (fun _ => True).
Proof.
  intros Hb st. unfold settle. destruct (Hb st) as [Hr _].
  destruct (body st) as [[e | a] st1]; cbn in *; split; trivial.
Qed.

Lemma moves_getResults : moves R getResults (fun _ => True).
Proof. intros st. split; [apply R_refl | trivial]. Qed.

Lemma moves_recordsOf {A} (result : option (list A)) :
  moves R (recordsOf result) (fun _ => True).
Proof. destruct result; [apply moves_ret; exact I | apply moves_throw]. Qed.

Lemma moves_branchCatch (e : Thrown) : moves R (branchCatch e) (fun _ => True).
Proof.
  unfold branchCatch. destruct (isTokenExpired e);
    [apply moves_throw | apply moves_ret; exact I].
Qed.

(** What remains to be shown of a relation: that the three primitives that
    write to the shared state respect it. *)
Hypothesis R_test : forall searchTerm s, moves R (test searchTerm s) (fun _ => True).
Hypothesis R_fetch :
  forall A (req : Request) (answer : Fetched A), moves R (fetch req answer) (fun _ => True).

Lemma moves_andTest cond searchTerm s :
  moves R (andTest cond searchTerm s) (fun _ => True).
Proof. unfold andTest. destruct cond; [apply R_test | apply moves_ret; exact I]. Qed.

Lemma moves_toolingQuery {A} cleanInstanceUrl accessToken soql timeout
    (answer : Fetched (QueryJson A)) :
  moves R (toolingQuery cleanInstanceUrl accessToken soql timeout answer) (fun _ => True).
Proof.
  unfold toolingQuery. apply moves_tryCatch.
  - eapply moves_bind; [apply R_fetch | ]. intros response _.
    destruct response as [[ | | records] | status errorText].
    + apply moves_throw.
    + apply moves_ret. exact I.
    + apply moves_ret. exact I.
    + destruct (Nat.eqb status 401); [apply moves_throw | apply moves_ret; exact I].
  - intros e. destruct e; first [apply moves_throw | apply moves_ret; exact I].
Qed.

Lemma moves_fieldMatch searchTerm field entry :
  moves R (fieldMatch searchTerm field entry) (fun found => List.length found <= 1).
Proof.
  unfold fieldMatch. destruct field as [text | ]; [ | apply moves_ret; cbn; lia].
  eapply moves_bind; [apply moves_andTest | ]. intros hit _.
  apply moves_ret. destruct hit; cbn; lia.
Qed.

End Moves.

(** * The claims *)

(** ** Escaping for SOSL *)

Lemma soslClass_reserved (c : ascii) : inSoslClass c = true <-> In c soslReserved.
Proof.
  unfold inSoslClass. rewrite existsb_exists. split.
  - intros [x [Hx E]]. apply Ascii.eqb_eq in E. subst x.
    cbn in Hx. cbn.
    repeat (destruct Hx as [Hx | Hx]; [subst c; tauto | ]). contradiction.
  - intros Hc. exists c. split; [ | apply Ascii.eqb_refl].
    cbn in Hc. cbn.
    repeat (destruct Hc as [Hc | Hc]; [subst c; tauto | ]). contradiction.
Qed.

Lemma escapeSOSL_app (s1 s2 : string) :
  escapeSOSL (s1 ++ s2) = escapeSOSL s1 ++ escapeSOSL s2.
Proof.
  induction s1 as [ | c r IH]; cbn [escapeSOSL append]; [reflexivity | ].
  destruct (inSoslClass c); cbn [append]; rewrite IH; reflexivity.
Qed.

Lemma backslash_in_class : inSoslClass "\"%char = true.
Proof. reflexivity. Qed.

Lemma unescape_escape (s : string) : unescapeSOSL (escapeSOSL s) = s.
Proof.
  induction s as [ | c r IH]; cbn [escapeSOSL]; [reflexivity | ].
  destruct (inSoslClass c) eqn:E.
  - cbn [unescapeSOSL]. rewrite Ascii.eqb_refl, IH. reflexivity.
  - cbn [unescapeSOSL].
    destruct (Ascii.eqb c "\"%char) eqn:Ec.
    + apply Ascii.eqb_eq in Ec. subst c. rewrite backslash_in_class in E. discriminate E.
    + rewrite IH. reflexivity.
Qed.

(** C7. [escapeSOSL] acts character by character: it puts one backslash
    before every reserved character, leaves every other character as it is,
    and removing the backslash put before each character gives the input
    back. *)
Theorem C7_escapeSOSL_prefixes_reserved_and_round_trips :
  (forall s1 s2, escapeSOSL (s1 ++ s2) = escapeSOSL s1 ++ escapeSOSL s2)
  /\ (forall c,
        escapeSOSL (String c "")
        = if existsb (Ascii.eqb c) soslReserved
          then String "\"%char (String c "")
          else String c "")
  /\ (forall s, unescapeSOSL (escapeSOSL s) = s).
Proof.
  split; [exact escapeSOSL_app | ].
  split; [ | exact unescape_escape].
  intros c. cbn [escapeSOSL].
  destruct (inSoslClass c) eqn:E.
  - apply soslClass_reserved in E.
    assert (existsb (Ascii.eqb c) soslReserved = true) as ->; [ | reflexivity].
    apply existsb_exists. exists c. split; [exact E | apply Ascii.eqb_refl].
  - assert (existsb (Ascii.eqb c) soslReserved = false) as ->; [ | reflexivity].
    apply not_true_iff_false. intros H. apply existsb_exists in H as [x [Hx Ex]].
    apply Ascii.eqb_eq in Ex. subst x. apply soslClass_reserved in Hx.
    rewrite Hx in E. discriminate E.
Qed.

(** ** Short terms *)

(** C6. A search term shorter than two characters makes [searchCodeContent]
    return the empty list without any request reaching the transport,
    whatever the base URL, the token, the answers the platform would give
    and the settle order. *)
Theorem C6_short_term_returns_empty_without_network
    localeCompare env order instanceUrl accessToken searchTerm :
  String.length searchTerm < 2 ->
  searchCodeContent localeCompare env order instanceUrl accessToken searchTerm
  = mkObservation (Fulfilled []) [].
Proof.
  intros Hshort. unfold searchCodeContent.
  assert ((String.length searchTerm <? 2)%nat = true) as -> by (apply Nat.ltb_lt; exact Hshort).
  rewrite !orb_true_r. reflexivity.
Qed.

(** The one-character term A against [sampleOrg]. *)
Lemma C6_short_term_witness :
  String.length "A" < 2
  /\ searchCodeContent ordinalCompare sampleOrg [] sampleUrl sampleToken "A"
     = mkObservation (Fulfilled []) [].
Proof.
  split; [cbn; lia | ].
  apply (C6_short_term_returns_empty_without_network
           ordinalCompare sampleOrg [] sampleUrl sampleToken "A").
  cbn. lia.
Defined.

(** ** Ranking *)

(** C4. The list returned by [searchCodeContent] is sorted by descending
    [totalMatches], then by ascending name for equal counts, and holds at
    most 50 entries. *)
Theorem C4_returned_list_sorted_and_capped
    localeCompare env order instanceUrl accessToken searchTerm value :
  Consistent localeCompare ->
  returned (searchCodeContent localeCompare env order instanceUrl accessToken searchTerm)
    = Fulfilled value ->
  StronglySorted (ranksBefore localeCompare) value /\ List.length value <= 50.
Proof.
  intros HC Hret.
  destruct (searchCodeContent_returned localeCompare env order instanceUrl accessToken
              searchTerm) as [E | [_ E]];
    rewrite E in Hret; injection Hret as <-.
  - split; [constructor | cbn; lia].
  - split; [apply rank_sorted; exact HC | apply rank_length].
Qed.

(** The two entries returned for [sampleOrg] are ranked. *)
Lemma C4_sorted_witness :
  exists value,
    returned (searchCodeContent ordinalCompare sampleOrg [Sosl] sampleUrl sampleToken
                "Account") = Fulfilled value
    /\ List.length value = 2
    /\ StronglySorted (ranksBefore ordinalCompare) value
    /\ List.length value <= 50.
Proof.
  eexists. split; [vm_compute; reflexivity | ]. split; [reflexivity | ].
  apply (C4_returned_list_sorted_and_capped ordinalCompare sampleOrg [Sosl]
           sampleUrl sampleToken "Account").
  - exact ordinalCompare_consistent.
  - vm_compute. reflexivity.
Defined.

(** ** Match counts *)

(** C10. In every entry of the returned list, [totalMatches] is the length
    of [matches], merged entries included. *)
Theorem C10_totalMatches_is_length_of_matches
    localeCompare env order instanceUrl accessToken searchTerm value :
  returned (searchCodeContent localeCompare env order instanceUrl accessToken searchTerm)
    = Fulfilled value ->
  Forall (fun r => totalMatches r = List.length (matches r)) value.
Proof.
  intros Hret.
  destruct (searchCodeContent_returned localeCompare env order instanceUrl accessToken
              searchTerm) as [E | [_ E]];
    rewrite E in Hret; injection Hret as <-.
  - constructor.
  - pose proof (rank_wellFormed localeCompare _
                  (collected_Inv env order instanceUrl accessToken searchTerm)) as H.
    rewrite Forall_forall in *. intros r Hr. apply (H r Hr).
Qed.

(** The two entries returned for [sampleOrg], one of them merged. *)
Lemma C10_totalMatches_witness :
  exists value,
    returned (searchCodeContent ordinalCompare sampleOrg [Sosl] sampleUrl sampleToken
                "Account") = Fulfilled value
    /\ List.length value = 2
    /\ Forall (fun r => totalMatches r = List.length (matches r)) value.
Proof.
  eexists. split; [vm_compute; reflexivity | ]. split; [reflexivity | ].
  apply (C10_totalMatches_is_length_of_matches ordinalCompare sampleOrg [Sosl]
           sampleUrl sampleToken "Account").
  vm_compute. reflexivity.
Defined.

(** ** Identity and merging *)

Lemma fold_mergeEntry_matches (rest : list CodeSearchResult) (x : CodeSearchResult)
    (seen : list Match) :
  matches x = dedupeByLineSnippet seen ->
  matches (fold_left mergeEntry rest x)
  = dedupeByLineSnippet (seen ++ concat (map matches rest)).
Proof.
  revert x seen. induction rest as [ | c rest IH]; intros x seen Hx; cbn [fold_left map concat].
  - rewrite app_nil_r. exact Hx.
  - rewrite (IH (mergeEntry x c) (seen ++ matches c)%list).
    + rewrite <- app_assoc. reflexivity.
    + cbn [mergeEntry matches]. rewrite uniqueMatchesOf_spec, Hx.
      unfold dedupeByLineSnippet. apply dedupeAfter_absorb.
Qed.

Lemma find_unique {A} (key : A -> string) (l : list A) (r : A) :
  NoDup (map key l) -> In r l ->
  find (fun x => String.eqb (key x) (key r)) l = Some r.
Proof.
  induction l as [ | y rest IH]; intros Hnd Hin; [contradiction | ].
  cbn [map] in Hnd. inversion Hnd as [ | ? ? Hy Hrest]; subst.
  cbn [find]. destruct Hin as [-> | Hin].
  - rewrite String.eqb_refl. reflexivity.
  - destruct (String.eqb (key y) (key r)) eqn:E.
    + apply String.eqb_eq in E. exfalso. apply Hy. rewrite E.
      apply in_map. exact Hin.
    + apply IH; assumption.
Qed.

Lemma sameIdentity_keyIs (r e : CodeSearchResult) :
  wellFormed r -> wellFormed e -> sameIdentity r e = keyIs (resultKey r) e.
Proof.
  intros [_ Hr] [_ He]. unfold sameIdentity, keyIs.
  destruct (String.eqb (resultKey e) (resultKey r)) eqn:E.
  - apply String.eqb_eq in E. apply resultKey_faithful in E; [ | exact He | exact Hr].
    injection E as -> ->. rewrite !String.eqb_refl. reflexivity.
  - apply not_true_iff_false. intros H. apply andb_prop in H as [Ht Hn].
    apply String.eqb_eq in Ht. apply String.eqb_eq in Hn.
    apply String.eqb_neq in E. apply E. unfold resultKey. rewrite Ht, Hn. reflexivity.
Qed.

Lemma filter_sameIdentity (r : CodeSearchResult) (l : list CodeSearchResult) :
  wellFormed r -> Forall wellFormed l ->
  filter (sameIdentity r) l = filter (keyIs (resultKey r)) l.
Proof.
  intros Hr Hl. apply filter_ext_in. intros e He.
  apply sameIdentity_keyIs; [exact Hr | ].
  rewrite Forall_forall in Hl. apply Hl. exact He.
Qed.

Lemma identity_NoDup (l : list CodeSearchResult) :
  NoDup (map resultKey l) -> NoDup (map identity l).
Proof.
  intros H.
  apply (NoDup_map_inv (fun p : string * string => fst p ++ "-" ++ snd p)).
  rewrite map_map. exact H.
Qed.

(** C3. The identities (type, name) of the returned list are pairwise
    distinct. An entry of the list stands for all the collected entries of
    its identity: it is that entry when there is one, and when there are
    several its match list is the concatenation of theirs deduplicated by
    (line, snippet), [totalMatches] being the deduplicated count. *)
Theorem C3_identity_unique_and_duplicates_merged
    localeCompare env order instanceUrl accessToken searchTerm value :
  returned (searchCodeContent localeCompare env order instanceUrl accessToken searchTerm)
    = Fulfilled value ->
  NoDup (map identity value)
  /\ forall r, In r value ->
       match filter (sameIdentity r)
               (collected env order instanceUrl accessToken searchTerm) with
       | [] => False
       | [e] => r = e
       | group =>
           matches r = dedupeByLineSnippet (concat (map matches group))
           /\ totalMatches r
              = List.length (dedupeByLineSnippet (concat (map matches group)))
       end.
Proof.
  intros Hret.
  destruct (searchCodeContent_returned localeCompare env order instanceUrl accessToken
              searchTerm) as [E | [_ E]];
    rewrite E in Hret; injection Hret as <-.
  - split; [constructor | intros r []].
  - pose proof (collected_Inv env order instanceUrl accessToken searchTerm) as Hinv.
    set (results := collected env order instanceUrl accessToken searchTerm) in *.
    split; [apply identity_NoDup, rank_keys_NoDup | ].
    intros r Hr.
    pose proof (rank_wellFormed localeCompare results Hinv) as Hwf.
    rewrite Forall_forall in Hwf. specialize (Hwf r Hr).
    apply rank_In in Hr.
    pose proof (find_unique resultKey _ r (uniqueResults_keys_NoDup results) Hr) as Hfind.
    fold (keyIs (resultKey r)) in Hfind.
    rewrite uniqueResults_find in Hfind.
    rewrite (filter_sameIdentity r results Hwf Hinv).
    destruct (filter (keyIs (resultKey r)) results) as [ | e [ | c rest]];
      cbn [mergeAll] in Hfind.
    + discriminate Hfind.
    + injection Hfind as <-. reflexivity.
    + injection Hfind as <-.
      assert (matches (fold_left mergeEntry (c :: rest) e)
              = dedupeByLineSnippet (concat (map matches (e :: c :: rest)))) as Hm.
      { cbn [fold_left map concat].
        rewrite (fold_mergeEntry_matches rest (mergeEntry e c) (matches e ++ matches c)%list).
        - rewrite <- app_assoc. reflexivity.
        - cbn [mergeEntry matches]. apply uniqueMatchesOf_spec. }
      split; [exact Hm | ].
      rewrite <- Hm. apply Hwf.
Qed.

(** [sampleOrg] with the SOSL fallback settled first: the class is collected
    twice, once by the fallback and once by the class scan, and returned
    once with both match records. *)
Lemma C3_merge_witness :
  exists value,
    returned (searchCodeContent ordinalCompare sampleOrg [Sosl] sampleUrl sampleToken
                "Account") = Fulfilled value
    /\ map (fun r => (id r, map line (matches r))) value
       = [("apex-class-01p1", [1; 2]); ("lwc-bundle-0Rb1", [2])]
    /\ map (fun r => List.length
                       (filter (sameIdentity r)
                          (collected sampleOrg [Sosl] sampleUrl sampleToken "Account")))
         value
       = [2; 1]
    /\ NoDup (map identity value)
    /\ forall r, In r value ->
         match filter (sameIdentity r)
                 (collected sampleOrg [Sosl] sampleUrl sampleToken "Account") with
         | [] => False
         | [e] => r = e
         | group =>
             matches r = dedupeByLineSnippet (concat (map matches group))
             /\ totalMatches r
                = List.length (dedupeByLineSnippet (concat (map matches group)))
         end.
Proof.
  eexists. split; [vm_compute; reflexivity | ].
  split; [vm_compute; reflexivity | ]. split; [vm_compute; reflexivity | ].
  apply (C3_identity_unique_and_duplicates_merged ordinalCompare sampleOrg [Sosl]
           sampleUrl sampleToken "Account").
  vm_compute. reflexivity.
Defined.

(** ** Failure isolation *)

Lemma bind_ext {A B} (m m' : Exec A) (k k' : A -> Exec B) (st : Shared) :
  m st = m' st -> (forall a st', k a st' = k' a st') -> bind m k st = bind m' k' st.
Proof.
  intros Hm Hk. unfold bind. rewrite Hm.
  destruct (m' st) as [[e | a] st']; [reflexivity | apply Hk].
Qed.

Lemma tryCatch_ext {A} (body body' : Exec A) (handler : Thrown -> Exec A) (st : Shared) :
  body st = body' st -> tryCatch body handler st = tryCatch body' handler st.
Proof. intros H. unfold tryCatch. rewrite H. reflexivity. Qed.

Lemma forEach_ext {A} (xs : list A) (f g : A -> Exec unit) :
  (forall x st, f x st = g x st) -> forall st, forEach xs f st = forEach xs g st.
Proof.
  intros H. induction xs as [ | x rest IH]; intros st; cbn [forEach]; [reflexivity | ].
  apply bind_ext; [apply H | intros _ st'; apply IH].
Qed.

Lemma allSettled_ext (run run' : Branch -> Exec unit) (order : list Branch) :
  (forall b st, run b st = run' b st) ->
  forall st, allSettled run order st = allSettled run' order st.
Proof.
  intros H. induction order as [ | b rest IH]; intros st; cbn [allSettled]; [reflexivity | ].
  apply bind_ext.
  - unfold settle. rewrite H. reflexivity.
  - intros s st'. apply bind_ext; [apply IH | reflexivity].
Qed.

(** A tooling query that fails without a 401 answers like one that finds
    nothing. *)
Lemma toolingQuery_failure {A} cleanInstanceUrl accessToken soql timeout
    (answer : Fetched (QueryJson A)) (st : Shared) :
  failsWithoutAuth answer ->
  toolingQuery cleanInstanceUrl accessToken soql timeout answer st
  = toolingQuery cleanInstanceUrl accessToken soql timeout noRecords st.
Proof.
  intros Hfail. unfold toolingQuery, tryCatch, bind, fetch, noRecords.
  destruct answer as [payload | status errorText | | ]; cbn in Hfail.
  - contradiction.
  - apply Nat.eqb_neq in Hfail. rewrite Hfail. reflexivity.
  - reflexivity.
  - reflexivity.
Qed.

Lemma toolingBranch_failure {A} cleanInstanceUrl accessToken soql timeout
    (answer : Fetched (QueryJson A)) (scan : A -> Exec unit) (st : Shared) :
  failsWithoutAuth answer ->
  tryCatch
    (result <- toolingQuery cleanInstanceUrl accessToken soql timeout noRecords ;;
     records <- recordsOf result ;;
     forEach records scan) branchCatch st
  = tryCatch
      (result <- toolingQuery cleanInstanceUrl accessToken soql timeout answer ;;
       records <- recordsOf result ;;
       forEach records scan) branchCatch st.
Proof.
  intros Hfail. apply tryCatch_ext. apply bind_ext; [ | reflexivity].
  symmetry. apply toolingQuery_failure. exact Hfail.
Qed.

Lemma flowDocumentScan_failure env cleanInstanceUrl accessToken searchTerm flowId
    flow locals st :
  failsWithoutAuth (flowDocument env flowId) ->
  flowDocumentScan (withEmptyAnswer (FlowDocumentCall flowId) env)
    cleanInstanceUrl accessToken searchTerm flow locals st
  = flowDocumentScan env cleanInstanceUrl accessToken searchTerm flow locals st.
Proof.
  intros Hfail. unfold flowDocumentScan. apply bind_ext; [ | reflexivity].
  cbn [withEmptyAnswer flowDocument].
  destruct (String.eqb (flow_Id flow) flowId) eqn:E; [ | reflexivity].
  apply String.eqb_eq in E. rewrite E.
  unfold tryCatch, bind, fetch, andTest, ret. revert Hfail.
  destruct (flowDocument env flowId) as [payload | status errorText | | ];
    cbn [failsWithoutAuth]; intros Hfail;
    [contradiction | reflexivity | reflexivity | reflexivity].
Qed.

Lemma runBranch_withEmptyAnswer env c cleanInstanceUrl accessToken searchTerm b st :
  callFails env c ->
  runBranch (withEmptyAnswer c env) cleanInstanceUrl accessToken searchTerm b st
  = runBranch env cleanInstanceUrl accessToken searchTerm b st.
Proof.
  intros Hfail. destruct c as [b0 | flowId].
  - destruct b0, b; try reflexivity; cbn [callFails] in Hfail;
      cbn [runBranch withEmptyAnswer];
      unfold apexClassBranch, apexTriggerBranch, flowBranch, lwcBranch, auraBranch,
        bundleBranch, validationRuleBranch, layoutBranch;
      try (apply toolingBranch_failure; exact Hfail).
    + apply tryCatch_ext. apply bind_ext; [ | reflexivity].
      cbn [flowAnswer]. symmetry. apply toolingQuery_failure. exact Hfail.
    + unfold recordTypeBranch. cbn [recordTypeAnswer].
      unfold tryCatch, bind, fetch, noRecords. revert Hfail.
      destruct (recordTypeAnswer env) as [payload | status errorText | | ];
        cbn [failsWithoutAuth]; intros Hfail;
        [contradiction | reflexivity | reflexivity | reflexivity].
    + unfold soslBranch. cbn [soslAnswer].
      unfold tryCatch, bind, fetch, noRecords. revert Hfail.
      destruct (soslAnswer env) as [payload | status errorText | | ];
        cbn [failsWithoutAuth]; intros Hfail;
        [contradiction | reflexivity | reflexivity | reflexivity].
  - destruct b; try reflexivity.
    cbn [runBranch callFails] in *. unfold flowBranch.
    apply tryCatch_ext. apply bind_ext; [reflexivity | ]. intros result st1.
    apply bind_ext; [reflexivity | ]. intros flows st2.
    apply forEach_ext. intros batch st3. unfold flowBatch.
    apply bind_ext; [reflexivity | ]. intros started st4.
    apply forEach_ext. intros fl st5. apply tryCatch_ext.
    apply flowDocumentScan_failure. exact Hfail.
Qed.

(** When one call fails without a 401, the search is the search in which
    that call is answered with nothing. *)
Lemma searchCodeContent_withEmptyAnswer
    localeCompare env order instanceUrl accessToken searchTerm c :
  callFails env c ->
  searchCodeContent localeCompare env order instanceUrl accessToken searchTerm
  = searchCodeContent localeCompare (withEmptyAnswer c env) order instanceUrl accessToken
      searchTerm.
Proof.
  intros Hfail. unfold searchCodeContent.
  destruct (negb (Js.truthy instanceUrl) || negb (Js.truthy accessToken)
            || negb (Js.truthy searchTerm) || (String.length searchTerm <? 2)%nat);
    [reflexivity | ].
  match goal with
  | |- match ?x with _ => _ end = match ?y with _ => _ end =>
      assert (x = y) as ->; [ | reflexivity]
  end.
  apply tryCatch_ext. apply bind_ext; [ | reflexivity].
  apply allSettled_ext. intros b st. symmetry.
  apply runBranch_withEmptyAnswer. exact Hfail.
Qed.

(** ** How branches complete *)

Lemma total_ret {A} (a : A) : total (ret a).
Proof. intros st. exists a. reflexivity. Qed.

Lemma total_bind {A B} (m : Exec A) (k : A -> Exec B) :
  total m -> (forall a, total (k a)) -> total (bind m k).
Proof.
  intros Hm Hk st. unfold bind. destruct (Hm st) as [a Ha].
  destruct (m st) as [[e | a'] st']; cbn in Ha; [discriminate | ].
  apply Hk.
Qed.

Lemma total_tryCatch {A} (body : Exec A) (handler : Thrown -> Exec A) :
  (forall e, total (handler e)) -> total (tryCatch body handler).
Proof.
  intros Hh st. unfold tryCatch.
  destruct (body st) as [[e | a] st']; [apply Hh | exists a; reflexivity].
Qed.

Lemma total_test (searchTerm s : string) : total (test searchTerm s).
Proof.
  intros st. unfold test. destruct (regexExec searchTerm s (lastIndex st)) as [hit next].
  exists hit. reflexivity.
Qed.

Lemma total_andTest (cond : bool) (searchTerm s : string) :
  total (andTest cond searchTerm s).
Proof. unfold andTest. destruct cond; [apply total_test | apply total_ret]. Qed.

Lemma total_push (r : CodeSearchResult) : total (push r).
Proof. intros st. exists tt. reflexivity. Qed.

Lemma total_getResults : total getResults.
Proof. intros st. exists (results st). reflexivity. Qed.

Lemma total_forEach {A} (xs : list A) (body : A -> Exec unit) :
  (forall x, total (body x)) -> total (forEach xs body).
Proof.
  intros Hb. induction xs as [ | x rest IH]; cbn [forEach]; [apply total_ret | ].
  apply total_bind; [apply Hb | intros _; exact IH].
Qed.

Lemma total_mapExec {A B} (f : A -> Exec B) (xs : list A) :
  (forall x, total (f x)) -> total (mapExec f xs).
Proof.
  intros Hf. induction xs as [ | x rest IH]; cbn [mapExec]; [apply total_ret | ].
  apply total_bind; [apply Hf | intros y].
  apply total_bind; [exact IH | intros ys; apply total_ret].
Qed.

Lemma steady_ret {A} (a : A) : steady (ret a).
Proof. intros st st'. reflexivity. Qed.

Lemma steady_throw {A} (e : Thrown) : steady (@throw A e).
Proof. intros st st'. reflexivity. Qed.

Lemma steady_bind {A B} (m : Exec A) (k : A -> Exec B) :
  steady m -> (forall a, steady (k a)) -> steady (bind m k).
Proof.
  intros Hm Hk st st'. unfold bind. specialize (Hm st st').
  destruct (m st) as [[e | a] st1], (m st') as [[e' | a'] st1'];
    cbn in Hm; try discriminate.
  - cbn. injection Hm as <-. reflexivity.
  - injection Hm as <-. apply Hk.
Qed.

Lemma steady_tryCatch {A} (body : Exec A) (handler : Thrown -> Exec A) :
  steady body -> (forall e, steady (handler e)) -> steady (tryCatch body handler).
Proof.
  intros Hb Hh st st'. unfold tryCatch. specialize (Hb st st').
  destruct (body st) as [[e | a] st1], (body st') as [[e' | a'] st1'];
    cbn in Hb; try discriminate.
  - injection Hb as <-. apply Hh.
  - cbn. exact Hb.
Qed.

Lemma steady_total (m : Exec unit) : total m -> steady m.
Proof.
  intros Hm st st'. destruct (Hm st) as [[] ->]. destruct (Hm st') as [[] ->].
  reflexivity.
Qed.

Lemma steady_fetch {A} (req : Request) (answer : Fetched A) : steady (fetch req answer).
Proof. intros st st'. unfold fetch. destruct answer; reflexivity. Qed.

Lemma steady_recordsOf {A} (result : option (list A)) : steady (recordsOf result).
Proof. intros st st'. destruct result; reflexivity. Qed.

Lemma steady_branchCatch (e : Thrown) : steady (branchCatch e).
Proof. intros st st'. unfold branchCatch. destruct (isTokenExpired e); reflexivity. Qed.

Section BranchCompletion.

Variable env : Transport.
Variables cleanInstanceUrl accessToken searchTerm : string.

Lemma total_scanLines type lines rest i found :
  total (scanLines searchTerm type lines rest i found).
Proof.
  revert i found. induction rest as [ | ln rest' IH]; intros i found; cbn [scanLines].
  - apply total_ret.
  - destruct (List.length found <? maxMatches)%nat; [ | apply total_ret].
    apply total_bind; [apply total_test | intros hit; apply IH].
Qed.

Lemma total_searchInContent content fileName type name label id :
  total (searchInContent searchTerm content fileName type name label id).
Proof.
  unfold searchInContent.
  destruct (negb (Js.truthy content) || Nat.eqb (String.length content) 0);
    [apply total_ret | ].
  apply total_bind; [apply total_scanLines | intros found].
  destruct (0 <? List.length found)%nat; [apply total_push | apply total_ret].
Qed.

Lemma total_scanApexClass cls : total (scanApexClass searchTerm cls).
Proof.
  unfold scanApexClass. destruct (cls_Body cls) as [body | ]; [ | apply total_ret].
  apply total_bind; [apply total_andTest | intros hit].
  destruct hit; [apply total_searchInContent | apply total_ret].
Qed.

Lemma total_scanApexTrigger trigger : total (scanApexTrigger searchTerm trigger).
Proof.
  unfold scanApexTrigger. destruct (trg_Body trigger) as [body | ]; [ | apply total_ret].
  apply total_bind; [apply total_andTest | intros hit].
  destruct hit; [apply total_searchInContent | apply total_ret].
Qed.

Lemma total_flowBatch batch :
  total (flowBatch env cleanInstanceUrl accessToken searchTerm batch).
Proof.
  unfold flowBatch. apply total_bind.
  - apply total_mapExec. intros flow. apply total_bind; [ | intros locals; apply total_ret].
    apply total_tryCatch. intros e. apply total_ret.
  - intros started. apply total_forEach. intros fl.
    apply total_tryCatch. intros e. apply total_ret.
Qed.

Lemma total_fieldMatch field entry : total (fieldMatch searchTerm field entry).
Proof.
  unfold fieldMatch. destruct field as [text | ]; [ | apply total_ret].
  apply total_bind; [apply total_andTest | intros hit; apply total_ret].
Qed.

Lemma total_scanBundle kind bundle : total (scanBundle searchTerm kind bundle).
Proof.
  unfold scanBundle. apply total_bind; [apply total_test | intros hit].
  destruct hit; [ | apply total_ret].
  apply total_bind; [apply total_fieldMatch | intros m1].
  apply total_bind; [apply total_fieldMatch | intros m2].
  apply total_bind; [apply total_fieldMatch | intros m3].
  apply total_push.
Qed.

Lemma total_scanValidationRule rule : total (scanValidationRule searchTerm rule).
Proof.
  unfold scanValidationRule. apply total_bind; [apply total_test | intros hit].
  destruct hit; [ | apply total_ret].
  apply total_bind; [apply total_fieldMatch | intros m1].
  apply total_bind; [apply total_fieldMatch | intros m2].
  apply total_push.
Qed.

Lemma total_scanLayout layout : total (scanLayout searchTerm layout).
Proof.
  unfold scanLayout. apply total_bind; [apply total_andTest | intros hit].
  destruct hit; [apply total_push | apply total_ret].
Qed.

Lemma total_scanRecordType recordType : total (scanRecordType searchTerm recordType).
Proof.
  unfold scanRecordType. apply total_bind; [apply total_test | intros hit].
  destruct hit; [ | apply total_ret].
  apply total_bind; [apply total_fieldMatch | intros m1].
  apply total_bind; [apply total_fieldMatch | intros m2].
  apply total_push.
Qed.

Lemma total_addSearchRecord record : total (addSearchRecord searchTerm record).
Proof.
  unfold addSearchRecord. apply total_bind; [apply total_getResults | intros current].
  destruct (existsb _ current); [apply total_ret | ].
  destruct (isType (sr_type record) "ApexClass"); [apply total_push | ].
  destruct (isType (sr_type record) "ApexTrigger"); [apply total_push | apply total_ret].
Qed.

(** The completion of a tooling query is decided by the answer alone. *)
Lemma steady_toolingQuery {A} soql timeout (answer : Fetched (QueryJson A)) :
  steady (toolingQuery cleanInstanceUrl accessToken soql timeout answer).
Proof.
  intros st st'. unfold toolingQuery, tryCatch, bind, fetch.
  destruct answer as [[ | | records] | status errorText | | ]; try reflexivity.
  destruct (Nat.eqb status 401); [ | reflexivity].
  unfold throw. destruct (handleApiError status errorText); reflexivity.
Qed.

Lemma steady_runBranch b :
  steady (runBranch env cleanInstanceUrl accessToken searchTerm b).
Proof.
  destruct b; cbn [runBranch];
    unfold apexClassBranch, apexTriggerBranch, flowBranch, lwcBranch, auraBranch,
      bundleBranch, validationRuleBranch, layoutBranch, recordTypeBranch, soslBranch;
    (apply steady_tryCatch; [ | apply steady_branchCatch]).
  - apply steady_bind; [apply steady_toolingQuery | intros result].
    apply steady_bind; [apply steady_recordsOf | intros records].
    apply steady_total, total_forEach, total_scanApexClass.
  - apply steady_bind; [apply steady_toolingQuery | intros result].
    apply steady_bind; [apply steady_recordsOf | intros records].
    apply steady_total, total_forEach, total_scanApexTrigger.
  - apply steady_bind; [apply steady_toolingQuery | intros result].
    apply steady_bind; [apply steady_recordsOf | intros records].
    apply steady_total, total_forEach, total_flowBatch.
  - apply steady_bind; [apply steady_toolingQuery | intros result].
    apply steady_bind; [apply steady_recordsOf | intros records].
    apply steady_total, total_forEach, total_scanBundle.
  - apply steady_bind; [apply steady_toolingQuery | intros result].
    apply steady_bind; [apply steady_recordsOf | intros records].
    apply steady_total, total_forEach, total_scanBundle.
  - apply steady_bind; [apply steady_toolingQuery | intros result].
    apply steady_bind; [apply steady_recordsOf | intros records].
    apply steady_total, total_forEach, total_scanValidationRule.
  - apply steady_bind; [apply steady_toolingQuery | intros result].
    apply steady_bind; [apply steady_recordsOf | intros records].
    apply steady_total, total_forEach, total_scanLayout.
  - apply steady_bind; [apply steady_fetch | intros response].
    destruct response as [[ | | records] | status errorText];
      try apply steady_throw; try apply steady_ret.
    apply steady_total, total_forEach, total_scanRecordType.
  - apply steady_bind; [apply steady_fetch | intros response].
    destruct response as [[ | | records] | status errorText];
      try apply steady_throw; try apply steady_ret.
    apply steady_total, total_forEach, total_addSearchRecord.
Qed.

End BranchCompletion.

(** ** What [searchCodeContent] returns, exactly *)

Lemma Branch_eqb_eq (a b : Branch) : Branch_eqb a b = true <-> a = b.
Proof. destruct a, b; cbn; split; intros H; try reflexivity; discriminate H. Qed.

Lemma firstOccurrences_complete (seen l : list Branch) (b : Branch) :
  In b l -> existsb (Branch_eqb b) seen = false -> In b (firstOccurrences seen l).
Proof.
  revert seen. induction l as [ | x rest IH]; intros seen Hin Hseen; [contradiction | ].
  cbn [firstOccurrences].
  destruct (existsb (Branch_eqb x) seen) eqn:Ex.
  - destruct Hin as [-> | Hin]; [rewrite Hseen in Ex; discriminate Ex | ].
    apply IH; assumption.
  - destruct Hin as [-> | Hin]; [left; reflexivity | ].
    destruct (Branch_eqb b x) eqn:Ebx.
    + apply Branch_eqb_eq in Ebx. left. symmetry. exact Ebx.
    + right. apply IH; [exact Hin | ]. cbn. rewrite Ebx. exact Hseen.
Qed.

(** Every branch is resumed, whatever the order asked for. *)
Lemma settleOrder_complete (order : list Branch) (b : Branch) : In b (settleOrder order).
Proof.
  unfold settleOrder. apply firstOccurrences_complete; [ | reflexivity].
  apply in_or_app. right. destruct b; cbn; tauto.
Qed.

Lemma allSettled_outcomes env cleanInstanceUrl accessToken searchTerm order st :
  fst (allSettled (runBranch env cleanInstanceUrl accessToken searchTerm) order st)
  = inr (map (fun b => (b, completion env cleanInstanceUrl accessToken searchTerm b)) order).
Proof.
  revert st. induction order as [ | b rest IH]; intros st; cbn [allSettled map].
  - reflexivity.
  - unfold bind at 1, settle. unfold completion at 1.
    rewrite <- (steady_runBranch env cleanInstanceUrl accessToken searchTerm b st
                  initialShared).
    destruct (runBranch env cleanInstanceUrl accessToken searchTerm b st)
      as [[e | v] st1]; cbn [fst]; unfold bind;
      specialize (IH st1);
      destruct (allSettled _ rest st1) as [[e' | others] st2]; cbn in IH;
      try discriminate; injection IH as ->; reflexivity.
Qed.

Lemma outcomeOf_map (f : Branch -> Settled unit) (order : list Branch) (b : Branch) :
  In b order -> outcomeOf b (map (fun b' => (b', f b')) order) = Some (f b).
Proof.
  induction order as [ | x rest IH]; intros Hin; [contradiction | ].
  cbn [map outcomeOf]. destruct (Branch_eqb b x) eqn:E.
  - apply Branch_eqb_eq in E. subst x. reflexivity.
  - destruct Hin as [-> | Hin]; [ | apply IH; exact Hin].
    assert (Branch_eqb b b = true) as Hb by (apply Branch_eqb_eq; reflexivity).
    rewrite Hb in E. discriminate E.
Qed.

Lemma rethrow_completion (f : Branch -> Settled unit) (settled : list (Branch * Settled unit))
    (bs : list Branch) (st : Shared) :
  (forall b, In b bs -> outcomeOf b settled = Some (f b)) ->
  (existsb (fun b => match f b with
                     | Rejected reason => isTokenExpired reason
                     | Fulfilled _ => false
                     end) bs = false
   /\ fst (forEach bs (fun b =>
             match outcomeOf b settled with
             | Some (Rejected reason) =>
                 if isTokenExpired reason then throw reason else ret tt
             | _ => ret tt
             end) st) = inr tt)
  \/ (existsb (fun b => match f b with
                        | Rejected reason => isTokenExpired reason
                        | Fulfilled _ => false
                        end) bs = true
      /\ exists e,
           fst (forEach bs (fun b =>
                  match outcomeOf b settled with
                  | Some (Rejected reason) =>
                      if isTokenExpired reason then throw reason else ret tt
                  | _ => ret tt
                  end) st) = inl e).
Proof.
  induction bs as [ | b rest IH]; intros Hout; cbn [forEach existsb].
  - left. split; reflexivity.
  - rewrite (Hout b (or_introl eq_refl)). unfold bind.
    assert (forall b', In b' rest -> outcomeOf b' settled = Some (f b')) as Hrest
      by (intros b' Hb'; apply Hout; right; exact Hb').
    specialize (IH Hrest).
    destruct (f b) as [v | reason]; cbn [orb].
    + unfold ret at 1. exact IH.
    + destruct (isTokenExpired reason); cbn [orb].
      * right. split; [reflexivity | ]. exists reason. reflexivity.
      * unfold ret at 1. exact IH.
Qed.

Lemma searchCodeContent_returned_exact
    localeCompare env order instanceUrl accessToken searchTerm :
  returned (searchCodeContent localeCompare env order instanceUrl accessToken searchTerm)
  = if invalidParameters instanceUrl accessToken searchTerm
       || sessionExpired env (stripTrailingSlash instanceUrl) accessToken searchTerm
    then Fulfilled []
    else Fulfilled (rank localeCompare
                      (collected env order instanceUrl accessToken searchTerm)).
Proof.
  unfold searchCodeContent, collected, settledState.
  fold (invalidParameters instanceUrl accessToken searchTerm).
  destruct (invalidParameters instanceUrl accessToken searchTerm); [reflexivity | ].
  cbn [orb]. unfold tryCatch, bind.
  pose proof (allSettled_outcomes env (stripTrailingSlash instanceUrl) accessToken
                searchTerm (settleOrder order) initialShared) as Hout.
  destruct (allSettled _ (settleOrder order) initialShared) as [[e | outcomes] st].
  - cbn in Hout. discriminate Hout.
  - cbn in Hout. injection Hout as ->. cbn [snd].
    pose proof (rethrowTokenExpired_state
                  (map (fun b => (b, completion env (stripTrailingSlash instanceUrl)
                                       accessToken searchTerm b)) (settleOrder order)) st)
      as Hst.
    destruct (rethrow_completion
                (completion env (stripTrailingSlash instanceUrl) accessToken searchTerm)
                (map (fun b => (b, completion env (stripTrailingSlash instanceUrl)
                                     accessToken searchTerm b)) (settleOrder order))
                searchPromises st) as [[Hquiet Hfst] | [Hexp [e Hfst]]].
    + intros b _. apply outcomeOf_map. apply settleOrder_complete.
    + fold (rethrowTokenExpired
              (map (fun b => (b, completion env (stripTrailingSlash instanceUrl)
                                   accessToken searchTerm b)) (settleOrder order))) in Hfst.
      unfold sessionExpired. rewrite Hquiet.
      destruct (rethrowTokenExpired _ st) as [[e | u] st']; cbn in Hfst, Hst;
        [discriminate Hfst | ]. subst st'. reflexivity.
    + fold (rethrowTokenExpired
              (map (fun b => (b, completion env (stripTrailingSlash instanceUrl)
                                   accessToken searchTerm b)) (settleOrder order))) in Hfst.
      unfold sessionExpired. rewrite Hexp.
      destruct (rethrowTokenExpired _ st) as [[e' | u] st']; cbn in Hfst;
        [reflexivity | discriminate Hfst].
Qed.

(** ** Failed calls and unanswered requests *)

(** *** The [results] array only grows *)

Lemma grows_refl (st : Shared) : grows st st.
Proof. exists []. rewrite app_nil_r. reflexivity. Qed.

Lemma grows_trans (a b c : Shared) : grows a b -> grows b c -> grows a c.
Proof.
  intros [x Hx] [y Hy]. exists (x ++ y)%list. rewrite Hy, Hx, app_assoc. reflexivity.
Qed.

Lemma grows_test searchTerm s : moves grows (test searchTerm s) (fun _ => True).
Proof.
  intros st. unfold test. destruct (regexExec searchTerm s (lastIndex st)).
  split; [exists []; cbn; rewrite app_nil_r; reflexivity | trivial].
Qed.

Lemma grows_fetch A (req : Request) (answer : Fetched A) :
  moves grows (fetch req answer) (fun _ => True).
Proof.
  intros st. unfold fetch.
  destruct answer; (split; [exists []; cbn; rewrite app_nil_r; reflexivity | trivial]).
Qed.

Lemma grows_push (r : CodeSearchResult) : moves grows (push r) (fun _ => True).
Proof. intros st. split; [exists [r]; reflexivity | trivial]. Qed.

Ltac grow_ret := apply (moves_ret grows grows_refl); exact I.
Ltac grow_bind := eapply (moves_bind grows grows_trans).
Ltac grow_test :=
  first [ apply grows_test | apply (moves_andTest grows grows_refl grows_test) ].
Ltac grow_query :=
  grow_bind;
  [ apply (moves_toolingQuery grows grows_refl grows_trans grows_fetch)
  | intros ? _;
    grow_bind; [ apply (moves_recordsOf grows grows_refl) | intros ? _ ] ].
Ltac grow_branch :=
  apply (moves_tryCatch grows grows_trans);
  [ | apply (moves_branchCatch grows grows_refl) ].
Ltac grow_forEach := apply (moves_forEach grows grows_refl grows_trans).
Ltac grow_field :=
  grow_bind;
  [ apply (moves_fieldMatch grows grows_refl grows_trans grows_test) | intros ? _ ].

Section BranchGrowth.

Variable env : Transport.
Variables cleanInstanceUrl accessToken searchTerm : string.

Lemma grows_scanLines type lines rest i found :
  moves grows (scanLines searchTerm type lines rest i found) (fun _ => True).
Proof.
  revert i found. induction rest as [ | ln rest' IH]; intros i found; cbn [scanLines].
  - grow_ret.
  - destruct (List.length found <? maxMatches)%nat; [ | grow_ret].
    grow_bind; [grow_test | ]. intros hit _. apply IH.
Qed.

Lemma grows_searchInContent content fileName type name label id :
  moves grows (searchInContent searchTerm content fileName type name label id)
    (fun _ => True).
Proof.
  unfold searchInContent.
  destruct (negb (Js.truthy content) || Nat.eqb (String.length content) 0); [grow_ret | ].
  grow_bind; [apply grows_scanLines | ]. intros found _.
  destruct (0 <? List.length found)%nat; [apply grows_push | grow_ret].
Qed.

Lemma grows_apexClassBranch :
  moves grows (apexClassBranch env cleanInstanceUrl accessToken searchTerm) (fun _ => True).
Proof.
  unfold apexClassBranch. grow_branch. grow_query.
  grow_forEach. intros cls _. unfold scanApexClass.
  destruct (cls_Body cls) as [body | ]; [ | grow_ret].
  grow_bind; [grow_test | ]. intros hit _.
  destruct hit; [apply grows_searchInContent | grow_ret].
Qed.

Lemma grows_apexTriggerBranch :
  moves grows (apexTriggerBranch env cleanInstanceUrl accessToken searchTerm)
    (fun _ => True).
Proof.
  unfold apexTriggerBranch. grow_branch. grow_query.
  grow_forEach. intros trigger _. unfold scanApexTrigger.
  destruct (trg_Body trigger) as [body | ]; [ | grow_ret].
  grow_bind; [grow_test | ]. intros hit _.
  destruct hit; [apply grows_searchInContent | grow_ret].
Qed.

Lemma grows_scanXmlLines xmlLines rest lineIndex xmlMatchCount locals :
  moves grows (scanXmlLines searchTerm xmlLines rest lineIndex xmlMatchCount locals)
    (fun _ => True).
Proof.
  revert lineIndex xmlMatchCount locals.
  induction rest as [ | ln rest' IH]; intros lineIndex xmlMatchCount locals;
    cbn [scanXmlLines].
  - grow_ret.
  - destruct (xmlMatchCount <? maxXmlMatches)%nat; [ | grow_ret].
    grow_bind; [grow_test | ]. intros hit _. destruct hit; apply IH.
Qed.

Lemma grows_flowDocumentScan flow locals :
  moves grows (flowDocumentScan env cleanInstanceUrl accessToken searchTerm flow locals)
    (fun _ => True).
Proof.
  unfold flowDocumentScan. grow_bind.
  - apply (moves_tryCatch grows grows_trans _ _ (fun _ => True)); [ | intros e; grow_ret].
    grow_bind; [apply grows_fetch | ]. intros xmlResponse _.
    destruct xmlResponse as [xmlContent | status errorText]; [ | grow_ret].
    grow_bind; [grow_test | ]. intros hit _.
    destruct hit; [apply grows_scanXmlLines | grow_ret].
  - intros locals' _.
    destruct (0 <? List.length (flowMatches locals'))%nat; [apply grows_push | grow_ret].
Qed.

Lemma grows_flowBranch :
  moves grows (flowBranch env cleanInstanceUrl accessToken searchTerm) (fun _ => True).
Proof.
  unfold flowBranch. grow_branch. grow_query.
  grow_forEach. intros batch _. unfold flowBatch. grow_bind.
  - apply (moves_mapExec grows grows_refl grows_trans _ (fun _ => True)).
    intros flow. grow_bind.
    + apply (moves_tryCatch grows grows_trans _ _ (fun _ => True)); [ | intros e; grow_ret].
      unfold flowNameMatch. destruct (flow_MasterLabel flow) as [masterLabel | ];
        [ | grow_ret].
      grow_bind; [grow_test | ]. intros hit _. destruct hit; grow_ret.
    + intros locals _. grow_ret.
  - intros started _. grow_forEach. intros fl _.
    apply (moves_tryCatch grows grows_trans); [ | intros e; grow_ret].
    apply grows_flowDocumentScan.
Qed.

Lemma grows_bundleBranch kind answer :
  moves grows (bundleBranch cleanInstanceUrl accessToken searchTerm kind answer)
    (fun _ => True).
Proof.
  unfold bundleBranch. grow_branch. grow_query.
  grow_forEach. intros bundle _. unfold scanBundle.
  grow_bind; [grow_test | ]. intros hit _.
  destruct hit; [ | grow_ret].
  grow_field. grow_field. grow_field. apply grows_push.
Qed.

Lemma grows_validationRuleBranch :
  moves grows (validationRuleBranch env cleanInstanceUrl accessToken searchTerm)
    (fun _ => True).
Proof.
  unfold validationRuleBranch. grow_branch. grow_query.
  grow_forEach. intros rule _. unfold scanValidationRule.
  grow_bind; [grow_test | ]. intros hit _.
  destruct hit; [ | grow_ret].
  grow_field. grow_field. apply grows_push.
Qed.

Lemma grows_layoutBranch :
  moves grows (layoutBranch env cleanInstanceUrl accessToken searchTerm) (fun _ => True).
Proof.
  unfold layoutBranch. grow_branch. grow_query.
  grow_forEach. intros layout _. unfold scanLayout.
  grow_bind; [grow_test | ]. intros hit _.
  destruct hit; [apply grows_push | grow_ret].
Qed.

Lemma grows_recordTypeBranch :
  moves grows (recordTypeBranch env cleanInstanceUrl accessToken searchTerm)
    (fun _ => True).
Proof.
  unfold recordTypeBranch. grow_branch.
  grow_bind; [apply grows_fetch | ]. intros response _.
  destruct response as [[ | | recordTypes] | status errorText];
    try (apply (moves_throw grows grows_refl)); try grow_ret.
  grow_forEach. intros recordType _. unfold scanRecordType.
  grow_bind; [grow_test | ]. intros hit _.
  destruct hit; [ | grow_ret].
  grow_field. grow_field. apply grows_push.
Qed.

Lemma grows_soslBranch :
  moves grows (soslBranch env cleanInstanceUrl accessToken searchTerm) (fun _ => True).
Proof.
  unfold soslBranch. grow_branch.
  grow_bind; [apply grows_fetch | ]. intros response _.
  destruct response as [[ | | searchRecords] | status errorText];
    try (apply (moves_throw grows grows_refl)); try grow_ret.
  grow_forEach. intros record _. unfold addSearchRecord.
  grow_bind; [apply (moves_getResults grows grows_refl) | ]. intros current _.
  destruct (existsb _ current); [grow_ret | ].
  destruct (isType (sr_type record) "ApexClass"); [apply grows_push | ].
  destruct (isType (sr_type record) "ApexTrigger"); [apply grows_push | grow_ret].
Qed.

Lemma grows_runBranch b :
  moves grows (runBranch env cleanInstanceUrl accessToken searchTerm b) (fun _ => True).
Proof.
  destruct b; cbn [runBranch]; unfold lwcBranch, auraBranch.
  - apply grows_apexClassBranch.
  - apply grows_apexTriggerBranch.
  - apply grows_flowBranch.
  - apply grows_bundleBranch.
  - apply grows_bundleBranch.
  - apply grows_validationRuleBranch.
  - apply grows_layoutBranch.
  - apply grows_recordTypeBranch.
  - apply grows_soslBranch.
Qed.

Lemma grows_allSettled order :
  moves grows (allSettled (runBranch env cleanInstanceUrl accessToken searchTerm) order)
    (fun _ => True).
Proof.
  induction order as [ | b rest IH]; cbn [allSettled].
  - grow_ret.
  - grow_bind; [apply (moves_settle grows), grows_runBranch | ].
    intros s _. grow_bind; [apply IH | ]. intros others _. grow_ret.
Qed.

End BranchGrowth.

Lemma allSettled_app (run : Branch -> Exec unit) (before after : list Branch) (st : Shared) :
  snd (allSettled run (before ++ after) st)
  = snd (allSettled run after (snd (allSettled run before st))).
Proof.
  revert st. induction before as [ | b rest IH]; intros st.
  - reflexivity.
  - rewrite <- app_comm_cons. cbn [allSettled]. unfold bind, settle, ret.
    destruct (run b st) as [[e | v] st1]; cbn [fst snd]; specialize (IH st1);
      destruct (allSettled run (rest ++ after) st1) as [[e1 | o1] s1];
      destruct (allSettled run rest st1) as [[e2 | o2] s2]; cbn in *; exact IH.
Qed.

Lemma allSettled_one (run : Branch -> Exec unit) (b : Branch) (after : list Branch)
    (st : Shared) :
  snd (allSettled run (b :: after) st) = snd (allSettled run after (snd (run b st))).
Proof.
  cbn [allSettled]. unfold bind, settle, ret.
  destruct (run b st) as [[e | v] st1]; cbn [fst snd];
    destruct (allSettled run after st1) as [[e1 | o1] s1]; reflexivity.
Qed.

(** What a branch pushes is still there when every branch has settled. *)
Lemma pushed_is_collected env order instanceUrl accessToken searchTerm before b after :
  settleOrder order = (before ++ b :: after)%list ->
  let run := runBranch env (stripTrailingSlash instanceUrl) accessToken searchTerm in
  exists pushed,
    results (snd (run b (settledAfter run before)))
    = (results (settledAfter run before) ++ pushed)%list
    /\ incl pushed (collected env order instanceUrl accessToken searchTerm).
Proof.
  intros Hsplit run. unfold collected, settledState. fold run. rewrite Hsplit.
  rewrite allSettled_app, allSettled_one. fold (settledAfter run before).
  destruct (grows_runBranch env (stripTrailingSlash instanceUrl) accessToken searchTerm b
              (settledAfter run before)) as [[pushed Hpushed] _].
  fold run in Hpushed.
  destruct (grows_allSettled env (stripTrailingSlash instanceUrl) accessToken searchTerm
              after (snd (run b (settledAfter run before)))) as [[more Hmore] _].
  fold run in Hmore.
  exists pushed. split; [exact Hpushed | ].
  rewrite Hmore, Hpushed. intros r Hr.
  apply in_or_app. left. apply in_or_app. right. exact Hr.
Qed.

(** A branch whose call fails without a 401 pushes nothing. *)
Lemma failed_branch_pushes_nothing env cleanInstanceUrl accessToken searchTerm b st :
  callFails env (BranchCall b) ->
  results (snd (runBranch env cleanInstanceUrl accessToken searchTerm b st)) = results st.
Proof.
  intros Hfail.
  rewrite <- (runBranch_withEmptyAnswer env (BranchCall b) cleanInstanceUrl accessToken
                searchTerm b st Hfail).
  destruct b; reflexivity.
Qed.

(** Every key collected is a key of the ranked list, as long as the cut at
    fifty entries removes nothing. *)
Lemma rank_keeps_keys localeCompare (found : list CodeSearchResult) (r : CodeSearchResult) :
  List.length (uniqueResults found) <= 50 ->
  In r found ->
  exists r', In r' (rank localeCompare found) /\ resultKey r' = resultKey r.
Proof.
  intros Hshort Hin.
  pose proof (uniqueResults_find (resultKey r) found) as Hfind.
  assert (In r (filter (keyIs (resultKey r)) found)) as Hgroup.
  { apply filter_In. split; [exact Hin | ]. unfold keyIs. apply String.eqb_refl. }
  destruct (filter (keyIs (resultKey r)) found) as [ | e rest]; [contradiction | ].
  cbn [mergeAll] in Hfind. apply find_some in Hfind as [Hmerged Hkey].
  exists (fold_left mergeEntry rest e). split.
  - unfold rank. rewrite firstn_all2.
    + apply (Permutation_in _ (Permutation_sym (sort_perm _ _))). exact Hmerged.
    + rewrite (Permutation_length (sort_perm _ _)). exact Hshort.
  - unfold keyIs in Hkey. apply String.eqb_eq in Hkey. exact Hkey.
Qed.

Lemma fails_callFails (p : Platform) (c : RemoteCall) : fails p c -> callFails (inTime p) c.
Proof.
  destruct c as [b | flowId]; [destruct b | ]; cbn [fails callFails inTime apexClassAnswer
    apexTriggerAnswer flowAnswer flowDocument lwcAnswer auraAnswer validationRuleAnswer
    layoutAnswer recordTypeAnswer soslAnswer];
    match goal with
    | |- _ ?r -> failsWithoutAuth (ended _ ?r) => destruct r; cbn; tauto
    end.
Qed.




(** Whatever the arguments that pass the validation, a search one of whose
    [await]s never ends stays pending: so it is when the record-type query,
    the SOSL search or the document of a flow the flow query answered with
    gets no response. *)
Lemma unanswered_request_leaves_search_pending
    localeCompare p order instanceUrl accessToken searchTerm :
  invalidParameters instanceUrl accessToken searchTerm = false ->
  recordTypeReply p = Silent \/ soslReply p = Silent
  \/ (exists flow, In flow (flowsAsked p) /\ flowDocumentReply p (flow_Id flow) = Silent) ->
  searchCodeContentOn localeCompare p order instanceUrl accessToken searchTerm = Pending.
Proof.
  intros Hvalid Hsilent. unfold searchCodeContentOn.
  fold (invalidParameters instanceUrl accessToken searchTerm). rewrite Hvalid.
  assert (staysPending p = true) as ->; [ | reflexivity].
  unfold staysPending. destruct Hsilent as [H | [H | [flow [Hin H]]]].
  - rewrite H. cbn [plainFetchHangs]. rewrite !orb_true_r. reflexivity.
  - rewrite H. cbn [plainFetchHangs]. rewrite !orb_true_r. reflexivity.
  - assert (existsb (fun flow => flowDocumentHangs (flowDocumentReply p (flow_Id flow)))
              (flowsAsked p) = true) as ->.
    { apply existsb_exists. exists flow. split; [exact Hin | ]. rewrite H. reflexivity. }
    rewrite !orb_true_r. reflexivity.
Qed.

(** On no platform is a request that carries no signal aborted. *)
Lemma inTime_aborts_tooling_queries_only (p : Platform) :
  recordTypeAnswer (inTime p) <> Aborted
  /\ soslAnswer (inTime p) <> Aborted
  /\ forall flowId, flowDocument (inTime p) flowId <> Aborted.
Proof.
  cbn [inTime recordTypeAnswer soslAnswer flowDocument].
  split; [ | split; [ | intros flowId]];
    match goal with |- ended false ?r <> _ => destruct r; discriminate end.
Qed.

(** ** Expired sessions *)

(** Whenever a branch is rejected with a [TokenExpiredError], the promise
    returned by [searchCodeContent] is fulfilled with the empty list: the
    [catch] clause that closes the function turns the re-thrown error into
    [return []]. *)
Lemma token_expiry_never_reaches_caller
    localeCompare env order instanceUrl accessToken searchTerm :
  sessionExpired env (stripTrailingSlash instanceUrl) accessToken searchTerm = true ->
  returned (searchCodeContent localeCompare env order instanceUrl accessToken searchTerm)
  = Fulfilled [].
Proof.
  intros H. rewrite searchCodeContent_returned_exact, H, orb_true_r. reflexivity.
Qed.

Lemma searchCodeContent_never_rejects
    localeCompare env order instanceUrl accessToken searchTerm reason :
  returned (searchCodeContent localeCompare env order instanceUrl accessToken searchTerm)
  <> Rejected reason.
Proof.
  rewrite searchCodeContent_returned_exact.
  destruct (_ || _); discriminate.
Qed.

(** C1 (not met by the code). The class query of [expiredOrg] is answered
    with status 401 and the error code INVALID_SESSION_ID. The class branch
    is rejected with a [TokenExpiredError], and yet the promise of
    [searchCodeContent] is fulfilled with the empty list instead of being
    rejected with that error. *)
Theorem C1_token_expiry_is_swallowed :
  apexClassAnswer expiredOrg = Failed 401 invalidSession
  /\ completion expiredOrg (stripTrailingSlash sampleUrl) sampleToken "Account" ApexClasses
     = Rejected (TokenExpiredError "Session expired or invalid")
  /\ returned (searchCodeContent ordinalCompare expiredOrg [] sampleUrl sampleToken "Account")
     = Fulfilled [].
Proof.
  split; [reflexivity | ]. split; [vm_compute; reflexivity | ].
  apply token_expiry_never_reaches_caller. vm_compute. reflexivity.
Qed.

(** ** The content scanner *)

Lemma scanned_snoc (i : nat) (found : list Match) (entry : Match) :
  scanned i found -> List.length found < maxMatches -> line entry = i + 1 ->
  scanned (S i) (found ++ [entry]).
Proof.
  intros [Hlen [Hsorted Hle]] Hroom Hline. split; [ | split].
  - rewrite length_app. cbn. lia.
  - rewrite map_app. cbn [map]. clear Hlen Hroom.
    induction found as [ | m rest IH]; cbn.
    + constructor; constructor.
    + inversion Hsorted as [ | ? ? Hs Hm]; subst. inversion Hle as [ | ? ? Hmi Hrest]; subst.
      constructor; [apply IH; assumption | ].
      apply Forall_app. split; [exact Hm | ]. constructor; [lia | constructor].
  - apply Forall_app. split.
    + rewrite Forall_forall in *. intros m Hm. specialize (Hle m Hm). lia.
    + constructor; [lia | constructor].
Qed.

Lemma scanned_next (i : nat) (found : list Match) : scanned i found -> scanned (S i) found.
Proof.
  intros [Hlen [Hsorted Hle]]. split; [exact Hlen | split; [exact Hsorted | ]].
  rewrite Forall_forall in *. intros m Hm. specialize (Hle m Hm). lia.
Qed.

Lemma scanLines_bounded_ascending searchTerm type lines rest i found st :
  scanned i found ->
  exists found' i',
    fst (scanLines searchTerm type lines rest i found st) = inr found'
    /\ scanned i' found'.
Proof.
  revert i found st. induction rest as [ | ln rest' IH]; intros i found st Hfound;
    cbn [scanLines].
  - exists found, i. split; [reflexivity | exact Hfound].
  - destruct (List.length found <? maxMatches)%nat eqn:Eroom.
    + apply Nat.ltb_lt in Eroom. unfold bind, test.
      destruct (regexExec searchTerm ln (lastIndex st)) as [hit next].
      destruct hit.
      * apply IH. apply scanned_snoc; [exact Hfound | exact Eroom | reflexivity].
      * apply IH. apply scanned_next. exact Hfound.
    + exists found, i. split; [reflexivity | exact Hfound].
Qed.

(** A body that is empty or made of white space only is not scanned: nothing
    is pushed, nothing is thrown, and the shared state is left as it was. *)
Lemma scanApexClass_blank_body searchTerm recordId className body st :
  Js.trim body = EmptyString ->
  scanApexClass searchTerm (mkApexClass recordId className (Some body)) st = (inr tt, st).
Proof.
  intros Hblank. unfold scanApexClass. cbn [cls_Body].
  rewrite Hblank. cbn [Js.truthy]. rewrite andb_false_r. reflexivity.
Qed.

(** C5 (not met by the code). The body of [ledgerClass] holds the term on
    lines 2 and 3, so two match records are due; the scanner produces one,
    for line 2. The test of line 2 leaves [lastIndex] after its match, the
    test of line 3 starts there, behind the occurrence, and fails. *)
Theorem C5_scanner_misses_a_matching_line :
  matchingLines "Account" ledgerBody = [2; 3]
  /\ map (fun r => map line (matches r))
       (results (snd (scanApexClass "Account" ledgerClass initialShared)))
     = [[2]]
  /\ exists r,
       returned (searchCodeContent ordinalCompare ledgerOrg [] sampleUrl sampleToken
                   "Account") = Fulfilled [r]
       /\ map line (matches r) = [2]
       /\ List.length (matches r)
          <> Nat.min (List.length (matchingLines "Account" ledgerBody)) maxMatches.
Proof.
  split; [vm_compute; reflexivity | ]. split; [vm_compute; reflexivity | ].
  eexists. split; [vm_compute; reflexivity | ].
  split; [reflexivity | ]. vm_compute. discriminate.
Qed.

(** ** Entries without matches *)

(** C9 (not met by the code). The web component of [tileOrg] holds the term
    in its developer name only. The test of the joined fields succeeds and
    leaves [lastIndex] after the match; the test of the name then starts
    behind the occurrence and fails, the label does not hold the term, and
    the component is pushed with an empty match list. *)
Theorem C9_component_pushed_without_matches :
  exists r,
    returned (searchCodeContent ordinalCompare tileOrg [] sampleUrl sampleToken
                "Account") = Fulfilled [r]
    /\ name r = "accountTile"
    /\ matches r = []
    /\ totalMatches r = 0.
Proof.
  eexists. split; [vm_compute; reflexivity | ].
  split; [reflexivity | ]. split; reflexivity.
Qed.

(** ** Settle order *)

Lemma uniqueResults_distinct_from (l acc : list CodeSearchResult) :
  NoDup (map resultKey (acc ++ l)) -> fold_left mergeStep l acc = (acc ++ l)%list.
Proof.
  revert acc. induction l as [ | c rest IH]; intros acc Hnd; cbn [fold_left].
  - rewrite app_nil_r. reflexivity.
  - assert (mergeStep acc c = (acc ++ [c])%list) as ->.
    { unfold mergeStep. fold (keyIs (resultKey c)).
      destruct (findIndex (keyIs (resultKey c)) acc) as [i | ] eqn:Ei; [ | reflexivity].
      exfalso. destruct (findIndex_some _ _ _ Ei) as [existing [_ Hfind]].
      apply find_some in Hfind as [Hin Hkey]. unfold keyIs in Hkey.
      apply String.eqb_eq in Hkey.
      rewrite map_app in Hnd. cbn [map] in Hnd.
      apply NoDup_remove_2 in Hnd. apply Hnd. apply in_or_app. left.
      rewrite <- Hkey. apply in_map. exact Hin. }
    rewrite IH; rewrite <- app_assoc; [reflexivity | exact Hnd].
Qed.

(** Without colliding keys the outer [reduce] changes nothing. *)
Lemma uniqueResults_distinct (l : list CodeSearchResult) :
  NoDup (map resultKey l) -> uniqueResults l = l.
Proof. intros H. unfold uniqueResults. rewrite uniqueResults_distinct_from; trivial. Qed.

Lemma sorted_permutation_unique {A} (R : A -> A -> Prop) (l1 l2 : list A) :
  StronglySorted R l1 -> StronglySorted R l2 -> Permutation l1 l2 ->
  (forall a b, In a l1 -> In b l1 -> R a b -> R b a -> a = b) ->
  l1 = l2.
Proof.
  revert l2. induction l1 as [ | x r1 IH]; intros l2 H1 H2 Hperm Hanti.
  - apply Permutation_nil in Hperm. symmetry. exact Hperm.
  - destruct l2 as [ | y r2]; [apply Permutation_sym, Permutation_nil in Hperm; discriminate | ].
    inversion H1 as [ | ? ? Hs1 Hx]; subst. inversion H2 as [ | ? ? Hs2 Hy]; subst.
    rewrite Forall_forall in Hx, Hy.
    assert (x = y) as <-.
    { assert (In x (y :: r2)) as Hxin by (apply (Permutation_in _ Hperm); left; reflexivity).
      assert (In y (x :: r1)) as Hyin
        by (apply (Permutation_in _ (Permutation_sym Hperm)); left; reflexivity).
      destruct Hxin as [-> | Hxin]; [reflexivity | ].
      destruct Hyin as [<- | Hyin]; [reflexivity | ].
      apply Hanti; [left; reflexivity | right; exact Hyin | apply Hx, Hyin | apply Hy, Hxin]. }
    f_equal. apply IH; [exact Hs1 | exact Hs2 | | ].
    + apply Permutation_cons_inv in Hperm. exact Hperm.
    + intros a b Ha Hb. apply Hanti; right; assumption.
Qed.

Lemma identity_keys_NoDup (l : list CodeSearchResult) :
  Forall wellFormed l -> NoDup (map identity l) -> NoDup (map resultKey l).
Proof.
  induction l as [ | x rest IH]; intros Hwf Hnd; cbn [map]; [constructor | ].
  inversion Hwf as [ | ? ? Hx Hrest]; subst.
  cbn [map] in Hnd. inversion Hnd as [ | ? ? Hnotin Hnd']; subst.
  constructor; [ | apply IH; assumption].
  intros Hin. apply in_map_iff in Hin as [y [Hy Hin]].
  apply Hnotin. rewrite Forall_forall in Hrest.
  apply resultKey_faithful in Hy; [ | apply Hrest, Hin | apply Hx].
  rewrite <- Hy. apply in_map. exact Hin.
Qed.

(** C8, amended. Two runs over the same answers that collect the same
    entries, in whatever order the branches settled, return the same list,
    provided that no two collected entries share an identity and no two of
    them tie on both [totalMatches] and name. *)
Theorem C8_settle_order_irrelevant_without_collisions_and_ties
    localeCompare env order1 order2 instanceUrl accessToken searchTerm :
  Consistent localeCompare ->
  Permutation (collected env order1 instanceUrl accessToken searchTerm)
              (collected env order2 instanceUrl accessToken searchTerm) ->
  NoDup (map identity (collected env order1 instanceUrl accessToken searchTerm)) ->
  (forall a b,
     In a (collected env order1 instanceUrl accessToken searchTerm) ->
     In b (collected env order1 instanceUrl accessToken searchTerm) ->
     totalMatches a = totalMatches b ->
     localeCompare (name a) (name b) = 0%Z -> a = b) ->
  returned (searchCodeContent localeCompare env order1 instanceUrl accessToken searchTerm)
  = returned (searchCodeContent localeCompare env order2 instanceUrl accessToken searchTerm).
Proof.
  intros HC Hperm Hnd Hties.
  rewrite !searchCodeContent_returned_exact.
  destruct (_ || _); [reflexivity | ]. f_equal.
  pose proof (collected_Inv env order1 instanceUrl accessToken searchTerm) as Hwf1.
  pose proof (collected_Inv env order2 instanceUrl accessToken searchTerm) as Hwf2.
  set (l1 := collected env order1 instanceUrl accessToken searchTerm) in *.
  set (l2 := collected env order2 instanceUrl accessToken searchTerm) in *.
  assert (NoDup (map identity l2)) as Hnd2
    by (apply (Permutation_NoDup (Permutation_map identity Hperm)); exact Hnd).
  unfold rank.
  rewrite (uniqueResults_distinct l1) by (apply identity_keys_NoDup; assumption).
  rewrite (uniqueResults_distinct l2) by (apply identity_keys_NoDup; assumption).
  f_equal.
  apply (sorted_permutation_unique
           (fun a b => (compareResults localeCompare a b <= 0)%Z)).
  - apply sort_sorted; [intros a b; apply compareResults_total; exact HC
                       | intros a b c; apply compareResults_trans; exact HC].
  - apply sort_sorted; [intros a b; apply compareResults_total; exact HC
                       | intros a b c; apply compareResults_trans; exact HC].
  - rewrite !sort_perm. exact Hperm.
  - intros a b Ha Hb Hab Hba.
    apply (Permutation_in _ (sort_perm _ _)) in Ha.
    apply (Permutation_in _ (sort_perm _ _)) in Hb.
    apply compareResults_ranksBefore in Hab, Hba.
    pose proof (cmp_antisym _ HC (name a) (name b)) as Hs.
    unfold ranksBefore in Hab, Hba.
    apply Hties; [exact Ha | exact Hb | lia | lia].
Qed.

(** [distinctOrg] run in program order and with the trigger branch
    settling first. *)
Lemma C8_settle_order_witness :
  Permutation (collected distinctOrg [] sampleUrl sampleToken "Invoice")
              (collected distinctOrg [ApexTriggers] sampleUrl sampleToken "Invoice")
  /\ collected distinctOrg [] sampleUrl sampleToken "Invoice"
     <> collected distinctOrg [ApexTriggers] sampleUrl sampleToken "Invoice"
  /\ returned (searchCodeContent ordinalCompare distinctOrg [] sampleUrl sampleToken
                 "Invoice")
     = returned (searchCodeContent ordinalCompare distinctOrg [ApexTriggers] sampleUrl
                   sampleToken "Invoice").
Proof.
  assert (Permutation (collected distinctOrg [] sampleUrl sampleToken "Invoice")
            (collected distinctOrg [ApexTriggers] sampleUrl sampleToken "Invoice")) as Hperm
    by (vm_compute; apply perm_swap).
  split; [exact Hperm | ]. split; [vm_compute; discriminate | ].
  apply (C8_settle_order_irrelevant_without_collisions_and_ties ordinalCompare distinctOrg
           [] [ApexTriggers] sampleUrl sampleToken "Invoice").
  - exact ordinalCompare_consistent.
  - exact Hperm.
  - vm_compute. constructor; [ | constructor; [intros [] | constructor]].
    intros [H | []]. discriminate H.
  - intros a b Ha Hb Ht Hc. vm_compute in Ha, Hb.
    destruct Ha as [<- | [<- | []]], Hb as [<- | [<- | []]];
      try reflexivity; vm_compute in Hc; discriminate Hc.
Defined.

(** The branches are not independent of one another: they share
    [lastIndex] and the [results] array. In [sampleOrg] the page layout is
    found when its branch settles first and lost in program order, where
    the test of its name starts at the [lastIndex] left by the component
    branch. *)
Lemma settle_order_changes_what_is_found :
  (exists value,
     returned (searchCodeContent ordinalCompare sampleOrg [] sampleUrl sampleToken
                 "Account") = Fulfilled value
     /\ map id value = ["apex-class-01p1"; "lwc-bundle-0Rb1"])
  /\ (exists value,
        returned (searchCodeContent ordinalCompare sampleOrg [Layouts] sampleUrl
                    sampleToken "Account") = Fulfilled value
        /\ map id value = ["page-layout-00h1"; "apex-class-01p1"; "lwc-bundle-0Rb1"]).
Proof.
  split; eexists; (split; [vm_compute; reflexivity | reflexivity]).
Qed.

(** C8 as stated fails. In [tieOrg] a class and a trigger share the name
    Billing and have one match each. Both runs collect the same two entries;
    the one whose branch settled first comes first in the returned list. *)
Lemma C8_tie_follows_settle_order :
  exists e1 e2,
    e1 <> e2
    /\ collected tieOrg [] sampleUrl sampleToken "Invoice" = [e1; e2]
    /\ collected tieOrg [ApexTriggers] sampleUrl sampleToken "Invoice" = [e2; e1]
    /\ returned (searchCodeContent ordinalCompare tieOrg [] sampleUrl sampleToken "Invoice")
       = Fulfilled [e1; e2]
    /\ returned (searchCodeContent ordinalCompare tieOrg [ApexTriggers] sampleUrl sampleToken
                   "Invoice")
       = Fulfilled [e2; e1]
    /\ returned (searchCodeContent ordinalCompare tieOrg [] sampleUrl sampleToken "Invoice")
       <> returned (searchCodeContent ordinalCompare tieOrg [ApexTriggers] sampleUrl
                      sampleToken "Invoice").
Proof.
  eexists. eexists.
  split; [ | split; [vm_compute; reflexivity | ]].
  - discriminate.
  - split; [vm_compute; reflexivity | ].
    split; [vm_compute; reflexivity | ].
    split; [vm_compute; reflexivity | ].
    vm_compute. discriminate.
Qed.

(** * Further properties of the service *)

(** ** [handleApiError] *)

(** X1. Whatever the status and the body, [handleApiError] throws either a
    [TokenExpiredError] or the generic HTTP error built from the status and
    the raw text: the error carrying the message of the platform, thrown
    inside its [try] block, is caught by its own [catch] clause and never
    leaves the function. *)
Theorem handleApiError_hides_platform_message (status : nat) (errorText : ErrorBody) :
  (exists msg, handleApiError status errorText = TokenExpiredError msg)
  \/ handleApiError status errorText
     = Error ("HTTP error! status: " ++ Js.ofNat status ++ " - " ++ raw errorText).
Proof.
  unfold handleApiError.
  destruct (parsed errorText) as [ | | [ | first rest]].
  - destruct (Nat.eqb status 401); [left; eexists; reflexivity | right; reflexivity].
  - destruct (Nat.eqb status 401); [left; eexists; reflexivity | right; reflexivity].
  - right. reflexivity.
  - destruct (match errorCode first with Some c => _ | None => false end);
      [left; eexists; reflexivity | ].
    destruct (includesWords (message first)) as [[ | ] | ].
    + left. eexists. reflexivity.
    + destruct (truthyMessage (message first)); [ | right; reflexivity].
      destruct (Nat.eqb status 401); [left; eexists; reflexivity | right; reflexivity].
    + destruct (Nat.eqb status 401); [left; eexists; reflexivity | right; reflexivity].
Qed.

(** X2. [handleApiError] throws a [TokenExpiredError] exactly when the first
    element of the parsed body names an expired session, or when the status
    is 401 and something is thrown inside the [try] block: the body is not
    JSON, it is the JSON value null, or the message of its first element is
    truthy or has no [includes] method. A 401 whose body is any other JSON
    value, such as an empty array or an element with no message, a null one
    or an empty one, is reported as a generic error. *)
Theorem handleApiError_token_expiry_condition (status : nat) (errorText : ErrorBody) :
  isTokenExpired (handleApiError status errorText)
  = sessionMarked errorText || (Nat.eqb status 401 && unreadableOrWorded errorText).
Proof.
  unfold handleApiError, sessionMarked, unreadableOrWorded.
  destruct (parsed errorText) as [ | | [ | first rest]].
  - cbn [orb]. destruct (Nat.eqb status 401); reflexivity.
  - cbn [orb]. destruct (Nat.eqb status 401); reflexivity.
  - rewrite andb_false_r. reflexivity.
  - destruct (match errorCode first with Some c => _ | None => false end);
      [reflexivity | ].
    cbn [orb].
    destruct (message first) as [ | | text | truthy shown | holdsWords shown];
      cbn [includesWords truthyMessage].
    + rewrite andb_false_r. reflexivity.
    + rewrite andb_false_r. reflexivity.
    + destruct (Js.includes text "Session expired"); [reflexivity | ].
      cbn [orb]. destruct (Js.truthy text).
      * destruct (Nat.eqb status 401); reflexivity.
      * rewrite andb_false_r. reflexivity.
    + destruct (Nat.eqb status 401); reflexivity.
    + destruct holdsWords; [reflexivity | ].
      destruct (Nat.eqb status 401); reflexivity.
Qed.

(** ** [toolingQuery] of the search *)

Lemma toolingQuery_requests {A} cleanInstanceUrl accessToken soql timeout
    (answer : Fetched (QueryJson A)) (st : Shared) :
  requests (snd (toolingQuery cleanInstanceUrl accessToken soql timeout answer st))
  = (requests st
       ++ [jsonRequest accessToken (mkUrl cleanInstanceUrl (ToolingQuery soql))
             (Some timeout)])%list.
Proof.
  unfold toolingQuery, tryCatch, bind, fetch, throw, ret.
  destruct answer as [[ | | records] | status errorText | | ]; cbn; try reflexivity.
  destruct (Nat.eqb status 401); cbn; [ | reflexivity].
  destruct (handleApiError status errorText); reflexivity.
Qed.

Lemma toolingQuery_completion {A} cleanInstanceUrl accessToken soql timeout
    (answer : Fetched (QueryJson A)) (st : Shared) :
  fst (toolingQuery cleanInstanceUrl accessToken soql timeout answer st)
  = match answer with
    | Ok (Records records) => inr (Some records)
    | Ok Missing => inr None
    | Failed status errorText =>
        if Nat.eqb status 401 && isTokenExpired (handleApiError status errorText)
        then inl (handleApiError status errorText)
        else inr (Some [])
    | _ => inr (Some [])
    end.
Proof.
  unfold toolingQuery, tryCatch, bind, fetch, throw, ret.
  destruct answer as [[ | | records] | status errorText | | ]; cbn; try reflexivity.
  destruct (Nat.eqb status 401); cbn; [ | reflexivity].
  destruct (handleApiError status errorText); reflexivity.
Qed.

(** X3. A tooling query sends exactly one request and touches neither the
    results nor [lastIndex]. It throws only a [TokenExpiredError], and only
    for an answer of status 401 that [handleApiError] classifies as an
    expired session; every other failure, the timeout included, yields an
    empty record set. *)
Theorem toolingQuery_outcome {A} cleanInstanceUrl accessToken soql timeout
    (answer : Fetched (QueryJson A)) (st : Shared) :
  let run := toolingQuery cleanInstanceUrl accessToken soql timeout answer st in
  requests (snd run)
  = (requests st
       ++ [jsonRequest accessToken (mkUrl cleanInstanceUrl (ToolingQuery soql))
             (Some timeout)])%list
  /\ results (snd run) = results st
  /\ lastIndex (snd run) = lastIndex st
  /\ fst run
     = match answer with
       | Ok (Records records) => inr (Some records)
       | Ok Missing => inr None
       | Ok Unparsable => inr (Some [])
       | Failed status errorText =>
           if Nat.eqb status 401 && isTokenExpired (handleApiError status errorText)
           then inl (handleApiError status errorText)
           else inr (Some [])
       | Aborted => inr (Some [])
       | NetworkFailure => inr (Some [])
       end.
Proof.
  unfold toolingQuery, tryCatch, bind, fetch, throw, ret.
  destruct answer as [[ | | records] | status errorText | | ]; cbn;
    try (repeat split; reflexivity).
  destruct (Nat.eqb status 401); cbn; [ | repeat split; reflexivity].
  destruct (handleApiError status errorText); cbn; repeat split; reflexivity.
Qed.

(** ** [escapeSOSL] *)

Lemma backslash_is_reserved : inSoslClass "\"%char = true.
Proof. reflexivity. Qed.

(** X4. In the text produced by [escapeSOSL] no character of the reserved
    class stands unescaped: every backslash escapes the character after it,
    and every other character is outside the class. *)
Theorem escapeSOSL_leaves_nothing_unescaped (input : string) :
  wellEscaped (escapeSOSL input) = true.
Proof.
  induction input as [ | c r IH]; cbn [escapeSOSL]; [reflexivity | ].
  destruct (inSoslClass c) eqn:E.
  - cbn [wellEscaped]. rewrite Ascii.eqb_refl. exact IH.
  - cbn [wellEscaped]. destruct (Ascii.eqb c "\"%char) eqn:Ec.
    + apply Ascii.eqb_eq in Ec. subst c. rewrite backslash_is_reserved in E.
      discriminate E.
    + rewrite E, IH. reflexivity.
Qed.

Lemma escapeSOSL_length (input : string) :
  String.length input <= String.length (escapeSOSL input).
Proof.
  induction input as [ | c r IH]; cbn [escapeSOSL]; [apply Nat.le_refl | ].
  destruct (inSoslClass c); cbn [String.length]; lia.
Qed.

Lemma escapeSOSL_fixed_point (input : string) :
  escapeSOSL input = input <-> hasReserved input = false.
Proof.
  induction input as [ | c r IH]; cbn [escapeSOSL hasReserved]; [tauto | ].
  destruct (inSoslClass c) eqn:E; cbn [orb].
  - split; [ | discriminate]. intros H. exfalso.
    injection H as Hc Hr. subst c.
    pose proof (escapeSOSL_length r) as Hlen.
    assert (String.length (String "\"%char (escapeSOSL r)) = String.length r) as Hl
      by (rewrite Hr; reflexivity).
    cbn [String.length] in Hl. lia.
  - split.
    + intros H. injection H as H. apply IH. exact H.
    + intros H. f_equal. apply IH. exact H.
Qed.

(** X5. Escaping is not idempotent: escaping an escaped text gives the same
    text back only when the input holds no reserved character at all, since
    the backslashes put in by the first pass are escaped by the second. *)
Theorem escapeSOSL_twice_differs_on_reserved (input : string) :
  escapeSOSL (escapeSOSL input) = escapeSOSL input <-> hasReserved input = false.
Proof.
  rewrite escapeSOSL_fixed_point.
  induction input as [ | c r IH]; cbn [escapeSOSL hasReserved]; [tauto | ].
  destruct (inSoslClass c) eqn:E; cbn [hasReserved orb].
  - rewrite backslash_is_reserved. cbn [orb]. tauto.
  - rewrite E. cbn [orb]. exact IH.
Qed.

(** ** Caps on what the branches collect *)

Lemma keepsCapped_refl (st : Shared) : keepsCapped st st.
Proof. intros H. exact H. Qed.

Lemma keepsCapped_trans (a b c : Shared) : keepsCapped a b -> keepsCapped b c -> keepsCapped a c.
Proof. intros Hab Hbc H. apply Hbc, Hab, H. Qed.

Lemma keepsCapped_test searchTerm s : moves keepsCapped (test searchTerm s) (fun _ => True).
Proof.
  intros st. unfold test. destruct (regexExec searchTerm s (lastIndex st)).
  split; [intros H; exact H | trivial].
Qed.

Lemma keepsCapped_fetch A (req : Request) (answer : Fetched A) :
  moves keepsCapped (fetch req answer) (fun _ => True).
Proof.
  intros st. unfold fetch. destruct answer; (split; [intros H; exact H | trivial]).
Qed.

Lemma keepsCapped_push (r : CodeSearchResult) :
  capped r -> moves keepsCapped (push r) (fun _ => True).
Proof.
  intros Hr st. split; [ | trivial]. intros H. unfold push. cbn.
  apply Forall_app. split; [exact H | constructor; [exact Hr | constructor]].
Qed.

Ltac capped_ret := apply (moves_ret keepsCapped keepsCapped_refl).
Ltac capped_bind :=
  eapply (moves_bind keepsCapped keepsCapped_trans).
Ltac capped_test :=
  first [ apply keepsCapped_test
        | apply (moves_andTest keepsCapped keepsCapped_refl keepsCapped_test) ].
Ltac capped_query :=
  capped_bind;
  [ apply (moves_toolingQuery keepsCapped keepsCapped_refl keepsCapped_trans
             keepsCapped_fetch)
  | intros ? _;
    capped_bind;
    [ apply (moves_recordsOf keepsCapped keepsCapped_refl) | intros ? _ ] ].
Ltac capped_branch :=
  apply (moves_tryCatch keepsCapped keepsCapped_trans);
  [ | apply (moves_branchCatch keepsCapped keepsCapped_refl) ].
Ltac capped_forEach :=
  apply (moves_forEach keepsCapped keepsCapped_refl keepsCapped_trans).
Ltac capped_field :=
  capped_bind;
  [ apply (moves_fieldMatch keepsCapped keepsCapped_refl keepsCapped_trans
             keepsCapped_test)
  | intros ? ? ].

Section BranchCaps.

Variable env : Transport.
Variables cleanInstanceUrl accessToken searchTerm : string.

Lemma capped_scanLines type lines rest i found :
  List.length found <= maxMatches ->
  moves keepsCapped (scanLines searchTerm type lines rest i found)
    (fun found' => List.length found' <= maxMatches).
Proof.
  revert i found. induction rest as [ | ln rest' IH]; intros i found Hfound;
    cbn [scanLines].
  - capped_ret. exact Hfound.
  - destruct (List.length found <? maxMatches)%nat eqn:Eroom; [ | capped_ret; exact Hfound].
    apply Nat.ltb_lt in Eroom.
    capped_bind; [capped_test | ]. intros hit _. apply IH.
    destruct hit; [rewrite length_app; cbn; lia | exact Hfound].
Qed.

Lemma capped_searchInContent content fileName type name label id :
  type <> "flow" ->
  moves keepsCapped (searchInContent searchTerm content fileName type name label id)
    (fun _ => True).
Proof.
  intros Htype. unfold searchInContent.
  destruct (negb (Js.truthy content) || Nat.eqb (String.length content) 0);
    [capped_ret; exact I | ].
  capped_bind; [apply capped_scanLines; cbn; lia | ]. intros found Hfound.
  destruct (0 <? List.length found)%nat eqn:E; [ | capped_ret; exact I].
  apply Nat.ltb_lt in E. apply keepsCapped_push.
  split; [exact Hfound | split; [intros Hflow; contradiction | intros _; exact E]].
Qed.

Lemma capped_apexClassBranch :
  moves keepsCapped (apexClassBranch env cleanInstanceUrl accessToken searchTerm)
    (fun _ => True).
Proof.
  unfold apexClassBranch. capped_branch. capped_query.
  capped_forEach. intros cls _. unfold scanApexClass.
  destruct (cls_Body cls) as [body | ]; [ | capped_ret; exact I].
  capped_bind; [capped_test | ]. intros hit _.
  destruct hit; [ | capped_ret; exact I].
  apply capped_searchInContent. discriminate.
Qed.

Lemma capped_apexTriggerBranch :
  moves keepsCapped (apexTriggerBranch env cleanInstanceUrl accessToken searchTerm)
    (fun _ => True).
Proof.
  unfold apexTriggerBranch. capped_branch. capped_query.
  capped_forEach. intros trigger _. unfold scanApexTrigger.
  destruct (trg_Body trigger) as [body | ]; [ | capped_ret; exact I].
  capped_bind; [capped_test | ]. intros hit _.
  destruct hit; [ | capped_ret; exact I].
  apply capped_searchInContent. discriminate.
Qed.

Lemma capped_scanXmlLines xmlLines rest lineIndex xmlMatchCount locals :
  flowRoom xmlMatchCount locals ->
  moves keepsCapped
    (scanXmlLines searchTerm xmlLines rest lineIndex xmlMatchCount locals)
    (fun locals' => List.length (flowMatches locals') <= maxFlowMatches).
Proof.
  revert lineIndex xmlMatchCount locals.
  induction rest as [ | ln rest' IH]; intros lineIndex xmlMatchCount locals Hroom;
    cbn [scanXmlLines]; unfold flowRoom in Hroom.
  - capped_ret. lia.
  - destruct (xmlMatchCount <? maxXmlMatches)%nat eqn:E; [ | capped_ret; lia].
    apply Nat.ltb_lt in E.
    capped_bind; [capped_test | ]. intros hit _.
    destruct hit; apply IH; unfold flowRoom; cbn [flowMatches].
    + rewrite length_app. cbn [List.length]. lia.
    + lia.
Qed.

Lemma capped_flowNameMatch flow :
  moves keepsCapped (flowNameMatch searchTerm flow) (flowRoom 0).
Proof.
  unfold flowNameMatch. destruct (flow_MasterLabel flow) as [masterLabel | ].
  - capped_bind; [capped_test | ]. intros hit _.
    destruct hit; capped_ret; unfold flowRoom, maxFlowMatches, maxXmlMatches;
      cbn [flowMatches List.length]; lia.
  - capped_ret. unfold flowRoom, maxFlowMatches, maxXmlMatches.
    cbn [flowMatches List.length]. lia.
Qed.

Lemma capped_flowDocumentScan flow locals :
  flowRoom 0 locals ->
  moves keepsCapped
    (flowDocumentScan env cleanInstanceUrl accessToken searchTerm flow locals)
    (fun _ => True).
Proof.
  intros Hroom.
  assert (List.length (flowMatches locals) <= maxFlowMatches) as Hlen
    by (unfold flowRoom in Hroom; lia).
  unfold flowDocumentScan.
  apply (moves_bind keepsCapped keepsCapped_trans _ _
           (fun locals' => List.length (flowMatches locals') <= maxFlowMatches)).
  - apply (moves_tryCatch keepsCapped keepsCapped_trans);
      [ | intros e; capped_ret; exact Hlen].
    capped_bind; [apply keepsCapped_fetch | ]. intros xmlResponse _.
    destruct xmlResponse as [xmlContent | status errorText]; [ | capped_ret; exact Hlen].
    capped_bind; [capped_test | ]. intros hit _.
    destruct hit; [apply capped_scanXmlLines; exact Hroom | capped_ret; exact Hlen].
  - intros locals' Hlen'. cbn beta in Hlen'.
    destruct (0 <? List.length (flowMatches locals'))%nat eqn:E; [ | capped_ret; exact I].
    apply Nat.ltb_lt in E. apply keepsCapped_push.
    split; [cbn [matches]; unfold maxFlowMatches, maxXmlMatches, maxMatches in *; lia | ].
    split; [intros _; exact Hlen' | intros _; exact E].
Qed.

Lemma capped_flowBranch :
  moves keepsCapped (flowBranch env cleanInstanceUrl accessToken searchTerm)
    (fun _ => True).
Proof.
  unfold flowBranch. capped_branch. capped_query.
  capped_forEach. intros batch _. unfold flowBatch.
  apply (moves_bind keepsCapped keepsCapped_trans _ _
           (Forall (fun fl => flowRoom 0 (snd fl)))).
  - apply (moves_mapExec keepsCapped keepsCapped_refl keepsCapped_trans _
             (fun fl => flowRoom 0 (snd fl))).
    intros flow.
    apply (moves_bind keepsCapped keepsCapped_trans _ _ (flowRoom 0)).
    + apply (moves_tryCatch keepsCapped keepsCapped_trans);
        [apply capped_flowNameMatch | ].
      intros e. capped_ret. unfold flowRoom, maxFlowMatches, maxXmlMatches.
      cbn [flowMatches List.length]. lia.
    + intros locals Hl. capped_ret. exact Hl.
  - intros started Hstarted. capped_forEach. intros fl Hfl.
    apply (moves_tryCatch keepsCapped keepsCapped_trans);
      [ | intros e; capped_ret; exact I].
    apply capped_flowDocumentScan.
    rewrite Forall_forall in Hstarted. apply Hstarted. exact Hfl.
Qed.

Lemma capped_bundleBranch kind answer :
  bk_type kind <> "flow" -> ~ In (bk_type kind) guardedTypes ->
  moves keepsCapped (bundleBranch cleanInstanceUrl accessToken searchTerm kind answer)
    (fun _ => True).
Proof.
  intros Hflow Hguard. unfold bundleBranch. capped_branch. capped_query.
  capped_forEach. intros bundle _. unfold scanBundle.
  capped_bind; [capped_test | ]. intros hit _.
  destruct hit; [ | capped_ret; exact I].
  capped_field. capped_field. capped_field.
  apply keepsCapped_push. unfold capped. cbn [matches type].
  split; [rewrite !length_app; unfold maxMatches; cbn beta in *; lia | ].
  split; [intros Hf; contradiction | intros Hg; contradiction].
Qed.

Lemma capped_validationRuleBranch :
  moves keepsCapped (validationRuleBranch env cleanInstanceUrl accessToken searchTerm)
    (fun _ => True).
Proof.
  unfold validationRuleBranch. capped_branch. capped_query.
  capped_forEach. intros rule _. unfold scanValidationRule.
  capped_bind; [capped_test | ]. intros hit _.
  destruct hit; [ | capped_ret; exact I].
  capped_field. capped_field.
  apply keepsCapped_push. unfold capped. cbn [matches type].
  split; [rewrite !length_app; unfold maxMatches; cbn beta in *; lia | ].
  split; [discriminate | ].
  unfold guardedTypes. cbn. intros [Hg | [Hg | [Hg | [Hg | []]]]]; discriminate Hg.
Qed.

Lemma capped_layoutBranch :
  moves keepsCapped (layoutBranch env cleanInstanceUrl accessToken searchTerm)
    (fun _ => True).
Proof.
  unfold layoutBranch. capped_branch. capped_query.
  capped_forEach. intros layout _. unfold scanLayout.
  capped_bind; [capped_test | ]. intros hit _.
  destruct hit; [ | capped_ret; exact I].
  apply keepsCapped_push. unfold capped. cbn [matches type].
  split; [unfold maxMatches; cbn; lia | ].
  split; [discriminate | intros _; cbn; lia].
Qed.

Lemma capped_recordTypeBranch :
  moves keepsCapped (recordTypeBranch env cleanInstanceUrl accessToken searchTerm)
    (fun _ => True).
Proof.
  unfold recordTypeBranch. capped_branch.
  capped_bind; [apply keepsCapped_fetch | ]. intros response _.
  destruct response as [[ | | recordTypes] | status errorText];
    try (apply (moves_throw keepsCapped keepsCapped_refl));
    try (capped_ret; exact I).
  capped_forEach. intros recordType _. unfold scanRecordType.
  capped_bind; [capped_test | ]. intros hit _.
  destruct hit; [ | capped_ret; exact I].
  capped_field. capped_field.
  apply keepsCapped_push. unfold capped. cbn [matches type].
  split; [rewrite !length_app; unfold maxMatches; cbn beta in *; lia | ].
  split; [discriminate | ].
  unfold guardedTypes. cbn. intros [Hg | [Hg | [Hg | [Hg | []]]]]; discriminate Hg.
Qed.

Lemma capped_soslBranch :
  moves keepsCapped (soslBranch env cleanInstanceUrl accessToken searchTerm)
    (fun _ => True).
Proof.
  unfold soslBranch. capped_branch.
  capped_bind; [apply keepsCapped_fetch | ]. intros response _.
  destruct response as [[ | | searchRecords] | status errorText];
    try (apply (moves_throw keepsCapped keepsCapped_refl));
    try (capped_ret; exact I).
  capped_forEach. intros record _. unfold addSearchRecord.
  capped_bind; [apply (moves_getResults keepsCapped keepsCapped_refl) | ].
  intros current _.
  destruct (existsb _ current); [capped_ret; exact I | ].
  destruct (isType (sr_type record) "ApexClass").
  - apply keepsCapped_push. unfold capped. cbn [soslEntry matches type].
    split; [unfold maxMatches; cbn; lia | ].
    split; [discriminate | intros _; cbn; lia].
  - destruct (isType (sr_type record) "ApexTrigger"); [ | capped_ret; exact I].
    apply keepsCapped_push. unfold capped. cbn [soslEntry matches type].
    split; [unfold maxMatches; cbn; lia | ].
    split; [discriminate | intros _; cbn; lia].
Qed.

Lemma capped_runBranch b :
  moves keepsCapped (runBranch env cleanInstanceUrl accessToken searchTerm b)
    (fun _ => True).
Proof.
  destruct b; cbn [runBranch]; unfold lwcBranch, auraBranch.
  - apply capped_apexClassBranch.
  - apply capped_apexTriggerBranch.
  - apply capped_flowBranch.
  - apply capped_bundleBranch; [discriminate | ].
    unfold guardedTypes. cbn. intros [Hg | [Hg | [Hg | [Hg | []]]]]; discriminate Hg.
  - apply capped_bundleBranch; [discriminate | ].
    unfold guardedTypes. cbn. intros [Hg | [Hg | [Hg | [Hg | []]]]]; discriminate Hg.
  - apply capped_validationRuleBranch.
  - apply capped_layoutBranch.
  - apply capped_recordTypeBranch.
  - apply capped_soslBranch.
Qed.

Lemma capped_allSettled order :
  moves keepsCapped
    (allSettled (runBranch env cleanInstanceUrl accessToken searchTerm) order)
    (fun _ => True).
Proof.
  induction order as [ | b rest IH]; cbn [allSettled].
  - capped_ret. exact I.
  - capped_bind;
      [apply (moves_settle keepsCapped), capped_runBranch | ].
    intros s _. capped_bind; [apply IH | ]. intros others _. capped_ret. exact I.
Qed.

End BranchCaps.

Lemma collected_matched env order instanceUrl accessToken searchTerm :
  Forall matchedIfGuarded (collected env order instanceUrl accessToken searchTerm).
Proof.
  assert (Forall capped (collected env order instanceUrl accessToken searchTerm)) as Hc.
  { unfold collected, settledState.
    apply (capped_allSettled env (stripTrailingSlash instanceUrl) accessToken searchTerm
             (settleOrder order) initialShared).
    constructor. }
  eapply Forall_impl; [ | exact Hc].
  intros r [_ [_ Hg]]. exact Hg.
Qed.

(** X6. Every entry the branches collect has at most 15 match records, a
    flow at most 11 (its name and ten lines of its document), and an Apex
    class, an Apex trigger, a flow or a page layout has at least one. *)
Theorem collected_entries_are_capped env order instanceUrl accessToken searchTerm :
  Forall capped (collected env order instanceUrl accessToken searchTerm).
Proof.
  unfold collected, settledState.
  apply (capped_allSettled env (stripTrailingSlash instanceUrl) accessToken searchTerm
           (settleOrder order) initialShared).
  constructor.
Qed.

Lemma uniqueResults_Forall (P : CodeSearchResult -> Prop) (l : list CodeSearchResult) :
  (forall existing current, P existing -> P (mergeEntry existing current)) ->
  Forall P l -> Forall P (uniqueResults l).
Proof.
  intros Hmerge. unfold uniqueResults.
  assert (forall acc, Forall P acc -> Forall P l -> Forall P (fold_left mergeStep l acc)) as H.
  { induction l as [ | c rest IH]; intros acc Hacc Hl; cbn [fold_left]; [exact Hacc | ].
    inversion Hl as [ | ? ? Hc Hrest]; subst.
    apply IH; [ | exact Hrest]. unfold mergeStep.
    destruct (findIndex _ acc) as [i | ].
    - destruct (nth_error acc i) as [existing | ] eqn:Hnth; [ | exact Hacc].
      apply Forall_setAt; [exact Hacc | ]. apply Hmerge.
      rewrite Forall_forall in Hacc. apply Hacc. eapply nth_error_In. exact Hnth.
    - apply Forall_app. split; [exact Hacc | constructor; [exact Hc | constructor]]. }
  intros Hl. apply H; [constructor | exact Hl].
Qed.

Lemma uniqueMatchesOf_keeps_first (l1 l2 : list Match) :
  1 <= List.length l1 -> 1 <= List.length (uniqueMatchesOf (l1 ++ l2)).
Proof.
  intros H. rewrite uniqueMatchesOf_spec. unfold dedupeByLineSnippet.
  destruct l1 as [ | m rest]; [cbn in H; lia | ].
  cbn. lia.
Qed.

(** X7. In the returned list, every Apex class, Apex trigger, flow and page
    layout has at least one match record, merged entries included. *)
Theorem guarded_entries_are_returned_with_matches
    localeCompare env order instanceUrl accessToken searchTerm value :
  returned (searchCodeContent localeCompare env order instanceUrl accessToken searchTerm)
    = Fulfilled value ->
  Forall (fun r => In (type r) guardedTypes -> 1 <= List.length (matches r)) value.
Proof.
  intros Hret.
  destruct (searchCodeContent_returned localeCompare env order instanceUrl accessToken
              searchTerm) as [E | [_ E]];
    rewrite E in Hret; injection Hret as <-; [constructor | ].
  assert (Forall matchedIfGuarded
            (uniqueResults (collected env order instanceUrl accessToken searchTerm))) as H.
  { apply uniqueResults_Forall.
    - intros existing current He Hg. cbn [mergeEntry matches type] in *.
      apply uniqueMatchesOf_keeps_first, He, Hg.
    - apply collected_matched. }
  rewrite Forall_forall in *. intros r Hr. apply H. apply (rank_In localeCompare). exact Hr.
Qed.

(** The entries returned for [sampleOrg] with the SOSL fallback settled
    first. *)
Lemma guarded_entries_witness :
  exists value,
    returned (searchCodeContent ordinalCompare sampleOrg [Sosl] sampleUrl sampleToken
                "Account") = Fulfilled value
    /\ map type value = ["apex-class"; "lwc-bundle"]
    /\ Forall (fun r => In (type r) guardedTypes -> 1 <= List.length (matches r)) value.
Proof.
  eexists. split; [vm_compute; reflexivity | ]. split; [reflexivity | ].
  apply (guarded_entries_are_returned_with_matches ordinalCompare sampleOrg [Sosl]
           sampleUrl sampleToken "Account").
  vm_compute. reflexivity.
Defined.

(** ** The SOSL fallback *)

Lemma appendsFreshIds_refl (st : Shared) : appendsFreshIds st st.
Proof.
  exists []. split; [rewrite app_nil_r; reflexivity | ]. split; constructor.
Qed.

Lemma appendsFreshIds_trans (a b c : Shared) :
  appendsFreshIds a b -> appendsFreshIds b c -> appendsFreshIds a c.
Proof.
  intros [l1 [E1 [N1 F1]]] [l2 [E2 [N2 F2]]]. exists (l1 ++ l2)%list.
  rewrite E2, E1, <- app_assoc. split; [reflexivity | ].
  rewrite Forall_forall in F1, F2. split.
  - rewrite map_app. apply NoDup_app; [exact N1 | exact N2 | ].
    intros x Hx1 Hx2. apply in_map_iff in Hx2 as [r [Hr Hin]].
    apply (F2 r Hin). rewrite E1, map_app. apply in_or_app. right.
    rewrite Hr. exact Hx1.
  - apply Forall_app. split; rewrite Forall_forall.
    + exact F1.
    + intros r Hr Hin. apply (F2 r Hr). rewrite E1, map_app.
      apply in_or_app. left. exact Hin.
Qed.

Lemma appendsFreshIds_fetch A (req : Request) (answer : Fetched A) :
  moves appendsFreshIds (fetch req answer) (fun _ => True).
Proof.
  intros st. unfold fetch.
  destruct answer; (split; [ | trivial]); exists []; cbn;
    (split; [rewrite app_nil_r; reflexivity | split; constructor]).
Qed.

Lemma appendsFreshIds_addSearchRecord searchTerm record :
  moves appendsFreshIds (addSearchRecord searchTerm record) (fun _ => True).
Proof.
  intros st. split; [ | trivial].
  unfold addSearchRecord, bind, getResults, push, ret. cbn.
  destruct (existsb _ (results st)) eqn:Efound; [apply appendsFreshIds_refl | ].
  assert (forall newId,
            existsb (fun r => String.eqb (id r) newId) (results st) = false ->
            ~ In newId (map id (results st))) as Hfresh.
  { intros newId Hex Hin. apply in_map_iff in Hin as [r [Hr Hin]].
    apply not_true_iff_false in Hex. apply Hex. apply existsb_exists.
    exists r. split; [exact Hin | ]. rewrite Hr. apply String.eqb_refl. }
  destruct (isType (sr_type record) "ApexClass").
  - eexists. cbn. split; [reflexivity | ].
    split; [constructor; [intros [] | constructor] | ].
    constructor; [ | constructor]. apply Hfresh. exact Efound.
  - destruct (isType (sr_type record) "ApexTrigger"); [ | apply appendsFreshIds_refl].
    eexists. cbn. split; [reflexivity | ].
    split; [constructor; [intros [] | constructor] | ].
    constructor; [ | constructor]. apply Hfresh. exact Efound.
Qed.

(** X8. The SOSL fallback only appends to the results: every entry found
    before it ran stays in place, and the entries it adds carry ids that
    were not in the results and that differ from one another, whatever the
    search answers. *)
Theorem soslBranch_appends_fresh_ids env cleanInstanceUrl accessToken searchTerm st :
  exists added,
    results (snd (soslBranch env cleanInstanceUrl accessToken searchTerm st))
    = (results st ++ added)%list
    /\ NoDup (map id added)
    /\ Forall (fun r => ~ In (id r) (map id (results st))) added.
Proof.
  assert (moves appendsFreshIds
            (soslBranch env cleanInstanceUrl accessToken searchTerm) (fun _ => True)) as H.
  { unfold soslBranch.
    apply (moves_tryCatch appendsFreshIds appendsFreshIds_trans);
      [ | apply (moves_branchCatch appendsFreshIds appendsFreshIds_refl)].
    eapply (moves_bind appendsFreshIds appendsFreshIds_trans);
      [apply appendsFreshIds_fetch | ].
    intros response _.
    destruct response as [[ | | searchRecords] | status errorText];
      try (apply (moves_throw appendsFreshIds appendsFreshIds_refl));
      try (apply (moves_ret appendsFreshIds appendsFreshIds_refl); exact I).
    apply (moves_forEach appendsFreshIds appendsFreshIds_refl appendsFreshIds_trans).
    intros record _. apply appendsFreshIds_addSearchRecord. }
  apply (H st).
Qed.

(** ** The requests of a search *)

Lemma sameRequests_refl (st : Shared) : sameRequests st st.
Proof. reflexivity. Qed.

Lemma sameRequests_trans (a b c : Shared) :
  sameRequests a b -> sameRequests b c -> sameRequests a c.
Proof. unfold sameRequests. intros Hab Hbc. rewrite Hbc. exact Hab. Qed.

Lemma sameRequests_test searchTerm s : moves sameRequests (test searchTerm s) (fun _ => True).
Proof.
  intros st. unfold test. destruct (regexExec searchTerm s (lastIndex st)).
  split; [reflexivity | trivial].
Qed.

Lemma sameRequests_push r : moves sameRequests (push r) (fun _ => True).
Proof. intros st. split; [reflexivity | trivial]. Qed.

Ltac quiet_ret := apply (moves_ret sameRequests sameRequests_refl); exact I.
Ltac quiet_bind := eapply (moves_bind sameRequests sameRequests_trans).
Ltac quiet_test :=
  first [ apply sameRequests_test
        | apply (moves_andTest sameRequests sameRequests_refl sameRequests_test) ].
Ltac quiet_field :=
  quiet_bind;
  [ apply (moves_fieldMatch sameRequests sameRequests_refl sameRequests_trans
             sameRequests_test)
  | intros ? _ ].

Lemma quiet_scanLines searchTerm type lines rest i found :
  moves sameRequests (scanLines searchTerm type lines rest i found) (fun _ => True).
Proof.
  revert i found. induction rest as [ | ln rest' IH]; intros i found; cbn [scanLines].
  - quiet_ret.
  - destruct (List.length found <? maxMatches)%nat; [ | quiet_ret].
    quiet_bind; [quiet_test | ]. intros hit _. apply IH.
Qed.

Lemma quiet_searchInContent searchTerm content fileName type name label id :
  moves sameRequests (searchInContent searchTerm content fileName type name label id)
    (fun _ => True).
Proof.
  unfold searchInContent.
  destruct (negb (Js.truthy content) || Nat.eqb (String.length content) 0); [quiet_ret | ].
  quiet_bind; [apply quiet_scanLines | ]. intros found _.
  destruct (0 <? List.length found)%nat; [apply sameRequests_push | quiet_ret].
Qed.

Lemma quiet_scanApexClass searchTerm cls :
  moves sameRequests (scanApexClass searchTerm cls) (fun _ => True).
Proof.
  unfold scanApexClass. destruct (cls_Body cls) as [body | ]; [ | quiet_ret].
  quiet_bind; [quiet_test | ]. intros hit _.
  destruct hit; [apply quiet_searchInContent | quiet_ret].
Qed.

Lemma quiet_scanApexTrigger searchTerm trigger :
  moves sameRequests (scanApexTrigger searchTerm trigger) (fun _ => True).
Proof.
  unfold scanApexTrigger. destruct (trg_Body trigger) as [body | ]; [ | quiet_ret].
  quiet_bind; [quiet_test | ]. intros hit _.
  destruct hit; [apply quiet_searchInContent | quiet_ret].
Qed.

Lemma quiet_scanBundle searchTerm kind bundle :
  moves sameRequests (scanBundle searchTerm kind bundle) (fun _ => True).
Proof.
  unfold scanBundle. quiet_bind; [quiet_test | ]. intros hit _.
  destruct hit; [ | quiet_ret].
  quiet_field. quiet_field. quiet_field. apply sameRequests_push.
Qed.

Lemma quiet_scanValidationRule searchTerm rule :
  moves sameRequests (scanValidationRule searchTerm rule) (fun _ => True).
Proof.
  unfold scanValidationRule. quiet_bind; [quiet_test | ]. intros hit _.
  destruct hit; [ | quiet_ret].
  quiet_field. quiet_field. apply sameRequests_push.
Qed.

Lemma quiet_scanLayout searchTerm layout :
  moves sameRequests (scanLayout searchTerm layout) (fun _ => True).
Proof.
  unfold scanLayout. quiet_bind; [quiet_test | ]. intros hit _.
  destruct hit; [apply sameRequests_push | quiet_ret].
Qed.

Lemma quiet_scanRecordType searchTerm recordType :
  moves sameRequests (scanRecordType searchTerm recordType) (fun _ => True).
Proof.
  unfold scanRecordType. quiet_bind; [quiet_test | ]. intros hit _.
  destruct hit; [ | quiet_ret].
  quiet_field. quiet_field. apply sameRequests_push.
Qed.

Lemma quiet_addSearchRecord searchTerm record :
  moves sameRequests (addSearchRecord searchTerm record) (fun _ => True).
Proof.
  unfold addSearchRecord.
  quiet_bind; [apply (moves_getResults sameRequests sameRequests_refl) | ].
  intros current _. destruct (existsb _ current); [quiet_ret | ].
  destruct (isType (sr_type record) "ApexClass"); [apply sameRequests_push | ].
  destruct (isType (sr_type record) "ApexTrigger"); [apply sameRequests_push | quiet_ret].
Qed.

Lemma quiet_scanXmlLines searchTerm xmlLines rest lineIndex xmlMatchCount locals :
  moves sameRequests
    (scanXmlLines searchTerm xmlLines rest lineIndex xmlMatchCount locals) (fun _ => True).
Proof.
  revert lineIndex xmlMatchCount locals.
  induction rest as [ | ln rest' IH]; intros lineIndex xmlMatchCount locals;
    cbn [scanXmlLines].
  - quiet_ret.
  - destruct (xmlMatchCount <? maxXmlMatches)%nat; [ | quiet_ret].
    quiet_bind; [quiet_test | ]. intros hit _. destruct hit; apply IH.
Qed.

Lemma quiet_emits {A} (m : Exec A) (Q : A -> Prop) : moves sameRequests m Q -> emits m [].
Proof. intros H st. rewrite app_nil_r. apply (H st). Qed.

Lemma emits_bind_quiet {A B} (m : Exec A) (k : A -> Exec B) (sent : list Request) :
  emits m sent -> (forall a, emits (k a) []) -> emits (bind m k) sent.
Proof.
  intros Hm Hk st. unfold bind. specialize (Hm st).
  destruct (m st) as [[e | a] st1]; cbn in *; [exact Hm | ].
  rewrite (Hk a st1), app_nil_r. exact Hm.
Qed.

Lemma emits_bind_total {A B} (m : Exec A) (k : A -> Exec B) (sent sent' : list Request) :
  emits m sent -> total m -> (forall a, emits (k a) sent') ->
  emits (bind m k) (sent ++ sent')%list.
Proof.
  intros Hm Ht Hk st. unfold bind. specialize (Hm st). destruct (Ht st) as [a Ha].
  destruct (m st) as [[e | a'] st1]; cbn in *; [discriminate Ha | ].
  rewrite (Hk a' st1), Hm, app_assoc. reflexivity.
Qed.

Lemma emits_tryCatch {A} (body : Exec A) (handler : Thrown -> Exec A) (sent : list Request) :
  emits body sent -> (forall e, emits (handler e) []) -> emits (tryCatch body handler) sent.
Proof.
  intros Hb Hh st. unfold tryCatch. specialize (Hb st).
  destruct (body st) as [[e | a] st1]; cbn in *; [ | exact Hb].
  rewrite (Hh e st1), app_nil_r. exact Hb.
Qed.

Lemma emits_forEach_quiet {A} (xs : list A) (body : A -> Exec unit) :
  (forall x, emits (body x) []) -> emits (forEach xs body) [].
Proof.
  intros Hb. induction xs as [ | x rest IH]; cbn [forEach].
  - intros st. rewrite app_nil_r. reflexivity.
  - apply emits_bind_quiet; [apply Hb | intros _; exact IH].
Qed.

Lemma emits_forEach_total {A} (xs : list A) (body : A -> Exec unit)
    (sent : A -> list Request) :
  (forall x, emits (body x) (sent x)) -> (forall x, total (body x)) ->
  emits (forEach xs body) (flat_map sent xs).
Proof.
  intros Hb Ht. induction xs as [ | x rest IH]; cbn [forEach flat_map].
  - intros st. rewrite app_nil_r. reflexivity.
  - apply emits_bind_total; [apply Hb | apply Ht | intros _; exact IH].
Qed.

Lemma emits_branchCatch (e : Thrown) : emits (branchCatch e) [].
Proof.
  intros st. rewrite app_nil_r. unfold branchCatch.
  destruct (isTokenExpired e); reflexivity.
Qed.

Lemma emits_recordsOf {A} (result : option (list A)) : emits (recordsOf result) [].
Proof. intros st. rewrite app_nil_r. destruct result; reflexivity. Qed.

Lemma emits_toolingQuery {A} cleanInstanceUrl accessToken soql timeout
    (answer : Fetched (QueryJson A)) :
  emits (toolingQuery cleanInstanceUrl accessToken soql timeout answer)
    [jsonRequest accessToken (mkUrl cleanInstanceUrl (ToolingQuery soql)) (Some timeout)].
Proof.
  intros st.
  apply toolingQuery_requests.
Qed.

Lemma emits_fetch {A} (req : Request) (answer : Fetched A) : emits (fetch req answer) [req].
Proof. intros st. unfold fetch. destruct answer; reflexivity. Qed.

(** A branch built on [toolingQuery] whose scan sends nothing. *)
Lemma emits_toolingBranch {A} cleanInstanceUrl accessToken soql timeout
    (answer : Fetched (QueryJson A)) (scan : A -> Exec unit) :
  (forall x, emits (scan x) []) ->
  emits (tryCatch
           (result <- toolingQuery cleanInstanceUrl accessToken soql timeout answer ;;
            records <- recordsOf result ;;
            forEach records scan) branchCatch)
    [jsonRequest accessToken (mkUrl cleanInstanceUrl (ToolingQuery soql)) (Some timeout)].
Proof.
  intros Hscan. apply emits_tryCatch; [ | apply emits_branchCatch].
  apply emits_bind_quiet; [apply emits_toolingQuery | ]. intros result.
  intros st. apply (emits_bind_quiet (recordsOf result) _ []);
    [apply emits_recordsOf | ].
  intros records. apply emits_forEach_quiet. exact Hscan.
Qed.

Lemma emits_ret_bind {A B} (a : A) (k : A -> Exec B) (sent : list Request) :
  emits (k a) sent -> emits (bind (ret a) k) sent.
Proof. intros H st. exact (H st). Qed.

Lemma emits_bind_cases {A B} (m : Exec A) (k : A -> Exec B) (sent after : list Request) :
  (forall st,
     requests (snd (m st)) = (requests st ++ sent)%list
     /\ match fst (m st) with
        | inl _ => after = []
        | inr a => emits (k a) after
        end) ->
  emits (bind m k) (sent ++ after)%list.
Proof.
  intros Hm st. unfold bind. destruct (Hm st) as [Hreq Hfst].
  destruct (m st) as [[e | a] st1]; cbn in *.
  - rewrite Hfst, app_nil_r. exact Hreq.
  - rewrite (Hfst st1), Hreq, app_assoc. reflexivity.
Qed.

Lemma flat_map_batchesOf3 {A B} (f : A -> B) (l : list A) :
  flat_map (map f) (batchesOf3 l) = map f l.
Proof.
  assert (forall n (l : list A), (List.length l <= n)%nat ->
            flat_map (map f) (batchesOf3 l) = map f l) as Hall.
  { intros n. induction n as [ | n IH]; intros l' Hlen.
    - destruct l'; [reflexivity | cbn in Hlen; lia].
    - destruct l' as [ | a [ | b [ | c rest]]]; try reflexivity.
      cbn [batchesOf3 flat_map map app]. rewrite IH; [reflexivity | ].
      cbn [List.length] in Hlen. lia. }
  apply (Hall (List.length l)). lia.
Qed.

Section BranchRequests.

Variable env : Transport.
Variables cleanInstanceUrl accessToken searchTerm : string.

Lemma emits_flowDocumentScan flow locals :
  emits (flowDocumentScan env cleanInstanceUrl accessToken searchTerm flow locals)
    [flowDocumentRequest cleanInstanceUrl accessToken flow].
Proof.
  unfold flowDocumentScan. apply emits_bind_quiet.
  - apply emits_tryCatch.
    + apply emits_bind_quiet; [apply emits_fetch | ]. intros xmlResponse.
      apply (quiet_emits _ (fun _ => True)).
      destruct xmlResponse as [xmlContent | status errorText]; [ | quiet_ret].
      quiet_bind; [quiet_test | ]. intros hit _.
      destruct hit; [apply quiet_scanXmlLines | quiet_ret].
    + intros xmlError. apply (quiet_emits _ (fun _ => True)). quiet_ret.
  - intros locals'. apply (quiet_emits _ (fun _ => True)).
    destruct (0 <? List.length (flowMatches locals'))%nat;
      [apply sameRequests_push | quiet_ret].
Qed.

Lemma quiet_flowNameMatch flow :
  moves sameRequests (flowNameMatch searchTerm flow) (fun _ => True).
Proof.
  unfold flowNameMatch. destruct (flow_MasterLabel flow) as [masterLabel | ]; [ | quiet_ret].
  quiet_bind; [quiet_test | ]. intros hit _. destruct hit; quiet_ret.
Qed.

(** The first half of a batch sends nothing and hands every flow of the
    batch on, in order. *)
Lemma mapExec_started (batch : list Flow) (st : Shared) :
  exists started st1,
    mapExec (fun flow =>
               locals <- tryCatch (flowNameMatch searchTerm flow)
                           (fun flowError => ret (mkFlowLocals [] 0)) ;;
               ret (flow, locals)) batch st = (inr started, st1)
    /\ map fst started = batch /\ requests st1 = requests st.
Proof.
  set (start := fun flow : Flow =>
         locals <- tryCatch (flowNameMatch searchTerm flow)
                     (fun flowError => ret (mkFlowLocals [] 0)) ;;
         ret (flow, locals)).
  assert (forall flow st0, exists locals st1,
            start flow st0 = (inr (flow, locals), st1)
            /\ requests st1 = requests st0) as Hhead.
  { intros flow st0. unfold start, bind, tryCatch, ret.
    pose proof (quiet_flowNameMatch flow st0) as [Hsame _].
    destruct (flowNameMatch searchTerm flow st0) as [[e | locals] st1]; cbn [snd] in Hsame;
      eexists _, _; (split; [reflexivity | exact Hsame]). }
  revert st. induction batch as [ | flow rest IH]; intros st; cbn [mapExec].
  - exists [], st. repeat split.
  - destruct (Hhead flow st) as (locals & st1 & Hrun1 & Hsame).
    destruct (IH st1) as (started & st2 & Hrun & Hfst & Hreq).
    exists ((flow, locals) :: started), st2. unfold bind. rewrite Hrun1, Hrun.
    unfold ret. cbn [map fst]. rewrite Hfst, Hreq, Hsame. repeat split.
Qed.

Lemma emits_flowBatch batch :
  emits (flowBatch env cleanInstanceUrl accessToken searchTerm batch)
    (map (flowDocumentRequest cleanInstanceUrl accessToken) batch).
Proof.
  intros st. unfold flowBatch. unfold bind at 1.
  destruct (mapExec_started batch st) as (started & st1 & Hrun & Hfst & Hreq).
  rewrite Hrun.
  rewrite (emits_forEach_total started _
             (fun fl => [flowDocumentRequest cleanInstanceUrl accessToken (fst fl)])).
  - rewrite Hreq. f_equal. rewrite <- Hfst. clear.
    induction started as [ | fl rest IH]; [reflexivity | ].
    cbn [flat_map map app]. rewrite IH. reflexivity.
  - intros fl. apply emits_tryCatch; [apply emits_flowDocumentScan | ].
    intros e. apply (quiet_emits _ (fun _ => True)). quiet_ret.
  - intros fl. apply total_tryCatch. intros e. apply total_ret.
Qed.

Lemma emits_flowBranch :
  emits (flowBranch env cleanInstanceUrl accessToken searchTerm)
    (branchRequests env cleanInstanceUrl accessToken searchTerm Flows).
Proof.
  unfold flowBranch. apply emits_tryCatch; [ | apply emits_branchCatch].
  cbn [branchRequests].
  apply (emits_bind_cases _ _
           [jsonRequest accessToken (mkUrl cleanInstanceUrl (ToolingQuery flowQuery))
              (Some 15000%Z)]
           (map (flowDocumentRequest cleanInstanceUrl accessToken) (flowsReturned env))).
  intros st.
  split; [apply toolingQuery_requests | ].
  rewrite toolingQuery_completion. unfold flowsReturned.
  assert (emits (flows <- recordsOf (Some (@nil Flow)) ;;
                 forEach (batchesOf3 flows)
                   (flowBatch env cleanInstanceUrl accessToken searchTerm)) []) as Hnone.
  { apply emits_ret_bind. intros st'. rewrite app_nil_r. reflexivity. }
  destruct (flowAnswer env) as [[ | | flows] | status errorText | | ]; cbn [map];
    try exact Hnone.
  - apply emits_ret_bind. rewrite <- flat_map_batchesOf3.
    apply emits_forEach_total; [apply emits_flowBatch | apply total_flowBatch].
  - destruct (Nat.eqb status 401 && isTokenExpired (handleApiError status errorText));
      [reflexivity | exact Hnone].
Qed.

Lemma emits_runBranch (b : Branch) :
  emits (runBranch env cleanInstanceUrl accessToken searchTerm b)
    (branchRequests env cleanInstanceUrl accessToken searchTerm b).
Proof.
  destruct b; cbn [runBranch branchRequests].
  - apply emits_toolingBranch. intros cls.
    apply (quiet_emits _ _ (quiet_scanApexClass searchTerm cls)).
  - apply emits_toolingBranch. intros trigger.
    apply (quiet_emits _ _ (quiet_scanApexTrigger searchTerm trigger)).
  - apply emits_flowBranch.
  - apply emits_toolingBranch. intros bundle.
    apply (quiet_emits _ _ (quiet_scanBundle searchTerm lwcKind bundle)).
  - apply emits_toolingBranch. intros bundle.
    apply (quiet_emits _ _ (quiet_scanBundle searchTerm auraKind bundle)).
  - apply emits_toolingBranch. intros rule.
    apply (quiet_emits _ _ (quiet_scanValidationRule searchTerm rule)).
  - apply emits_toolingBranch. intros layout.
    apply (quiet_emits _ _ (quiet_scanLayout searchTerm layout)).
  - unfold recordTypeBranch. apply emits_tryCatch; [ | apply emits_branchCatch].
    apply emits_bind_quiet; [apply emits_fetch | ]. intros response.
    destruct response as [[ | | recordTypes] | status errorText];
      try (intros st; rewrite app_nil_r; reflexivity).
    apply emits_forEach_quiet. intros recordType.
    apply (quiet_emits _ _ (quiet_scanRecordType searchTerm recordType)).
  - unfold soslBranch. apply emits_tryCatch; [ | apply emits_branchCatch].
    apply emits_bind_quiet; [apply emits_fetch | ]. intros response.
    destruct response as [[ | | searchRecords] | status errorText];
      try (intros st; rewrite app_nil_r; reflexivity).
    apply emits_forEach_quiet. intros record.
    apply (quiet_emits _ _ (quiet_addSearchRecord searchTerm record)).
Qed.

Lemma emits_allSettled (order : list Branch) :
  emits (allSettled (runBranch env cleanInstanceUrl accessToken searchTerm) order)
    (flat_map (branchRequests env cleanInstanceUrl accessToken searchTerm) order).
Proof.
  induction order as [ | b rest IH]; cbn [allSettled flat_map].
  - intros st. rewrite app_nil_r. reflexivity.
  - intros st. unfold bind at 1. unfold settle.
    pose proof (emits_runBranch b st) as Hb.
    destruct (runBranch env cleanInstanceUrl accessToken searchTerm b st)
      as [[e | v] st1]; cbn [snd] in Hb.
    + rewrite (emits_bind_quiet _ _ _ IH); [ | intros o st'; rewrite app_nil_r; reflexivity].
      rewrite Hb, app_assoc. reflexivity.
    + rewrite (emits_bind_quiet _ _ _ IH); [ | intros o st'; rewrite app_nil_r; reflexivity].
      rewrite Hb, app_assoc. reflexivity.
Qed.

End BranchRequests.

Lemma firstOccurrences_NoDup (seen l : list Branch) :
  NoDup (firstOccurrences seen l)
  /\ forall b, In b (firstOccurrences seen l) -> existsb (Branch_eqb b) seen = false.
Proof.
  revert seen. induction l as [ | x rest IH]; intros seen; cbn [firstOccurrences].
  - split; [constructor | intros b []].
  - destruct (existsb (Branch_eqb x) seen) eqn:Ex; [apply IH | ].
    destruct (IH (x :: seen)) as [Hnd Hout]. split.
    + constructor; [ | exact Hnd]. intros Hin. apply Hout in Hin. cbn in Hin.
      assert (Branch_eqb x x = true) as Hx by (apply Branch_eqb_eq; reflexivity).
      rewrite Hx in Hin. discriminate Hin.
    + intros b [<- | Hin]; [exact Ex | ]. apply Hout in Hin. cbn in Hin.
      apply orb_false_iff in Hin. apply Hin.
Qed.

(** Every branch is resumed exactly once. *)
Lemma settleOrder_permutation (order : list Branch) :
  Permutation (settleOrder order) searchPromises.
Proof.
  apply NoDup_Permutation.
  - apply firstOccurrences_NoDup.
  - unfold searchPromises. repeat constructor; cbn; intuition discriminate.
  - intros b. split; intros _; [destruct b; cbn; tauto | apply settleOrder_complete].
Qed.

Lemma searchCodeContent_issued localeCompare env order instanceUrl accessToken searchTerm :
  issued (searchCodeContent localeCompare env order instanceUrl accessToken searchTerm)
  = if invalidParameters instanceUrl accessToken searchTerm then []
    else requests (settledState env order instanceUrl accessToken searchTerm).
Proof.
  unfold searchCodeContent, settledState.
  fold (invalidParameters instanceUrl accessToken searchTerm).
  destruct (invalidParameters instanceUrl accessToken searchTerm); [reflexivity | ].
  unfold tryCatch, bind.
  destruct (allSettled _ (settleOrder order) initialShared) as [[e | o] st];
    [reflexivity | ].
  cbn [snd].
  pose proof (rethrowTokenExpired_state o st) as Hst.
  destruct (rethrowTokenExpired o st) as [[e | u] st']; cbn in Hst; subst st'; reflexivity.
Qed.

Lemma settledState_requests env order instanceUrl accessToken searchTerm :
  Permutation (requests (settledState env order instanceUrl accessToken searchTerm))
    (flat_map (branchRequests env (stripTrailingSlash instanceUrl) accessToken searchTerm)
       searchPromises).
Proof.
  unfold settledState. rewrite emits_allSettled. cbn [initialShared requests app].
  apply Permutation_flat_map. apply settleOrder_permutation.
Qed.

Lemma branchRequests_addressed env cleanInstanceUrl accessToken searchTerm (b : Branch) :
  Forall (addressed cleanInstanceUrl accessToken)
    (branchRequests env cleanInstanceUrl accessToken searchTerm b).
Proof.
  assert (forall soql t,
            addressed cleanInstanceUrl accessToken
              (jsonRequest accessToken (mkUrl cleanInstanceUrl (ToolingQuery soql)) (Some t)))
    as Htooling.
  { intros soql t. repeat split; cbn.
    - intros Hnone. discriminate Hnone.
    - intros Hno. exfalso. apply (Hno soql). reflexivity. }
  destruct b; cbn [branchRequests]; try (constructor; [apply Htooling | constructor]).
  - constructor; [apply Htooling | ]. apply Forall_forall. intros r Hin.
    apply in_map_iff in Hin. destruct Hin as (flow & <- & _).
    repeat split; cbn; intros; discriminate.
  - constructor; [ | constructor]. repeat split; cbn; intros; discriminate.
  - constructor; [ | constructor]. repeat split; cbn; intros; discriminate.
Qed.

(** X9. A search with valid parameters sends one request per branch and,
    besides, one document request per flow record that the flow query
    answered with: nine requests and one per flow, whatever the other
    answers are, whatever matches, and in whatever order the branches
    settle. *)
Theorem valid_search_sends_nine_requests_and_one_per_flow
    localeCompare env order instanceUrl accessToken searchTerm :
  invalidParameters instanceUrl accessToken searchTerm = false ->
  let sent :=
    issued (searchCodeContent localeCompare env order instanceUrl accessToken searchTerm) in
  Permutation sent
    (flat_map (branchRequests env (stripTrailingSlash instanceUrl) accessToken searchTerm)
       searchPromises)
  /\ List.length sent = (9 + List.length (flowsReturned env))%nat.
Proof.
  intros Hvalid sent. unfold sent. rewrite searchCodeContent_issued, Hvalid.
  pose proof (settledState_requests env order instanceUrl accessToken searchTerm) as Hperm.
  split; [exact Hperm | ].
  rewrite (Permutation_length Hperm). cbn [searchPromises flat_map branchRequests].
  repeat rewrite length_app. cbn [List.length]. rewrite length_map. lia.
Qed.

Lemma valid_search_requests_witness :
  invalidParameters sampleUrl sampleToken "Account" = false
  /\ List.length
       (issued (searchCodeContent ordinalCompare sampleOrg [Sosl; Flows] sampleUrl
                  sampleToken "Account"))
     = (9 + List.length (flowsReturned sampleOrg))%nat.
Proof.
  split; [reflexivity | ].
  apply (valid_search_sends_nine_requests_and_one_per_flow ordinalCompare sampleOrg
           [Sosl; Flows] sampleUrl sampleToken "Account").
  reflexivity.
Defined.

(** X10. Every request that a search sends carries the caller's token as a
    bearer token and goes to the instance URL without its trailing slash;
    it has a timeout exactly when it is a tooling query, so that the
    record-type query, the SOSL search and the flow documents are fetched
    without one. *)
Theorem every_request_is_addressed
    localeCompare env order instanceUrl accessToken searchTerm :
  Forall (addressed (stripTrailingSlash instanceUrl) accessToken)
    (issued (searchCodeContent localeCompare env order instanceUrl accessToken searchTerm)).
Proof.
  rewrite searchCodeContent_issued.
  destruct (invalidParameters instanceUrl accessToken searchTerm); [constructor | ].
  apply (Permutation_Forall
           (Permutation_sym
              (settledState_requests env order instanceUrl accessToken searchTerm))).
  apply Forall_flat_map. apply Forall_forall. intros b _.
  apply branchRequests_addressed.
Qed.

(** ** [fetchFieldMetadata] *)

Arguments Task.ret : simpl never.
Arguments Task.bind : simpl never.
Arguments Task.throw : simpl never.
Arguments Task.tryCatch : simpl never.
Arguments Metadata.push : simpl never.
Arguments Metadata.fetch : simpl never.
Arguments Metadata.toolingQuery : simpl never.

Lemma appends_ret : appends (Task.ret tt) [] [].
Proof. intros st. unfold Task.ret. rewrite !app_nil_r. destruct st; reflexivity. Qed.

Lemma appends_push (r : Metadata.MetadataReference) : appends (Metadata.push r) [] [r].
Proof. intros st. unfold Metadata.push. rewrite app_nil_r. reflexivity. Qed.

Lemma appends_bind (m k : Metadata.Run unit) sent sent' pushed pushed' :
  appends m sent pushed -> appends k sent' pushed' ->
  appends (Task.bind m (fun _ => k)) (sent ++ sent')%list (pushed ++ pushed')%list.
Proof.
  intros Hm Hk st. unfold Task.bind. rewrite Hm, Hk. cbn [Metadata.refs Metadata.calls].
  rewrite !app_assoc. reflexivity.
Qed.

Lemma appends_forEach {A} (xs : list A) (body : A -> Metadata.Run unit)
    (entries : A -> list Metadata.MetadataReference) :
  (forall x, appends (body x) [] (entries x)) ->
  appends (Task.forEach xs body) [] (flat_map entries xs).
Proof.
  intros Hbody. induction xs as [ | x rest IH]; cbn [Task.forEach flat_map].
  - apply appends_ret.
  - apply (appends_bind _ _ [] [] _ _ (Hbody x) IH).
Qed.

Lemma appends_forEach_push {A} (xs : list A) (entry : A -> Metadata.MetadataReference) :
  appends (Task.forEach xs (fun x => Metadata.push (entry x))) [] (map entry xs).
Proof.
  assert (map entry xs = flat_map (fun x => [entry x]) xs) as ->.
  { induction xs as [ | x rest IH]; [reflexivity | ]. cbn. rewrite IH. reflexivity. }
  apply appends_forEach. intros x. apply appends_push.
Qed.

Lemma oneMention_mention fieldName id fileName type context :
  In type metadataTypes ->
  oneMention fieldName
    (Metadata.mkMetadataReference id fileName type (Metadata.mention fieldName context)).
Proof. intros Htype. split; [exists context; reflexivity | exact Htype]. Qed.

Lemma rowsOf_orNoRows {A} (answer : Fetched (QueryJson A)) :
  rowsOf (orNoRows answer) = rowsOf answer.
Proof. reflexivity. Qed.

Section MetadataSections.

Variable env : Transport.
Variables cleanInstanceUrl accessToken objectName fieldName : string.

(** A section built on the local [toolingQuery]: whatever the answer, the
    request leaves, the rows of an answer that has some are pushed, and the
    section completes normally. *)
Lemma toolingSection_appends {A} (q : string) (answer : Fetched (QueryJson A))
    (entry : A -> Metadata.MetadataReference) :
  appends
    (Task.tryCatch
       (Task.bind (Metadata.toolingQuery cleanInstanceUrl accessToken q answer)
          (fun records => Metadata.forOf records (fun r => Metadata.push (entry r))))
       Metadata.logged)
    [jsonRequest accessToken (mkUrl cleanInstanceUrl (ToolingQuery q)) None]
    (map entry (rowsOf answer)).
Proof.
  intros st.
  unfold Task.tryCatch, Task.bind at 1, Metadata.toolingQuery, Task.bind, Metadata.fetch.
  destruct answer as [[ | | rows] | status errorText | | ];
    cbn [rowsOf map Metadata.forOf Task.forEach]; unfold Task.ret, Task.throw,
    Metadata.logged;
    cbn [Metadata.refs Metadata.calls]; rewrite ?app_nil_r; try reflexivity.
  unfold Metadata.forOf. rewrite (appends_forEach_push rows entry).
  cbn [Metadata.refs Metadata.calls]. rewrite app_nil_r. reflexivity.
Qed.

Lemma toolingSection_facts {A} (q : string) (answer : Fetched (QueryJson A))
    (entry : A -> Metadata.MetadataReference) :
  (forall r, oneMention fieldName (entry r)) ->
  sectionFacts
    (Task.tryCatch
       (Task.bind (Metadata.toolingQuery cleanInstanceUrl accessToken q answer)
          (fun records => Metadata.forOf records (fun r => Metadata.push (entry r))))
       Metadata.logged)
    (Task.tryCatch
       (Task.bind (Metadata.toolingQuery cleanInstanceUrl accessToken q (orNoRows answer))
          (fun records => Metadata.forOf records (fun r => Metadata.push (entry r))))
       Metadata.logged)
    cleanInstanceUrl accessToken fieldName ToolingCall.
Proof.
  intros Hentry.
  exists (jsonRequest accessToken (mkUrl cleanInstanceUrl (ToolingQuery q)) None),
         (map entry (rowsOf answer)).
  split; [apply toolingSection_appends | ].
  split; [rewrite <- (rowsOf_orNoRows answer); apply toolingSection_appends | ].
  split; [repeat split | ]. split; [reflexivity | ].
  apply Forall_forall. intros r Hin. apply in_map_iff in Hin.
  destruct Hin as (x & <- & _). apply Hentry.
Qed.

Lemma apexClassSection_facts :
  sectionFacts (Metadata.apexClassSection env cleanInstanceUrl accessToken fieldName)
    (Metadata.apexClassSection (withoutFailures env) cleanInstanceUrl accessToken fieldName)
    cleanInstanceUrl accessToken fieldName ToolingCall.
Proof.
  unfold Metadata.apexClassSection. cbn [withoutFailures apexClassAnswer].
  apply toolingSection_facts. intros r. apply oneMention_mention; cbn; tauto.
Qed.

Lemma apexTriggerSection_facts :
  sectionFacts (Metadata.apexTriggerSection env cleanInstanceUrl accessToken fieldName)
    (Metadata.apexTriggerSection (withoutFailures env) cleanInstanceUrl accessToken
       fieldName)
    cleanInstanceUrl accessToken fieldName ToolingCall.
Proof.
  unfold Metadata.apexTriggerSection. cbn [withoutFailures apexTriggerAnswer].
  apply toolingSection_facts. intros r. apply oneMention_mention; cbn; tauto.
Qed.

Lemma auraSection_facts :
  sectionFacts (Metadata.auraSection env cleanInstanceUrl accessToken fieldName)
    (Metadata.auraSection (withoutFailures env) cleanInstanceUrl accessToken fieldName)
    cleanInstanceUrl accessToken fieldName ToolingCall.
Proof.
  unfold Metadata.auraSection. cbn [withoutFailures auraAnswer].
  apply toolingSection_facts. intros r. apply oneMention_mention; cbn; tauto.
Qed.

Lemma lwcSection_facts :
  sectionFacts (Metadata.lwcSection env cleanInstanceUrl accessToken fieldName)
    (Metadata.lwcSection (withoutFailures env) cleanInstanceUrl accessToken fieldName)
    cleanInstanceUrl accessToken fieldName ToolingCall.
Proof.
  unfold Metadata.lwcSection. cbn [withoutFailures lwcAnswer].
  apply toolingSection_facts. intros r. apply oneMention_mention; cbn; tauto.
Qed.

Lemma validationRuleSection_facts :
  sectionFacts
    (Metadata.validationRuleSection env cleanInstanceUrl accessToken objectName fieldName)
    (Metadata.validationRuleSection (withoutFailures env) cleanInstanceUrl accessToken
       objectName fieldName)
    cleanInstanceUrl accessToken fieldName ToolingCall.
Proof.
  unfold Metadata.validationRuleSection. cbn [withoutFailures validationRuleAnswer].
  apply toolingSection_facts. intros r. apply oneMention_mention; cbn; tauto.
Qed.

Lemma layoutSection_facts :
  sectionFacts (Metadata.layoutSection env cleanInstanceUrl accessToken objectName fieldName)
    (Metadata.layoutSection (withoutFailures env) cleanInstanceUrl accessToken objectName
       fieldName)
    cleanInstanceUrl accessToken fieldName ToolingCall.
Proof.
  unfold Metadata.layoutSection. cbn [withoutFailures layoutAnswer].
  apply toolingSection_facts. intros r. apply oneMention_mention; cbn; tauto.
Qed.

(** A section built on a plain [fetch]. *)
Lemma fetchSection_appends {A} (req : Request) (answer : Fetched (QueryJson A))
    (onMissing : Metadata.Run unit) (body : A -> Metadata.Run unit)
    (entries : A -> list Metadata.MetadataReference) :
  (forall x, appends (body x) [] (entries x)) ->
  (forall st, onMissing st = (inr tt, st) \/ exists e, onMissing st = (inl e, st)) ->
  appends
    (Task.tryCatch
       (Task.bind (Metadata.fetch req answer)
          (fun res =>
             match res with
             | Good Unparsable => Task.throw (Error "SyntaxError")
             | Good Missing => onMissing
             | Good (Records records) => Task.forEach records body
             | Bad _ _ => Task.ret tt
             end))
       Metadata.logged)
    [req] (flat_map entries (rowsOf answer)).
Proof.
  intros Hbody Hmissing st.
  unfold Task.tryCatch, Task.bind, Metadata.fetch.
  destruct answer as [[ | | rows] | status errorText | | ];
    cbn [rowsOf flat_map]; unfold Task.ret, Task.throw, Metadata.logged;
    cbn [Metadata.refs Metadata.calls]; rewrite ?app_nil_r; try reflexivity.
  - match goal with
    | |- context [onMissing ?s] => destruct (Hmissing s) as [-> | [e ->]]
    end; cbn [Metadata.refs Metadata.calls]; reflexivity.
  - rewrite (appends_forEach rows body entries Hbody).
    cbn [Metadata.refs Metadata.calls]. rewrite app_nil_r. reflexivity.
Qed.

Lemma soslSection_facts :
  sectionFacts (Metadata.soslSection env cleanInstanceUrl accessToken fieldName)
    (Metadata.soslSection (withoutFailures env) cleanInstanceUrl accessToken fieldName)
    cleanInstanceUrl accessToken fieldName SearchCall.
Proof.
  unfold Metadata.soslSection. cbn [withoutFailures soslAnswer].
  set (entries := fun r : SearchRecord =>
         if isType (sr_type r) "ApexClass" then
           [Metadata.mkMetadataReference ("apex-class-" ++ sr_Id r) (sr_Name r ++ ".cls")
              "Apex Class" (Metadata.mention fieldName "Found via SOSL")]
         else if isType (sr_type r) "ApexTrigger" then
           [Metadata.mkMetadataReference ("apex-trigger-" ++ sr_Id r)
              (sr_Name r ++ ".trigger") "Apex Trigger"
              (Metadata.mention fieldName "Found via SOSL")]
         else []).
  assert (forall x, appends
            (if isType (sr_type x) "ApexClass" then
               Metadata.push
                 (Metadata.mkMetadataReference ("apex-class-" ++ sr_Id x)
                    (sr_Name x ++ ".cls") "Apex Class"
                    (Metadata.mention fieldName "Found via SOSL"))
             else if isType (sr_type x) "ApexTrigger" then
               Metadata.push
                 (Metadata.mkMetadataReference ("apex-trigger-" ++ sr_Id x)
                    (sr_Name x ++ ".trigger") "Apex Trigger"
                    (Metadata.mention fieldName "Found via SOSL"))
             else Task.ret tt) [] (entries x)) as Hbody.
  { intros x. unfold entries. destruct (isType (sr_type x) "ApexClass");
      [apply appends_push | ].
    destruct (isType (sr_type x) "ApexTrigger"); [apply appends_push | apply appends_ret]. }
  exists (jsonRequest accessToken
            (buildSearchUrl cleanInstanceUrl fieldName ["ApexClass"; "ApexTrigger"]) None),
         (flat_map entries (rowsOf (soslAnswer env))).
  split; [apply (fetchSection_appends _ _ _ _ entries Hbody); intros st; left; reflexivity | ].
  split.
  { rewrite <- (rowsOf_orNoRows (soslAnswer env)).
    apply (fetchSection_appends _ _ _ _ entries Hbody). intros st. left. reflexivity. }
  split; [repeat split | ]. split; [reflexivity | ].
  apply Forall_forall. intros r Hin. apply in_flat_map in Hin.
  destruct Hin as (x & _ & Hin). unfold entries in Hin.
  destruct (isType (sr_type x) "ApexClass");
    [destruct Hin as [<- | []]; apply oneMention_mention; cbn; tauto | ].
  destruct (isType (sr_type x) "ApexTrigger");
    [destruct Hin as [<- | []]; apply oneMention_mention; cbn; tauto | destruct Hin].
Qed.

Lemma recordTypeSection_facts :
  sectionFacts
    (Metadata.recordTypeSection env cleanInstanceUrl accessToken objectName fieldName)
    (Metadata.recordTypeSection (withoutFailures env) cleanInstanceUrl accessToken
       objectName fieldName)
    cleanInstanceUrl accessToken fieldName DataCall.
Proof.
  unfold Metadata.recordTypeSection. cbn [withoutFailures recordTypeAnswer]. cbv zeta.
  set (q := "SELECT Id, Name, SobjectType FROM RecordType WHERE SobjectType = '"
              ++ objectName ++ "' AND Name LIKE '" ++ Metadata.likeNeedle fieldName
              ++ "' LIMIT 100").
  set (entry := fun r : RecordType =>
         Metadata.mkMetadataReference ("recordtype-" ++ rt_Id r)
           (Js.show (rt_SobjectType r) ++ "." ++ rt_Name r ++ ".recordType")
           "Record Type"
           (Metadata.mention fieldName "Standard API: RecordType.Name LIKE")).
  assert (forall x, appends (Metadata.push (entry x)) [] [entry x]) as Hbody
    by (intros x; apply appends_push).
  assert (forall st : Metadata.Locals,
            @Task.throw Metadata.Locals unit TypeError st = (inr tt, st)
            \/ exists e, @Task.throw Metadata.Locals unit TypeError st = (inl e, st))
    as Hmissing by (intros st; right; exists TypeError; reflexivity).
  exists (jsonRequest accessToken (mkUrl cleanInstanceUrl (DataQuery q)) None),
         (flat_map (fun x => [entry x]) (rowsOf (recordTypeAnswer env))).
  split; [apply (fetchSection_appends _ _ _ _ _ Hbody Hmissing) | ].
  split.
  { rewrite <- (rowsOf_orNoRows (recordTypeAnswer env)).
    apply (fetchSection_appends _ _ _ _ _ Hbody Hmissing). }
  split; [repeat split | ]. split; [reflexivity | ].
  apply Forall_forall. intros r Hin. apply in_flat_map in Hin.
  destruct Hin as (x & _ & [<- | []]). apply oneMention_mention; cbn; tauto.
Qed.

Lemma flowSection_appends (answer : Fetched (QueryJson Flow)) (q : string)
    (entry : Flow -> Metadata.MetadataReference) :
  appends
    (Task.tryCatch
       (Task.bind (Metadata.toolingQuery cleanInstanceUrl accessToken q answer)
          (fun records =>
             match records with
             | None => Task.throw TypeError
             | Some records =>
                 Task.forEach (filter (Metadata.labelHoldsTerm fieldName) records)
                   (fun r => Metadata.push (entry r))
             end))
       Metadata.logged)
    [jsonRequest accessToken (mkUrl cleanInstanceUrl (ToolingQuery q)) None]
    (map entry (filter (Metadata.labelHoldsTerm fieldName) (rowsOf answer))).
Proof.
  intros st.
  unfold Task.tryCatch, Task.bind at 1, Metadata.toolingQuery, Task.bind, Metadata.fetch.
  destruct answer as [[ | | rows] | status errorText | | ];
    cbn [rowsOf map filter Task.forEach]; unfold Task.ret, Task.throw, Metadata.logged;
    cbn [Metadata.refs Metadata.calls]; rewrite ?app_nil_r; try reflexivity.
  rewrite (appends_forEach_push (filter (Metadata.labelHoldsTerm fieldName) rows) entry).
  cbn [Metadata.refs Metadata.calls]. rewrite app_nil_r. reflexivity.
Qed.

Lemma flowSection_facts :
  sectionFacts (Metadata.flowSection env cleanInstanceUrl accessToken fieldName)
    (Metadata.flowSection (withoutFailures env) cleanInstanceUrl accessToken fieldName)
    cleanInstanceUrl accessToken fieldName ToolingCall.
Proof.
  unfold Metadata.flowSection. cbn [withoutFailures flowAnswer]. cbv zeta.
  eexists _, _.
  split; [apply flowSection_appends | ].
  split; [rewrite <- (rowsOf_orNoRows (flowAnswer env)); apply flowSection_appends | ].
  split; [repeat split | ]. split; [reflexivity | ].
  apply Forall_forall. intros r Hin. apply in_map_iff in Hin.
  destruct Hin as (x & <- & _). apply oneMention_mention; cbn; tauto.
Qed.

(** The nine sections together: nine requests, in the order of the sections,
    and the same entries as against the transport without failures. *)
Lemma sections_facts :
  exists sent pushed,
    appends (Metadata.sections env cleanInstanceUrl accessToken objectName fieldName)
      sent pushed
    /\ appends (Metadata.sections (withoutFailures env) cleanInstanceUrl accessToken
                  objectName fieldName) sent pushed
    /\ Forall (plainRequest cleanInstanceUrl accessToken) sent
    /\ map (fun r => kindOf (resource (url r))) sent = metadataCalls
    /\ Forall (oneMention fieldName) pushed.
Proof.
  destruct soslSection_facts as (r1 & p1 & A1 & B1 & H1 & K1 & M1).
  destruct apexClassSection_facts as (r2 & p2 & A2 & B2 & H2 & K2 & M2).
  destruct apexTriggerSection_facts as (r3 & p3 & A3 & B3 & H3 & K3 & M3).
  destruct auraSection_facts as (r4 & p4 & A4 & B4 & H4 & K4 & M4).
  destruct lwcSection_facts as (r5 & p5 & A5 & B5 & H5 & K5 & M5).
  destruct flowSection_facts as (r6 & p6 & A6 & B6 & H6 & K6 & M6).
  destruct validationRuleSection_facts as (r7 & p7 & A7 & B7 & H7 & K7 & M7).
  destruct recordTypeSection_facts as (r8 & p8 & A8 & B8 & H8 & K8 & M8).
  destruct layoutSection_facts as (r9 & p9 & A9 & B9 & H9 & K9 & M9).
  exists [r1; r2; r3; r4; r5; r6; r7; r8; r9],
         (p1 ++ p2 ++ p3 ++ p4 ++ p5 ++ p6 ++ p7 ++ p8 ++ p9)%list.
  split.
  { unfold Metadata.sections.
    apply (appends_bind _ _ [r1] _ _ _ A1). apply (appends_bind _ _ [r2] _ _ _ A2).
    apply (appends_bind _ _ [r3] _ _ _ A3). apply (appends_bind _ _ [r4] _ _ _ A4).
    apply (appends_bind _ _ [r5] _ _ _ A5). apply (appends_bind _ _ [r6] _ _ _ A6).
    apply (appends_bind _ _ [r7] _ _ _ A7). apply (appends_bind _ _ [r8] _ _ _ A8).
    exact A9. }
  split.
  { unfold Metadata.sections.
    apply (appends_bind _ _ [r1] _ _ _ B1). apply (appends_bind _ _ [r2] _ _ _ B2).
    apply (appends_bind _ _ [r3] _ _ _ B3). apply (appends_bind _ _ [r4] _ _ _ B4).
    apply (appends_bind _ _ [r5] _ _ _ B5). apply (appends_bind _ _ [r6] _ _ _ B6).
    apply (appends_bind _ _ [r7] _ _ _ B7). apply (appends_bind _ _ [r8] _ _ _ B8).
    exact B9. }
  split; [repeat (constructor; [assumption | ]); constructor | ].
  split; [cbn [map]; rewrite K1, K2, K3, K4, K5, K6, K7, K8, K9; reflexivity | ].
  repeat (apply Forall_app; split; [assumption | ]). assumption.
Qed.

End MetadataSections.

Lemma fetchFieldMetadata_run env instanceUrl accessToken objectName fieldName :
  exists sent,
    Metadata.fetchFieldMetadata env instanceUrl accessToken objectName fieldName
    = Metadata.mkObservation
        (Fulfilled (Metadata.uniqueRefs
                      (metadataCollected env instanceUrl accessToken objectName fieldName)))
        sent
    /\ Metadata.fetchFieldMetadata (withoutFailures env) instanceUrl accessToken objectName
         fieldName
       = Metadata.mkObservation
           (Fulfilled (Metadata.uniqueRefs
                         (metadataCollected env instanceUrl accessToken objectName
                            fieldName)))
           sent
    /\ Forall (plainRequest (stripTrailingSlash instanceUrl) accessToken) sent
    /\ map (fun r => kindOf (resource (url r))) sent = metadataCalls
    /\ Forall (oneMention fieldName)
         (metadataCollected env instanceUrl accessToken objectName fieldName).
Proof.
  destruct (sections_facts env (stripTrailingSlash instanceUrl) accessToken objectName
              fieldName) as (sent & pushed & Hrun & Hrun' & Hplain & Hkinds & Hmention).
  exists sent. unfold Metadata.fetchFieldMetadata, metadataCollected, Task.bind.
  rewrite Hrun, Hrun'. cbn [Metadata.refs Metadata.calls app snd Task.settled].
  repeat split; assumption.
Qed.


(** X12. A call of [fetchFieldMetadata] that fails counts as a call that
    found nothing: a response that is not [ok], whatever its status (401
    and an expired session included), a rejected [fetch], a body that is not
    JSON and a result without a record array all leave the observation of
    the caller as it is when the call answers with an empty array. *)
Theorem fetchFieldMetadata_failure_is_empty_answer
    env instanceUrl accessToken objectName fieldName :
  Metadata.fetchFieldMetadata env instanceUrl accessToken objectName fieldName
  = Metadata.fetchFieldMetadata (withoutFailures env) instanceUrl accessToken objectName
      fieldName.
Proof.
  destruct (fetchFieldMetadata_run env instanceUrl accessToken objectName fieldName)
    as (sent & Hrun & Hrun' & _).
  rewrite Hrun, Hrun'. reflexivity.
Qed.

(** *** The final [reduce] *)

Lemma idIs_trans (k : string) (a b : Metadata.MetadataReference) :
  idIs (Metadata.id a) b = true -> idIs k b = idIs k a.
Proof. unfold idIs. intros E. apply String.eqb_eq in E. rewrite E. reflexivity. Qed.

Lemma mergeRef_find (k : string) (acc : list Metadata.MetadataReference)
    (c : Metadata.MetadataReference) :
  find (idIs k) (Metadata.mergeRef acc c)
  = if idIs k c
    then Some (match find (idIs k) acc with
               | Some e => absorb e c
               | None => c
               end)
    else find (idIs k) acc.
Proof.
  unfold Metadata.mergeRef. fold (idIs (Metadata.id c)).
  destruct (findIndex (idIs (Metadata.id c)) acc) as [i | ] eqn:Ei.
  - destruct (findIndex_some _ _ _ Ei) as [existing [Hnth Hfind]].
    rewrite Hnth. fold (absorb existing c).
    pose proof (find_some _ _ Hfind) as [_ Hkey].
    destruct (idIs k c) eqn:Ekc.
    + assert (k = Metadata.id c) as -> by (symmetry; apply String.eqb_eq; exact Ekc).
      rewrite Hfind. apply find_setAt_hit; [exact Ei | exact Hkey].
    + assert (idIs k existing = false) as Hke
        by (rewrite (idIs_trans k c existing Hkey); exact Ekc).
      apply (find_setAt_miss _ _ _ existing); [exact Hnth | exact Hke | exact Hke].
  - apply findIndex_none in Ei. rewrite find_app_. cbn [find].
    destruct (idIs k c) eqn:Ekc.
    + assert (k = Metadata.id c) as -> by (symmetry; apply String.eqb_eq; exact Ekc).
      rewrite Ei. reflexivity.
    + destruct (find (idIs k) acc); reflexivity.
Qed.

Lemma fold_mergeRef_find (k : string) (l acc : list Metadata.MetadataReference) :
  find (idIs k) (fold_left Metadata.mergeRef l acc)
  = match find (idIs k) acc with
    | Some e => Some (fold_left absorb (filter (idIs k) l) e)
    | None => joined (filter (idIs k) l)
    end.
Proof.
  revert acc. induction l as [ | c rest IH]; intros acc; cbn [fold_left filter].
  - destruct (find (idIs k) acc); reflexivity.
  - rewrite IH, mergeRef_find.
    destruct (idIs k c); [ | reflexivity].
    destruct (find (idIs k) acc); reflexivity.
Qed.

Lemma uniqueRefs_find (k : string) (l : list Metadata.MetadataReference) :
  find (idIs k) (Metadata.uniqueRefs l) = joined (filter (idIs k) l).
Proof. unfold Metadata.uniqueRefs. rewrite fold_mergeRef_find. reflexivity. Qed.

Lemma mergeRef_ids_NoDup (acc : list Metadata.MetadataReference)
    (c : Metadata.MetadataReference) :
  NoDup (map Metadata.id acc) -> NoDup (map Metadata.id (Metadata.mergeRef acc c)).
Proof.
  intros Hacc. unfold Metadata.mergeRef. fold (idIs (Metadata.id c)).
  destruct (findIndex (idIs (Metadata.id c)) acc) as [i | ] eqn:Ei.
  - destruct (findIndex_some _ _ _ Ei) as [existing [Hnth _]]. rewrite Hnth.
    rewrite (map_setAt Metadata.id acc i existing); [exact Hacc | exact Hnth | reflexivity].
  - apply findIndex_none in Ei. rewrite map_app. cbn [map].
    apply Permutation_NoDup with (l := Metadata.id c :: map Metadata.id acc).
    + apply Permutation_cons_append.
    + constructor; [ | exact Hacc].
      intros Hin. apply in_map_iff in Hin as [x [Hx Hin]].
      pose proof (find_none _ _ Ei x Hin) as Hk. unfold idIs in Hk.
      rewrite Hx, String.eqb_refl in Hk. discriminate Hk.
Qed.

Lemma uniqueRefs_ids_NoDup (l : list Metadata.MetadataReference) :
  NoDup (map Metadata.id (Metadata.uniqueRefs l)).
Proof.
  unfold Metadata.uniqueRefs.
  assert (forall acc, NoDup (map Metadata.id acc) ->
                      NoDup (map Metadata.id (fold_left Metadata.mergeRef l acc))) as H.
  { induction l as [ | c rest IH]; intros acc Hacc; cbn [fold_left]; [exact Hacc | ].
    apply IH, mergeRef_ids_NoDup, Hacc. }
  apply H. constructor.
Qed.

Lemma fold_absorb (rest : list Metadata.MetadataReference)
    (first : Metadata.MetadataReference) :
  fold_left absorb rest first
  = Metadata.mkMetadataReference (Metadata.id first) (Metadata.fileName first)
      (Metadata.type first)
      (Metadata.references first ++ flat_map Metadata.references rest)%list.
Proof.
  revert first. induction rest as [ | c rest IH]; intros first; cbn [fold_left flat_map].
  - rewrite app_nil_r. destruct first; reflexivity.
  - rewrite IH. unfold absorb. cbn. rewrite <- app_assoc. reflexivity.
Qed.

(** What an entry of the deduplicated list is made of. *)
Lemma uniqueRefs_entry (l : list Metadata.MetadataReference)
    (r : Metadata.MetadataReference) :
  In r (Metadata.uniqueRefs l) ->
  exists first rest,
    sameId r l = first :: rest
    /\ r = Metadata.mkMetadataReference (Metadata.id first) (Metadata.fileName first)
             (Metadata.type first) (flat_map Metadata.references (first :: rest)).
Proof.
  intros Hin.
  pose proof (find_unique Metadata.id _ r (uniqueRefs_ids_NoDup l) Hin) as Hfind.
  fold (idIs (Metadata.id r)) in Hfind. rewrite uniqueRefs_find in Hfind.
  unfold sameId. fold (idIs (Metadata.id r)).
  destruct (filter (idIs (Metadata.id r)) l) as [ | first rest]; [discriminate Hfind | ].
  cbn [joined] in Hfind. injection Hfind as Hr. rewrite fold_absorb in Hr.
  exists first, rest. split; [reflexivity | ]. symmetry. exact Hr.
Qed.

(** X13. The final [reduce] groups the collected entries by id: the ids of
    its result are pairwise distinct; every entry of the result stands for
    the collected entries that have its id, taking the file name and the
    type of the first of them and the references of all of them, in the
    order they were collected and without removing any; and every collected
    id is present. *)
Theorem uniqueRefs_groups_by_id (l : list Metadata.MetadataReference) :
  NoDup (map Metadata.id (Metadata.uniqueRefs l))
  /\ (forall r, In r (Metadata.uniqueRefs l) ->
        exists first rest,
          sameId r l = first :: rest
          /\ Metadata.fileName r = Metadata.fileName first
          /\ Metadata.type r = Metadata.type first
          /\ Metadata.references r = flat_map Metadata.references (sameId r l))
  /\ (forall x, In x l -> In (Metadata.id x) (map Metadata.id (Metadata.uniqueRefs l))).
Proof.
  split; [apply uniqueRefs_ids_NoDup | ]. split.
  - intros r Hin. destruct (uniqueRefs_entry l r Hin) as (first & rest & Hsame & Hr).
    exists first, rest. rewrite Hsame, Hr. repeat split.
  - intros x Hin.
    pose proof (uniqueRefs_find (Metadata.id x) l) as Hfind.
    destruct (filter (idIs (Metadata.id x)) l) as [ | first rest] eqn:Hgroup.
    + assert (In x (filter (idIs (Metadata.id x)) l)) as Hx.
      { apply filter_In. split; [exact Hin | ]. unfold idIs. apply String.eqb_refl. }
      rewrite Hgroup in Hx. destruct Hx.
    + cbn [joined] in Hfind. apply find_some in Hfind. destruct Hfind as [Hr Hid].
      unfold idIs in Hid. apply String.eqb_eq in Hid. rewrite <- Hid.
      apply in_map. exact Hr.
Qed.

(** X14. Every entry that [fetchFieldMetadata] returns has at least one
    reference, and each of its references is at line 1 and has as snippet
    the field name between two ellipses: the function reports where a name
    matched, never a line of the component. *)
Theorem fetchFieldMetadata_entries_mention_the_field
    env instanceUrl accessToken objectName fieldName (value : list Metadata.MetadataReference) :
  Metadata.returned
    (Metadata.fetchFieldMetadata env instanceUrl accessToken objectName fieldName)
  = Fulfilled value ->
  Forall (mentionsOnly fieldName) value.
Proof.
  destruct (fetchFieldMetadata_run env instanceUrl accessToken objectName fieldName)
    as (sent & Hrun & _ & _ & _ & Hmention).
  rewrite Hrun. cbn [Metadata.returned]. intros Hvalue. injection Hvalue as <-.
  apply Forall_forall. intros r Hin.
  destruct (uniqueRefs_entry _ r Hin) as (first & rest & Hsame & ->).
  cbn [Metadata.references].
  assert (Forall (oneMention fieldName) (first :: rest)) as Hgroup.
  { rewrite <- Hsame. unfold sameId. rewrite Forall_forall in Hmention.
    apply Forall_forall. intros x Hx. apply filter_In in Hx. apply Hmention, Hx. }
  clear Hsame Hin. split.
  - inversion Hgroup as [ | ? ? [[context Hfirst] _] _]; subst.
    cbn [flat_map]. rewrite Hfirst. discriminate.
  - induction Hgroup as [ | x others [[context Hx] _] _ IH]; [constructor | ].
    cbn [flat_map]. rewrite Hx. constructor; [split; reflexivity | exact IH].
Qed.

Lemma fetchFieldMetadata_mention_witness :
  Forall (mentionsOnly "Invoice")
    (Metadata.uniqueRefs (metadataCollected distinctOrg sampleUrl sampleToken "Account"
                            "Invoice")).
Proof.
  apply (fetchFieldMetadata_entries_mention_the_field distinctOrg sampleUrl sampleToken
           "Account" "Invoice").
  vm_compute. reflexivity.
Defined.

(** *** The LIKE pattern *)

Lemma wildcards_escapeLike_app (fieldName tail : string) :
  noBackslash fieldName = true ->
  wildcards (Metadata.escapeLike fieldName ++ tail) = wildcards tail.
Proof.
  induction fieldName as [ | c rest IH]; intros Hno; [reflexivity | ].
  cbn [noBackslash] in Hno. apply andb_prop in Hno as [Hc Hrest].
  apply negb_true_iff in Hc. cbn [Metadata.escapeLike].
  destruct (Ascii.eqb c "%"%char || Ascii.eqb c "_"%char) eqn:Hwild.
  - cbn [append wildcards]. rewrite Ascii.eqb_refl. apply IH, Hrest.
  - cbn [append wildcards]. rewrite Hc, Hwild. apply IH, Hrest.
Qed.

Lemma unescapeLike_escapeLike (fieldName : string) :
  noBackslash fieldName = true ->
  unescapeLike (Metadata.escapeLike fieldName) = fieldName.
Proof.
  induction fieldName as [ | c rest IH]; intros Hno; [reflexivity | ].
  cbn [noBackslash] in Hno. apply andb_prop in Hno as [Hc Hrest].
  apply negb_true_iff in Hc. cbn [Metadata.escapeLike].
  destruct (Ascii.eqb c "%"%char || Ascii.eqb c "_"%char) eqn:Hwild.
  - cbn [unescapeLike]. rewrite Ascii.eqb_refl, (IH Hrest). reflexivity.
  - cbn [unescapeLike]. rewrite Hc, (IH Hrest). reflexivity.
Qed.

(** X15. For a field name without a backslash, the LIKE pattern built from
    it has exactly two wildcards, the percent signs put around it: every
    percent sign and underscore of the name is escaped, and removing the
    escapes gives the name back. *)
Theorem likeNeedle_wildcards_are_the_outer_ones (fieldName : string) :
  noBackslash fieldName = true ->
  wildcards (Metadata.likeNeedle fieldName) = 2
  /\ unescapeLike (Metadata.escapeLike fieldName) = fieldName.
Proof.
  intros Hno. split; [ | apply unescapeLike_escapeLike, Hno].
  unfold Metadata.likeNeedle. cbn [append wildcards Ascii.eqb Bool.eqb orb].
  rewrite (wildcards_escapeLike_app fieldName "%" Hno). reflexivity.
Qed.

Lemma likeNeedle_witness :
  wildcards (Metadata.likeNeedle "Billing_Status__c") = 2
  /\ unescapeLike (Metadata.escapeLike "Billing_Status__c") = "Billing_Status__c".
Proof.
  apply (likeNeedle_wildcards_are_the_outer_ones "Billing_Status__c"). reflexivity.
Defined.

(** ** [fetchSalesforceObjects] and [fetchObjectFields] *)

Arguments Describe.fetch : simpl never.

(** X16. [fetchSalesforceObjects] sends its request exactly when the
    instance URL is non-empty and starts with https://, and its promise is
    fulfilled exactly when, besides, the platform answers [ok] with an array
    of objects. A rejected URL is reported without any request. *)
Theorem fetchSalesforceObjects_request_and_fulfilment
    localeCompare answer instanceUrl accessToken :
  let seen := Describe.fetchSalesforceObjects localeCompare answer instanceUrl accessToken in
  Describe.issued seen
  = (if Describe.invalidInstanceUrl instanceUrl then []
     else [describeCall instanceUrl accessToken Describe.AllObjects])
  /\ ((exists value, Describe.returned seen = Fulfilled value)
      <-> Describe.invalidInstanceUrl instanceUrl = false
          /\ exists sobjects, answer = Ok (Records sobjects))
  /\ (Describe.invalidInstanceUrl instanceUrl = true ->
      Describe.returned seen = Rejected (Error ("Invalid instance URL: " ++ instanceUrl))).
Proof.
  cbv zeta. unfold Describe.fetchSalesforceObjects, Describe.observe, describeCall.
  destruct (Describe.invalidInstanceUrl instanceUrl).
  - cbn. split; [reflexivity | ]. split; [ | reflexivity].
    split; [intros [value Hv]; discriminate Hv | intros [Hf _]; discriminate Hf].
  - unfold Task.tryCatch, Task.bind, Describe.fetch, Task.throw, Task.ret.
    destruct answer as [[ | | sobjects] | status errorText | | ]; cbn;
      (split; [reflexivity | ]); (split; [ | intros Hf; discriminate Hf]);
      split;
      try (intros [value Hv]; discriminate Hv);
      try (intros [_ [sobjects' Ha]]; discriminate Ha).
    + intros _. split; [reflexivity | ]. exists sobjects. reflexivity.
    + intros _. eexists. reflexivity.
Qed.

Lemma fetchSalesforceObjects_invalid_url_witness :
  Describe.returned
    (Describe.fetchSalesforceObjects ordinalCompare NetworkFailure
       "http://example.my.salesforce.com" sampleToken)
  = Rejected (Error ("Invalid instance URL: " ++ "http://example.my.salesforce.com")).
Proof.
  apply (fetchSalesforceObjects_request_and_fulfilment ordinalCompare NetworkFailure
           "http://example.my.salesforce.com" sampleToken).
  reflexivity.
Defined.

(** X17. A response that is not [ok] makes [fetchSalesforceObjects] and
    [fetchObjectFields] reject with the error that [handleApiError] builds:
    unlike the code search, they let a [TokenExpiredError] reach their
    caller. *)
Theorem describe_functions_reject_with_api_error
    localeCompare status errorText instanceUrl accessToken objectName :
  Describe.invalidInstanceUrl instanceUrl = false ->
  Describe.returned
    (Describe.fetchSalesforceObjects localeCompare (Failed status errorText) instanceUrl
       accessToken)
  = Rejected (handleApiError status errorText)
  /\ Describe.returned
       (Describe.fetchObjectFields (Failed status errorText) instanceUrl accessToken
          objectName)
     = Rejected (handleApiError status errorText).
Proof.
  intros Hvalid.
  unfold Describe.fetchSalesforceObjects, Describe.fetchObjectFields, Describe.observe.
  rewrite Hvalid.
  unfold Task.tryCatch, Task.bind, Describe.fetch, Task.throw, Task.ret. cbn.
  split; reflexivity.
Qed.

Lemma describe_functions_expiry_witness :
  Describe.returned
    (Describe.fetchSalesforceObjects ordinalCompare (Failed 401 invalidSession) sampleUrl
       sampleToken)
  = Rejected (handleApiError 401 invalidSession)
  /\ Describe.returned
       (Describe.fetchObjectFields (Failed 401 invalidSession) sampleUrl sampleToken
          "Account")
     = Rejected (handleApiError 401 invalidSession).
Proof.
  apply (describe_functions_reject_with_api_error ordinalCompare 401 invalidSession
           sampleUrl sampleToken "Account").
  reflexivity.
Defined.

Lemma toObject_queryable (sobjects : list Describe.SObject) :
  Forall (fun o => Describe.queryable o = true /\ Describe.recordCount o = None)
    (map Describe.toObject (filter Describe.so_queryable sobjects)).
Proof.
  apply Forall_forall. intros o Hin. apply in_map_iff in Hin.
  destruct Hin as (obj & <- & Hobj). apply filter_In in Hobj.
  split; [apply Hobj | reflexivity].
Qed.

(** X18. The list that [fetchSalesforceObjects] returns holds one object
    per queryable object of the answer and no other, each marked queryable
    and without a record count, in ascending order of their labels for a
    consistent collation. *)
Theorem fetchSalesforceObjects_returns_queryable_sorted_by_label
    localeCompare answer instanceUrl accessToken (value : list Describe.SalesforceObject) :
  Consistent localeCompare ->
  Describe.returned
    (Describe.fetchSalesforceObjects localeCompare answer instanceUrl accessToken)
  = Fulfilled value ->
  StronglySorted (labelledBefore localeCompare) value
  /\ Forall (fun o => Describe.queryable o = true /\ Describe.recordCount o = None) value
  /\ exists sobjects,
       answer = Ok (Records sobjects)
       /\ Permutation value
            (map Describe.toObject (filter Describe.so_queryable sobjects)).
Proof.
  intros [Hanti Htrans].
  unfold Describe.fetchSalesforceObjects, Describe.observe.
  destruct (Describe.invalidInstanceUrl instanceUrl); [intros Hv; discriminate Hv | ].
  unfold Task.tryCatch, Task.bind, Describe.fetch, Task.throw, Task.ret.
  destruct answer as [[ | | sobjects] | status errorText | | ]; cbn;
    intros Hv; try discriminate Hv.
  injection Hv as <-.
  set (cmp := fun a b : Describe.SalesforceObject =>
                localeCompare (Describe.label a) (Describe.label b)).
  split.
  - apply (sort_sorted cmp).
    + intros a b Hpos. unfold cmp in *.
      pose proof (Hanti (Describe.label a) (Describe.label b)) as Hs. lia.
    + intros a b c. unfold cmp. apply Htrans.
  - split.
    + apply (Permutation_Forall (Permutation_sym (sort_perm cmp _))).
      apply toObject_queryable.
    + exists sobjects. split; [reflexivity | apply sort_perm].
Qed.

Lemma fetchSalesforceObjects_sorted_witness :
  exists value,
    Describe.returned
      (Describe.fetchSalesforceObjects ordinalCompare (Ok (Records sampleObjects))
         sampleUrl sampleToken) = Fulfilled value
    /\ StronglySorted (labelledBefore ordinalCompare) value.
Proof.
  eexists. split; [vm_compute; reflexivity | ].
  apply (fetchSalesforceObjects_returns_queryable_sorted_by_label ordinalCompare
           (Ok (Records sampleObjects)) sampleUrl sampleToken _ ordinalCompare_consistent).
  vm_compute. reflexivity.
Defined.

Lemma toField_coherent (relationships : option (list Describe.ChildRelationship))
    (fd : Describe.FieldDescribe) :
  coherentField (Describe.toField relationships fd).
Proof.
  split; cbn.
  - intros Hreq. apply andb_prop in Hreq as [Hnil _]. apply negb_true_iff in Hnil.
    exact Hnil.
  - destruct relationships as [rels | ]; [ | constructor].
    apply Forall_forall. intros rel Hin. apply in_map_iff in Hin.
    destruct Hin as (rel' & <- & Hrel). apply filter_In in Hrel.
    destruct Hrel as [_ Hname]. apply String.eqb_eq in Hname. exact Hname.
Qed.

(** X19. [fetchObjectFields] does not look at the instance URL: it always
    sends its one request. When its promise is fulfilled, the answer was
    [ok] with an array of fields, and the returned fields are those of the
    answer, one for one and in the same order; a field is marked required
    only when it is not nillable, and the child relationships listed under a
    field all name that field. *)
Theorem fetchObjectFields_request_and_fields answer instanceUrl accessToken objectName :
  let seen := Describe.fetchObjectFields answer instanceUrl accessToken objectName in
  Describe.issued seen
  = [describeCall instanceUrl accessToken (Describe.DescribeOf objectName)]
  /\ forall value,
       Describe.returned seen = Fulfilled value ->
       (exists data fieldList,
          answer = Ok (Some data) /\ Describe.fields data = Records fieldList
          /\ map Describe.f_name value = map Describe.fd_name fieldList)
       /\ Forall coherentField value.
Proof.
  cbv zeta. unfold Describe.fetchObjectFields, Describe.observe, describeCall.
  unfold Task.tryCatch, Task.bind, Describe.fetch, Task.throw, Task.ret.
  destruct answer as [[data | ] | status errorText | | ]; cbn;
    try (split; [reflexivity | intros value Hv; discriminate Hv]).
  destruct (Describe.fields data) as [ | | fieldList] eqn:Hfields; cbn;
    (split; [reflexivity | intros value Hv]); try discriminate Hv.
  injection Hv as <-. split.
  - exists data, fieldList. split; [reflexivity | ]. split; [exact Hfields | ].
    rewrite map_map. reflexivity.
  - apply Forall_forall. intros f Hin. apply in_map_iff in Hin.
    destruct Hin as (fd & <- & _). apply toField_coherent.
Qed.

Lemma fetchObjectFields_witness :
  exists value,
    Describe.returned
      (Describe.fetchObjectFields (Ok (Some sampleDescribe)) "" sampleToken "Account")
    = Fulfilled value
    /\ Forall coherentField value.
Proof.
  eexists. split; [vm_compute; reflexivity | ].
  apply (fetchObjectFields_request_and_fields (Ok (Some sampleDescribe)) "" sampleToken
           "Account").
  vm_compute. reflexivity.
Defined.

(** ** Labels made of API names *)

Ltac by_cases_on_char c :=
  destruct c as [b0 b1 b2 b3 b4 b5 b6 b7];
  destruct b0, b1, b2, b3, b4, b5, b6, b7; reflexivity.

Lemma toUpperChar_space (c : ascii) :
  Ascii.eqb (Js.toUpperChar c) " "%char = Ascii.eqb c " "%char.
Proof. by_cases_on_char c. Qed.

Lemma toLowerChar_space (c : ascii) :
  Ascii.eqb (Js.toLowerChar c) " "%char = Ascii.eqb c " "%char.
Proof. by_cases_on_char c. Qed.

Lemma toUpperChar_underscore (c : ascii) :
  Ascii.eqb (Js.toUpperChar c) "_"%char = Ascii.eqb c "_"%char.
Proof. by_cases_on_char c. Qed.

Lemma toLowerChar_underscore (c : ascii) :
  Ascii.eqb (Js.toLowerChar c) "_"%char = Ascii.eqb c "_"%char.
Proof. by_cases_on_char c. Qed.

Lemma toLowerChar_not_upper (c : ascii) : Js.isUpperChar (Js.toLowerChar c) = false.
Proof. by_cases_on_char c. Qed.

Lemma toUpperChar_not_lower (c : ascii) : Js.isLowerChar (Js.toUpperChar c) = false.
Proof. by_cases_on_char c. Qed.

Lemma toUpperChar_idem (c : ascii) : Js.toUpperChar (Js.toUpperChar c) = Js.toUpperChar c.
Proof. by_cases_on_char c. Qed.

Lemma toLowerChar_idem (c : ascii) : Js.toLowerChar (Js.toLowerChar c) = Js.toLowerChar c.
Proof. by_cases_on_char c. Qed.

Lemma toLowerCase_idem (s : string) : Js.toLowerCase (Js.toLowerCase s) = Js.toLowerCase s.
Proof.
  induction s as [ | c rest IH]; [reflexivity | ].
  cbn [Js.toLowerCase]. rewrite toLowerChar_idem, IH. reflexivity.
Qed.

Lemma toUpperCase_idem (s : string) :
  Describe.toUpperCase (Describe.toUpperCase s) = Describe.toUpperCase s.
Proof.
  induction s as [ | c rest IH]; [reflexivity | ].
  cbn [Describe.toUpperCase]. rewrite toUpperChar_idem, IH. reflexivity.
Qed.

Lemma toLowerCase_plain (s : string) : plainWord s = true -> plainWord (Js.toLowerCase s) = true.
Proof.
  unfold plainWord. induction s as [ | c rest IH]; [reflexivity | ].
  cbn [noSpace noUnderscore Js.toLowerCase].
  rewrite toLowerChar_space, toLowerChar_underscore. intros H.
  apply andb_prop in H as [H1 H2]. apply andb_prop in H1 as [Hc1 Hr1].
  apply andb_prop in H2 as [Hc2 Hr2].
  assert (noSpace rest && noUnderscore rest = true) as Hrest by (rewrite Hr1, Hr2; reflexivity).
  apply IH in Hrest. apply andb_prop in Hrest as [Ha Hb].
  rewrite Hc1, Hc2, Ha, Hb. reflexivity.
Qed.

Lemma toUpperCase_plain (s : string) :
  plainWord s = true -> plainWord (Describe.toUpperCase s) = true.
Proof.
  unfold plainWord. induction s as [ | c rest IH]; [reflexivity | ].
  cbn [noSpace noUnderscore Describe.toUpperCase].
  rewrite toUpperChar_space, toUpperChar_underscore. intros H.
  apply andb_prop in H as [H1 H2]. apply andb_prop in H1 as [Hc1 Hr1].
  apply andb_prop in H2 as [Hc2 Hr2].
  assert (noSpace rest && noUnderscore rest = true) as Hrest by (rewrite Hr1, Hr2; reflexivity).
  apply IH in Hrest. apply andb_prop in Hrest as [Ha Hb].
  rewrite Hc1, Hc2, Ha, Hb. reflexivity.
Qed.

(** After any character, a text without upper-case letters has no hump. *)
Lemma noCamelHump_after (s : string) (x : ascii) :
  noCamelHump (String x (Js.toLowerCase s)) = true.
Proof.
  revert x. induction s as [ | c rest IH]; intros x; [reflexivity | ].
  cbn [Js.toLowerCase noCamelHump]. rewrite toLowerChar_not_upper, andb_false_r.
  cbn [negb andb]. apply (IH (Js.toLowerChar c)).
Qed.

Lemma noCamelHump_toUpperCase (s : string) : noCamelHump (Describe.toUpperCase s) = true.
Proof.
  induction s as [ | c rest IH]; [reflexivity | ].
  cbn [Describe.toUpperCase]. destruct rest as [ | d rest']; [reflexivity | ].
  cbn [Describe.toUpperCase noCamelHump] in *. rewrite toUpperChar_not_lower.
  cbn [andb negb]. exact IH.
Qed.

Lemma capitalize_idem (w : string) :
  Describe.capitalize (Describe.capitalize w) = Describe.capitalize w.
Proof.
  destruct w as [ | c rest]; [reflexivity | ].
  cbn [Describe.capitalize]. rewrite toUpperChar_idem, toLowerCase_idem. reflexivity.
Qed.

Lemma capitalize_plain (w : string) :
  plainWord w = true -> plainWord (Describe.capitalize w) = true.
Proof.
  destruct w as [ | c rest]; [reflexivity | ].
  unfold plainWord. cbn [Describe.capitalize noSpace noUnderscore].
  rewrite toUpperChar_space, toUpperChar_underscore. intros H.
  apply andb_prop in H as [H1 H2]. apply andb_prop in H1 as [Hc1 Hr1].
  apply andb_prop in H2 as [Hc2 Hr2].
  assert (plainWord rest = true) as Hrest by (unfold plainWord; rewrite Hr1, Hr2; reflexivity).
  apply toLowerCase_plain in Hrest. unfold plainWord in Hrest.
  apply andb_prop in Hrest as [Ha Hb]. rewrite Hc1, Hc2, Ha, Hb. reflexivity.
Qed.

Lemma capitalize_noCamelHump (w : string) : noCamelHump (Describe.capitalize w) = true.
Proof.
  destruct w as [ | c rest]; [reflexivity | ].
  cbn [Describe.capitalize]. apply noCamelHump_after.
Qed.

Lemma upper_capitalize (w : string) :
  Describe.toUpperCase (Describe.capitalize w) = Describe.toUpperCase w.
Proof.
  destruct w as [ | c rest]; [reflexivity | ].
  cbn [Describe.capitalize Describe.toUpperCase]. rewrite toUpperChar_idem. f_equal.
  induction rest as [ | d rest' IH]; [reflexivity | ].
  cbn [Js.toLowerCase Describe.toUpperCase]. rewrite IH. f_equal.
  clear. by_cases_on_char d.
Qed.

Lemma fieldWord_idem (w : string) :
  Describe.fieldWord (Describe.fieldWord w) = Describe.fieldWord w.
Proof.
  unfold Describe.fieldWord.
  destruct (existsb (String.eqb (Describe.toUpperCase w)) Describe.abbreviations) eqn:E.
  - rewrite toUpperCase_idem, E. reflexivity.
  - rewrite upper_capitalize, E. apply capitalize_idem.
Qed.

Lemma fieldWord_plain (w : string) :
  plainWord w = true -> plainWord (Describe.fieldWord w) = true.
Proof.
  intros H. unfold Describe.fieldWord.
  destruct (existsb _ Describe.abbreviations);
    [apply toUpperCase_plain, H | apply capitalize_plain, H].
Qed.

Lemma fieldWord_noCamelHump (w : string) : noCamelHump (Describe.fieldWord w) = true.
Proof.
  unfold Describe.fieldWord.
  destruct (existsb _ Describe.abbreviations);
    [apply noCamelHump_toUpperCase | apply capitalize_noCamelHump].
Qed.

Lemma dropSuffix_without_underscore (suffix s : string) :
  noUnderscore s = true -> startsWithUnderscore suffix = true ->
  Describe.dropSuffix suffix s = s.
Proof.
  unfold startsWithUnderscore. destruct suffix as [ | u suffix']; [discriminate | ].
  intros Hs Hu. apply Ascii.eqb_eq in Hu. subst u.
  induction s as [ | c rest IH]; [reflexivity | ].
  cbn [noUnderscore] in Hs. apply andb_prop in Hs as [Hc Hrest].
  apply negb_true_iff in Hc. cbn [Describe.dropSuffix String.eqb]. rewrite Hc.
  rewrite (IH Hrest). reflexivity.
Qed.

Lemma underscoresToSpaces_without_underscore (s : string) :
  noUnderscore s = true -> Describe.underscoresToSpaces s = s.
Proof.
  induction s as [ | c rest IH]; [reflexivity | ].
  cbn [noUnderscore Describe.underscoresToSpaces]. intros Hs.
  apply andb_prop in Hs as [Hc Hrest]. apply negb_true_iff in Hc.
  rewrite Hc, (IH Hrest). reflexivity.
Qed.

Lemma underscoresToSpaces_noUnderscore (s : string) :
  noUnderscore (Describe.underscoresToSpaces s) = true.
Proof.
  induction s as [ | c rest IH]; [reflexivity | ].
  cbn [Describe.underscoresToSpaces noUnderscore]. rewrite IH.
  destruct (Ascii.eqb c "_"%char) eqn:E; [reflexivity | rewrite E; reflexivity].
Qed.

Lemma spaceBeforeCapitals_settled (s : string) :
  noCamelHump s = true -> Describe.spaceBeforeCapitals s = s.
Proof.
  induction s as [ | a rest IH]; [reflexivity | ].
  destruct rest as [ | b rest']; [reflexivity | ].
  intros Hs. cbn [noCamelHump] in Hs. apply andb_prop in Hs as [Hab Hrest].
  apply negb_true_iff in Hab.
  change (Describe.spaceBeforeCapitals (String a (String b rest')))
    with (if Js.isLowerChar a && Js.isUpperChar b
          then String a (String " "%char (Describe.spaceBeforeCapitals (String b rest')))
          else String a (Describe.spaceBeforeCapitals (String b rest'))).
  rewrite Hab, (IH Hrest). reflexivity.
Qed.

Lemma spaceBeforeCapitals_noUnderscore (s : string) :
  noUnderscore s = true -> noUnderscore (Describe.spaceBeforeCapitals s) = true.
Proof.
  induction s as [ | a rest IH]; [reflexivity | ].
  destruct rest as [ | b rest']; [intros H; exact H | ].
  intros Hs.
  change (Describe.spaceBeforeCapitals (String a (String b rest')))
    with (if Js.isLowerChar a && Js.isUpperChar b
          then String a (String " "%char (Describe.spaceBeforeCapitals (String b rest')))
          else String a (Describe.spaceBeforeCapitals (String b rest'))).
  cbn [noUnderscore] in Hs. apply andb_prop in Hs as [Ha Hrest].
  assert (noUnderscore (String b rest') = true) as Hrest' by exact Hrest.
  apply IH in Hrest'.
  destruct (Js.isLowerChar a && Js.isUpperChar b); cbn [noUnderscore];
    rewrite Ha; cbn [andb]; try (cbn [Ascii.eqb Bool.eqb negb andb]); exact Hrest'.
Qed.

Lemma splitWords_nonempty (s : string) : Describe.splitWords s <> [].
Proof.
  induction s as [ | c rest IH]; cbn [Describe.splitWords]; [discriminate | ].
  destruct (Ascii.eqb c " "%char); [discriminate | ].
  destruct (Describe.splitWords rest); discriminate.
Qed.

Lemma splitWords_plain (s : string) :
  noUnderscore s = true -> Forall (fun w => plainWord w = true) (Describe.splitWords s).
Proof.
  induction s as [ | c rest IH]; intros Hs; cbn [Describe.splitWords].
  - constructor; [reflexivity | constructor].
  - cbn [noUnderscore] in Hs. apply andb_prop in Hs as [Hc Hrest].
    specialize (IH Hrest).
    destruct (Ascii.eqb c " "%char) eqn:Espace.
    + constructor; [reflexivity | exact IH].
    + destruct (Describe.splitWords rest) as [ | word others].
      * constructor; [ | constructor]. unfold plainWord. cbn [noSpace noUnderscore].
        rewrite Espace, Hc. reflexivity.
      * inversion IH as [ | ? ? Hword Hothers]; subst. constructor; [ | exact Hothers].
        unfold plainWord in *. cbn [noSpace noUnderscore]. rewrite Espace, Hc.
        cbn [negb andb]. apply andb_prop in Hword as [Hw1 Hw2]. rewrite Hw1, Hw2.
        reflexivity.
Qed.

Lemma splitWords_word (w : string) :
  noSpace w = true -> Describe.splitWords w = [w].
Proof.
  induction w as [ | c rest IH]; [reflexivity | ].
  cbn [noSpace Describe.splitWords]. intros H. apply andb_prop in H as [Hc Hrest].
  apply negb_true_iff in Hc. rewrite Hc, (IH Hrest). reflexivity.
Qed.

Lemma splitWords_app (w t : string) :
  noSpace w = true ->
  Describe.splitWords (w ++ String " "%char t) = w :: Describe.splitWords t.
Proof.
  induction w as [ | c rest IH]; [reflexivity | ].
  cbn [noSpace append Describe.splitWords]. intros H. apply andb_prop in H as [Hc Hrest].
  apply negb_true_iff in Hc. rewrite Hc, (IH Hrest). reflexivity.
Qed.

Lemma splitWords_join (ws : list string) :
  ws <> [] -> Forall (fun w => plainWord w = true) ws ->
  Describe.splitWords (Js.join " " ws) = ws.
Proof.
  induction ws as [ | w rest IH]; intros Hne Hws; [contradiction | ].
  inversion Hws as [ | ? ? Hw Hrest]; subst.
  unfold plainWord in Hw. apply andb_prop in Hw as [Hspace _].
  destruct rest as [ | w' rest'].
  - cbn [Js.join]. apply splitWords_word, Hspace.
  - change (Js.join " " (w :: w' :: rest'))
      with (w ++ String " "%char (Js.join " " (w' :: rest'))).
    rewrite (splitWords_app _ _ Hspace), IH; [reflexivity | discriminate | exact Hrest].
Qed.

Lemma noUnderscore_app (a b : string) :
  noUnderscore (a ++ b) = noUnderscore a && noUnderscore b.
Proof.
  induction a as [ | c rest IH]; [reflexivity | ].
  cbn [append noUnderscore]. rewrite IH, andb_assoc. reflexivity.
Qed.

Lemma join_noUnderscore (ws : list string) :
  Forall (fun w => plainWord w = true) ws -> noUnderscore (Js.join " " ws) = true.
Proof.
  induction ws as [ | w rest IH]; intros Hws; [reflexivity | ].
  inversion Hws as [ | ? ? Hw Hrest]; subst.
  unfold plainWord in Hw. apply andb_prop in Hw as [_ Hunder].
  destruct rest as [ | w' rest']; [exact Hunder | ].
  change (Js.join " " (w :: w' :: rest'))
    with (w ++ String " "%char (Js.join " " (w' :: rest'))).
  rewrite noUnderscore_app, Hunder. cbn [noUnderscore andb]. apply IH, Hrest.
Qed.

Lemma noCamelHump_app_space (w t : string) :
  noCamelHump w = true -> noCamelHump t = true ->
  noCamelHump (w ++ String " "%char t) = true.
Proof.
  intros Hw Ht. induction w as [ | a rest IH].
  - cbn [append noCamelHump]. destruct t as [ | b t']; [reflexivity | ].
    cbn [Js.isLowerChar]. exact Ht.
  - destruct rest as [ | b rest'].
    + cbn [append noCamelHump]. rewrite andb_false_r. cbn [negb andb].
      destruct t as [ | b t']; [reflexivity | exact Ht].
    + cbn [noCamelHump] in Hw. apply andb_prop in Hw as [Hab Hrest].
      cbn [append noCamelHump]. rewrite Hab. cbn [andb]. apply IH, Hrest.
Qed.

Lemma join_noCamelHump (ws : list string) :
  Forall (fun w => noCamelHump w = true) ws -> noCamelHump (Js.join " " ws) = true.
Proof.
  induction ws as [ | w rest IH]; intros Hws; [reflexivity | ].
  inversion Hws as [ | ? ? Hw Hrest]; subst.
  destruct rest as [ | w' rest']; [exact Hw | ].
  change (Js.join " " (w :: w' :: rest'))
    with (w ++ String " "%char (Js.join " " (w' :: rest'))).
  apply noCamelHump_app_space; [exact Hw | apply IH, Hrest].
Qed.

Section WordMap.

(** The word map of a label function: [capitalize] or [fieldWord]. *)
Variable word : string -> string.
Hypothesis word_plain : forall w, plainWord w = true -> plainWord (word w) = true.
Hypothesis word_settled : forall w, noCamelHump (word w) = true.
Hypothesis word_idem : forall w, word (word w) = word w.

(** A label made of plain words is left as it is by the steps that follow
    the removal of the suffixes. *)
Lemma label_of_words_fixed (ws : list string) :
  ws <> [] -> Forall (fun w => plainWord w = true) ws ->
  let made := Js.join " " (map word ws) in
  noUnderscore made = true
  /\ Js.join " "
       (map word
          (Describe.splitWords
             (Describe.spaceBeforeCapitals (Describe.underscoresToSpaces made))))
     = made.
Proof.
  intros Hne Hws made.
  assert (Forall (fun w => plainWord w = true) (map word ws)) as Hplain.
  { apply Forall_forall. intros w Hin. apply in_map_iff in Hin.
    destruct Hin as (w0 & <- & Hw0). apply word_plain.
    rewrite Forall_forall in Hws. apply Hws, Hw0. }
  assert (noUnderscore made = true) as Hunder by (apply join_noUnderscore, Hplain).
  split; [exact Hunder | ].
  rewrite (underscoresToSpaces_without_underscore made Hunder).
  rewrite spaceBeforeCapitals_settled.
  - unfold made. rewrite splitWords_join; [ | | exact Hplain].
    + rewrite map_map. f_equal. apply map_ext. intros w. apply word_idem.
    + destruct ws; [contradiction | discriminate].
  - apply join_noCamelHump. apply Forall_forall. intros w Hin.
    apply in_map_iff in Hin. destruct Hin as (w0 & <- & _). apply word_settled.
Qed.

End WordMap.



(** ** Callers *)

(** X22. [withTokenHandling] attempts the API call once or twice and runs
    the recovery at most once. It attempts the call a second time exactly
    when the first attempt rejected with a [TokenExpiredError] and the
    recovery answered that it succeeded; an expired token met by the second
    attempt is passed on without another recovery. *)
Theorem withTokenHandling_retries_at_most_once {St A}
    (handler : Thrown -> Task.t St bool) (apiCall : Task.t St A) (s : St) :
  let final :=
    snd (Auth.withTokenHandling (Tally St) (recovered handler) (attempted apiCall)
           (mkTally s 0 0)) in
  (attempts final = 1 \/ attempts final = 2)
  /\ recoveries final <= 1
  /\ (attempts final = 2 <-> recoverable handler apiCall s).
Proof.
  cbv zeta. unfold Auth.withTokenHandling, Task.tryCatch, Task.bind, Task.throw,
    attempted, recovered, recoverable. cbn [inner attempts recoveries].
  destruct (apiCall s) as [[error | value] s1] eqn:Hfirst; cbn [inner attempts recoveries snd].
  - destruct (isTokenExpired error) eqn:Hexpired; cbn [snd inner attempts recoveries].
    + destruct (handler error s1) as [[error' | success] s2] eqn:Hrecovery;
        cbn [inner attempts recoveries snd].
      * split; [left; reflexivity | ]. split; [lia | ].
        split; [intros H; discriminate H | ].
        intros (e & t1 & t2 & He & _ & Hh). injection He as <- <-.
        rewrite Hrecovery in Hh. discriminate Hh.
      * destruct success.
        -- cbn [inner]. destruct (apiCall s2) as [completion s3].
           cbn [snd inner attempts recoveries].
           split; [right; reflexivity | ]. split; [lia | ].
           split; [ | reflexivity]. intros _. exists error, s1, s2. repeat split; assumption.
        -- cbn [snd attempts recoveries]. split; [left; reflexivity | ]. split; [lia | ].
           split; [intros H; discriminate H | ].
           intros (e & t1 & t2 & He & _ & Hh). injection He as <- <-.
           rewrite Hrecovery in Hh. discriminate Hh.
    + split; [left; reflexivity | ]. split; [lia | ].
      split; [intros H; discriminate H | ].
      intros (e & t1 & t2 & He & Hx & _). injection He as <- <-.
      rewrite Hexpired in Hx. discriminate Hx.
  - split; [left; reflexivity | ]. split; [lia | ].
    split; [intros H; discriminate H | ].
    intros (e & t1 & t2 & He & _). discriminate He.
Qed.

(** X23. Around the code search, [withTokenHandling] does nothing: since
    [searchCodeContent] never rejects, the recovery is never run and the
    search is never repeated, whatever the platform answers, an expired
    session included. *)
Theorem withTokenHandling_is_idle_around_the_search
    (handler : Thrown -> Task.t (list Request) bool)
    localeCompare env order instanceUrl accessToken searchTerm (log : list Request) :
  Auth.withTokenHandling (list Request) handler
    (searchCall localeCompare env order instanceUrl accessToken searchTerm) log
  = searchCall localeCompare env order instanceUrl accessToken searchTerm log.
Proof.
  unfold Auth.withTokenHandling, Task.tryCatch, searchCall.
  pose proof (searchCodeContent_never_rejects localeCompare env order instanceUrl
                accessToken searchTerm) as Hnever.
  destruct (returned (searchCodeContent localeCompare env order instanceUrl accessToken
                        searchTerm)) as [value | reason]; [reflexivity | ].
  exfalso. apply (Hnever reason). reflexivity.
Qed.


(** X25. The field screen gives every entry that [fetchFieldMetadata]
    returns the plain text icon: the types written by the sections start
    with capitals, and [getFileIcon] looks for the lower-case words apex,
    class, trigger and flow. *)
Theorem getFileIcon_is_the_text_icon_for_every_reference
    env instanceUrl accessToken objectName fieldName (value : list Metadata.MetadataReference) :
  Metadata.returned
    (Metadata.fetchFieldMetadata env instanceUrl accessToken objectName fieldName)
  = Fulfilled value ->
  Forall (fun r => FieldDetails.getFileIcon (Metadata.type r) = FieldDetails.FileText) value.
Proof.
  destruct (fetchFieldMetadata_run env instanceUrl accessToken objectName fieldName)
    as (sent & Hrun & _ & _ & _ & Hmention).
  rewrite Hrun. cbn [Metadata.returned]. intros Hvalue. injection Hvalue as <-.
  apply Forall_forall. intros r Hin.
  destruct (uniqueRefs_entry _ r Hin) as (first & rest & Hsame & ->).
  cbn [Metadata.type].
  assert (In first (metadataCollected env instanceUrl accessToken objectName fieldName))
    as Hfirst.
  { assert (In first (first :: rest)) as Hhead by (left; reflexivity).
    rewrite <- Hsame in Hhead. unfold sameId in Hhead. apply filter_In in Hhead.
    apply Hhead. }
  rewrite Forall_forall in Hmention. destruct (Hmention first Hfirst) as [_ Htype].
  unfold metadataTypes in Htype. cbn [In] in Htype.
  repeat (destruct Htype as [<- | Htype]; [reflexivity | ]). destruct Htype.
Qed.

Lemma getFileIcon_witness :
  Forall (fun r => FieldDetails.getFileIcon (Metadata.type r) = FieldDetails.FileText)
    (Metadata.uniqueRefs (metadataCollected distinctOrg sampleUrl sampleToken "Account"
                            "Invoice")).
Proof.
  apply (getFileIcon_is_the_text_icon_for_every_reference distinctOrg sampleUrl sampleToken
           "Account" "Invoice").
  vm_compute. reflexivity.
Defined.

Lemma returned_types_known localeCompare env order instanceUrl accessToken searchTerm
    (value : list CodeSearchResult) :
  returned (searchCodeContent localeCompare env order instanceUrl accessToken searchTerm)
  = Fulfilled value ->
  Forall (fun r => In (type r) knownTypes) value.
Proof.
  intros Hvalue.
  destruct (searchCodeContent_returned localeCompare env order instanceUrl accessToken
              searchTerm) as [Hempty | [_ Hrank]].
  - rewrite Hempty in Hvalue. injection Hvalue as <-. constructor.
  - rewrite Hrank in Hvalue. injection Hvalue as <-.
    eapply Forall_impl; [ | apply rank_wellFormed, collected_Inv].
    intros r [_ Htype]. exact Htype.
Qed.

(** X26. The search screen knows the type of every result of the search:
    [getMetadataTypeInfo] finds it among [METADATA_TYPES] and never falls
    back to the generic entry, and the entry found is not the one for all
    types. *)
Theorem getMetadataTypeInfo_knows_every_returned_type
    localeCompare env order instanceUrl accessToken searchTerm
    (value : list CodeSearchResult) :
  returned (searchCodeContent localeCompare env order instanceUrl accessToken searchTerm)
  = Fulfilled value ->
  Forall (fun r =>
            In (Assistant.getMetadataTypeInfo (type r)) Assistant.METADATA_TYPES
            /\ Assistant.key (Assistant.getMetadataTypeInfo (type r)) = type r
            /\ type r <> "all")
    value.
Proof.
  intros Hvalue.
  eapply Forall_impl; [ | apply (returned_types_known _ _ _ _ _ _ _ Hvalue)].
  intros r Htype. unfold knownTypes in Htype. cbn [In] in Htype.
  repeat (destruct Htype as [<- | Htype];
          [split; [cbn; tauto | split; [reflexivity | discriminate]] | ]).
  destruct Htype.
Qed.

Lemma getMetadataTypeInfo_witness :
  Forall (fun r =>
            In (Assistant.getMetadataTypeInfo (type r)) Assistant.METADATA_TYPES
            /\ Assistant.key (Assistant.getMetadataTypeInfo (type r)) = type r
            /\ type r <> "all")
    (rank ordinalCompare (collected sampleOrg [] sampleUrl sampleToken "Account")).
Proof.
  apply (getMetadataTypeInfo_knows_every_returned_type ordinalCompare sampleOrg []
           sampleUrl sampleToken "Account").
  vm_compute. reflexivity.
Defined.

Lemma toggleFilter_settled (filterKey : string) (prev : list string) :
  settledFilters prev -> settledFilters (Assistant.toggleFilter filterKey prev).
Proof.
  intros [Hne Hall]. unfold Assistant.toggleFilter.
  destruct (String.eqb filterKey "all") eqn:Ekey;
    [split; [discriminate | reflexivity] | ].
  apply String.eqb_neq in Ekey.
  assert (forall l : list string,
            ~ In "all" l -> settledFilters match l with [] => ["all"] | _ => l end)
    as Hclose.
  { intros l Hl. destruct l as [ | x l']; [split; [discriminate | reflexivity] | ].
    split; [discriminate | ]. intros Hin. exfalso. exact (Hl Hin). }
  apply Hclose. destruct (existsb (String.eqb filterKey) prev) eqn:Ehas.
  - intros Hin. apply filter_In in Hin. destruct Hin as [Hin _].
    rewrite (Hall Hin) in Ehas. cbn in Ehas. rewrite orb_false_r in Ehas.
    apply String.eqb_eq in Ehas. contradiction.
  - intros Hin. apply in_app_or in Hin. destruct Hin as [Hin | [Hin | []]].
    + apply filter_In in Hin. destruct Hin as [_ Hin]. cbn in Hin. discriminate Hin.
    + exact (Ekey Hin).
Qed.

(** X27. Whatever filter keys are toggled on the search screen, in whatever
    order, the selection is never empty, and the filter for all types is
    selected only alone. *)
Theorem selected_filters_stay_settled (pressed : list string) :
  settledFilters (filtersAfter pressed).
Proof.
  unfold filtersAfter.
  assert (forall selected, settledFilters selected ->
            settledFilters
              (fold_left (fun sel filterKey => Assistant.toggleFilter filterKey sel)
                 pressed selected)) as Hall.
  { induction pressed as [ | k rest IH]; intros selected Hsel; [exact Hsel | ].
    cbn [fold_left]. apply IH, toggleFilter_settled, Hsel. }
  apply Hall. split; [discriminate | reflexivity].
Qed.

(** ** The records of the content scanner *)

Lemma findBy_drop (eqc : ascii -> ascii -> bool) (needle s : string) (n k : nat) :
  Js.findBy eqc needle (Js.drop n s) = Some k -> exists j, Js.findBy eqc needle s = Some j.
Proof.
  revert s. induction n as [ | n IH]; intros s Hfound; [exists k; exact Hfound | ].
  destruct s as [ | c rest]; [exists k; exact Hfound | ].
  cbn [Js.drop] in Hfound. destruct (IH rest Hfound) as [j Hj].
  cbn [Js.findBy]. destruct (Js.prefixBy eqc needle (String c rest)).
  - exists 0. reflexivity.
  - rewrite Hj. exists (S j). reflexivity.
Qed.

Lemma regexExec_hit (searchTerm s : string) (from next : nat) :
  regexExec searchTerm s from = (true, next) -> holdsTerm searchTerm s = true.
Proof.
  unfold regexExec, holdsTerm.
  destruct (String.length s <? from)%nat; [discriminate | ].
  destruct (Js.findBy Js.eqIgnoreCase searchTerm (Js.drop from s)) as [k | ] eqn:Hfound;
    [ | discriminate].
  intros _. destruct (findBy_drop _ _ _ _ _ Hfound) as [j ->]. reflexivity.
Qed.

Lemma findBy_bound (eqc : ascii -> ascii -> bool) (needle s : string) (k : nat) :
  Js.findBy eqc needle s = Some k -> k <= String.length s.
Proof.
  revert k. induction s as [ | c rest IH]; intros k; cbn [Js.findBy].
  - destruct (Js.prefixBy eqc needle ""); [ | discriminate].
    intros H. injection H as <-. cbn. lia.
  - destruct (Js.prefixBy eqc needle (String c rest)).
    + intros H. injection H as <-. lia.
    + destruct (Js.findBy eqc needle rest) as [j | ]; [ | discriminate].
      intros H. injection H as <-. specialize (IH j eq_refl). cbn [String.length]. lia.
Qed.

Lemma length_append_ (a b : string) :
  String.length (a ++ b) = String.length a + String.length b.
Proof.
  induction a as [ | c rest IH]; [reflexivity | ]. cbn [append String.length].
  rewrite IH. reflexivity.
Qed.

Lemma length_take (n : nat) (s : string) : String.length (Js.take n s) <= n.
Proof.
  revert s. induction n as [ | n IH]; intros s; [cbn; lia | ].
  destruct s as [ | c rest]; cbn [Js.take String.length]; [lia | ].
  specialize (IH rest). lia.
Qed.

Lemma length_trimStart (s : string) : String.length (Js.trimStart s) <= String.length s.
Proof.
  induction s as [ | c rest IH]; [cbn; lia | ].
  cbn [Js.trimStart]. destruct (Js.isSpace c); cbn [String.length]; lia.
Qed.

Lemma length_trimEnd (s : string) : String.length (Js.trimEnd s) <= String.length s.
Proof.
  induction s as [ | c rest IH]; [cbn; lia | ].
  cbn [Js.trimEnd]. destruct (Js.trimEnd rest) as [ | d rest'].
  - destruct (Js.isSpace c); cbn [String.length]; lia.
  - cbn [String.length] in *. lia.
Qed.

Lemma length_trim (s : string) : String.length (Js.trim s) <= String.length s.
Proof.
  unfold Js.trim. pose proof (length_trimEnd (Js.trimStart s)).
  pose proof (length_trimStart s). lia.
Qed.

Lemma snippetOf_length (searchTerm ln : string) :
  String.length (snippetOf searchTerm ln 50) <= String.length searchTerm + 106.
Proof.
  unfold snippetOf.
  set (matchIndex := Js.indexOf (Js.toLowerCase ln) (Js.toLowerCase searchTerm)).
  assert (-1 <= matchIndex)%Z as Hlow.
  { unfold matchIndex, Js.indexOf. destruct (Js.findBy _ _ _); lia. }
  set (len := Z.of_nat (String.length ln)).
  set (start := Z.max 0 (matchIndex - 50)).
  set (stop := Z.min len (matchIndex + Z.of_nat (String.length searchTerm) + 50)).
  assert (String.length (Js.substring ln start stop) <= String.length searchTerm + 100)
    as Hcut.
  { unfold Js.substring. fold len.
    eapply Nat.le_trans; [apply length_take | ].
    unfold start, stop. lia. }
  pose proof (length_trim (Js.substring ln start stop)) as Htrim.
  rewrite !length_append_.
  destruct (0 <? start)%Z; destruct (stop <? len)%Z; cbn [String.length]; lia.
Qed.

Lemma soundMatch_entry searchTerm type (before rest : list string) (ln : string)
    (content : string) (from next : nat) :
  regexExec searchTerm ln from = (true, next) ->
  soundMatch searchTerm type (before ++ ln :: rest)
    (mkMatch (List.length before + 1) content (snippetOf searchTerm ln 50)
       ("Line " ++ Js.ofNat (List.length before + 1) ++ " (" ++ type ++ ")")).
Proof.
  intros Hhit. unfold soundMatch. cbn [line context snippet].
  split; [ | split; [lia | split; [reflexivity | apply snippetOf_length]]].
  exists ln. split; [ | apply (regexExec_hit _ _ _ _ Hhit)].
  replace (List.length before + 1 - 1) with (List.length before) by lia.
  rewrite nth_error_app2; [ | lia]. rewrite Nat.sub_diag. reflexivity.
Qed.

(** The loop adds sound records only, and leaves the results array alone. *)
Lemma scanLines_sound searchTerm type (rest before : list string) (found : list Match)
    (st : Shared) :
  Forall (soundMatch searchTerm type (before ++ rest)) found ->
  exists found',
    fst (scanLines searchTerm type (before ++ rest) rest (List.length before) found st)
    = inr found'
    /\ results (snd (scanLines searchTerm type (before ++ rest) rest (List.length before)
                       found st)) = results st
    /\ Forall (soundMatch searchTerm type (before ++ rest)) found'.
Proof.
  revert before found st. induction rest as [ | ln rest' IH]; intros before found st Hfound;
    cbn [scanLines].
  - exists found. repeat split. exact Hfound.
  - destruct (List.length found <? maxMatches)%nat; [ | exists found; repeat split; exact Hfound].
    unfold bind, test.
    destruct (regexExec searchTerm ln (lastIndex st)) as [hit next] eqn:Hexec.
    assert ((before ++ ln :: rest')%list = ((before ++ [ln]) ++ rest')%list) as Hlines
      by (rewrite <- app_assoc; reflexivity).
    assert (S (List.length before) = List.length (before ++ [ln])%list) as Hindex
      by (rewrite length_app; cbn; lia).
    rewrite Hlines, Hindex.
    match goal with
    | |- context [scanLines _ _ _ _ _ ?acc ?s] =>
        destruct (IH (before ++ [ln])%list acc s) as (found' & Hrun & Hres & Hall)
    end.
    + rewrite <- Hlines. destruct hit; [ | exact Hfound].
      apply Forall_app. split; [exact Hfound | ]. constructor; [ | constructor].
      apply (soundMatch_entry _ _ _ _ _ _ _ _ Hexec).
    + exists found'. split; [exact Hrun | ]. split; [ | exact Hall].
      rewrite Hres. reflexivity.
Qed.

(** X28. The content scanner reports no line that does not hold the term.
    [searchInContent] completes normally and either leaves the results as
    they are or appends one entry with at least one record; every record of
    that entry names a line of the content that holds the term (compared
    ignoring case), carries the context text of that line number and type,
    and has a snippet at most 106 characters longer than the term. *)
Theorem searchInContent_reports_only_lines_that_hold_the_term
    searchTerm content fileName type name label id (st : Shared) :
  let run := searchInContent searchTerm content fileName type name label id st in
  fst run = inr tt
  /\ (results (snd run) = results st
      \/ exists found,
           results (snd run)
           = (results st
                ++ [mkResult id type name label fileName found (List.length found)])%list
           /\ found <> []
           /\ Forall (soundMatch searchTerm type (Js.splitLines content)) found).
Proof.
  cbv zeta. unfold searchInContent.
  destruct (negb (Js.truthy content) || Nat.eqb (String.length content) 0);
    [split; [reflexivity | left; reflexivity] | ].
  unfold bind.
  destruct (scanLines_sound searchTerm type (Js.splitLines content) [] [] st)
    as (found & Hrun & Hres & Hall); [constructor | ].
  change ([] ++ Js.splitLines content)%list with (Js.splitLines content)
    in Hrun, Hres, Hall.
  change (List.length (@nil string)) with 0 in Hrun, Hres.
  destruct (scanLines searchTerm type (Js.splitLines content) (Js.splitLines content) 0 []
              st) as [[e | found0] st1]; cbn [fst snd] in Hrun, Hres; [discriminate Hrun | ].
  injection Hrun as ->.
  destruct (0 <? List.length found)%nat eqn:Hsome.
  - unfold push. cbn [fst snd results]. split; [reflexivity | ]. right.
    exists found. rewrite Hres. split; [reflexivity | ]. split; [ | exact Hall].
    intros ->. cbn in Hsome. discriminate Hsome.
  - split; [reflexivity | ]. left. exact Hres.
Qed.
